(** * Battleship probability engine: a shallow embedding and its properties

    The development follows [probabilityCalculator.ts]: the placement
    enumerator, the consistency filter, the aggregator, the alignment
    analyzer, the five heuristic modulators, the entropy estimator and the
    final normalizer.

    Numbers.  Rows, columns, board dimensions and ship lengths are JavaScript
    integers and are modelled by [Z], so that [boardWidth - shipLength] or
    [hitRow + dx] may be negative exactly where they are in the source.
    Cell values are IEEE doubles in the source; they are modelled by exact
    rationals [Q] and compared with [==].  Every statement below is therefore
    about the engine computed in exact arithmetic.

    The development also covers the functions of the user interface that
    call the engine or read its map: [findBestMove] of the game board;
    [getProbabilityMap], [handleCellSelect] and [processAttack] of the game
    component, with the effect that writes the map into the board; and
    [isValidPlacement] and [placeShip] of the ship placement component.
    React state is modelled by explicit state passing: a handler is a
    function from the state it reads to the state it sets. *)

From Stdlib Require Import ZArith QArith Qminmax Qabs List Bool Lia Lqa FinFun Sorted.
Import ListNotations.

Local Open Scope Z_scope.

(** ** Loops and arrays *)

(** [range lo hi] lists the values taken by [i] in
    [for (let i = lo; i < hi; i++)]. *)
Definition range (lo hi : Z) : list Z :=
  map (fun k => lo + Z.of_nat k) (seq 0 (Z.to_nat (hi - lo))).

(** The prefix of a list on which a loop condition holds. *)
Fixpoint takeWhile {A : Type} (p : A -> bool) (l : list A) : list A :=
  match l with
  | [] => []
  | x :: l' => if p x then x :: takeWhile p l' else []
  end.

(** [Array.prototype.sort] with a numeric comparator [key a - key b]; the
    sort is stable, as the language requires. *)
Fixpoint insertBy {A : Type} (key : A -> Z) (x : A) (l : list A) : list A :=
  match l with
  | [] => [x]
  | y :: l' => if key x <=? key y then x :: y :: l' else y :: insertBy key x l'
  end.

Definition sortBy {A : Type} (key : A -> Z) (l : list A) : list A :=
  fold_right (insertBy key) [] l.

(** [Array.prototype.slice(start, stop)]. *)
Definition slice {A : Type} (start stop : Z) (l : list A) : list A :=
  firstn (Z.to_nat (stop - start)) (skipn (Z.to_nat start) l).

(** Two-dimensional arrays [number[][]], indexed by row then column.  Reads
    outside the array give the default and writes outside it are dropped.
    For hits inside the board the engine never leaves the array: placements,
    adjacent cells and extension points are proved to lie on the board at
    the end of the file, and the remaining writes are guarded by
    [isValidCell]. *)
Section Grid.
Context {A : Type}.
Variable dflt : A.

Definition mkGrid (h w : Z) (v : A) : list (list A) :=
  repeat (repeat v (Z.to_nat w)) (Z.to_nat h).

Definition getCell (g : list (list A)) (r c : Z) : A :=
  if (0 <=? r) && (0 <=? c)
  then nth (Z.to_nat c) (nth (Z.to_nat r) g []) dflt
  else dflt.

Definition inGrid (g : list (list A)) (r c : Z) : bool :=
  (0 <=? r) && (0 <=? c) &&
  (Z.to_nat r <? length g)%nat &&
  (Z.to_nat c <? length (nth (Z.to_nat r) g []))%nat.

Fixpoint updNth {B : Type} (f : B -> B) (n : nat) (l : list B) : list B :=
  match l, n with
  | [], _ => []
  | x :: l', O => f x :: l'
  | x :: l', S n' => x :: updNth f n' l'
  end.

Definition updCell (f : A -> A) (g : list (list A)) (r c : Z)
  : list (list A) :=
  if (0 <=? r) && (0 <=? c)
  then updNth (updNth f (Z.to_nat c)) (Z.to_nat r) g
  else g.

(** A grid of [h] rows of [w] cells each. *)
Definition hasDims (h w : Z) (g : list (list A)) : Prop :=
  length g = Z.to_nat h /\ Forall (fun row => length row = Z.to_nat w) g.
End Grid.

(** ** Data model *)

Definition Coordinate : Type := (Z * Z)%type.
Definition ProbabilityMap : Type := list (list Q).

Record SunkShip : Type := mkSunkShip
  { sunkLength : Z; positions : list Coordinate }.

Inductive ProbabilityMode : Type :=
| NORMAL | HUNTING | TARGETING | SUPER_AGGRESSIVE | OPTIMIZED.

Inductive Direction : Type := horizontal | vertical.

Record AlignedGroup : Type := mkGroup
  { direction : Direction; coordinates : list Coordinate }.

Definition ADJACENT_DIRECTIONS : list (Z * Z) :=
  [(-1, 0); (0, 1); (1, 0); (0, -1)].

Definition ADJACENCY_FACTOR : Q := 3.
Definition ALIGNMENT_FACTOR : Q := 4.
Definition COMPLETION_FACTOR : Q := 5.
Definition SUPER_ADJACENCY_FACTOR : Q := 5.
Definition SUPER_ALIGNMENT_FACTOR : Q := 8.
Definition SUPER_COMPLETION_FACTOR : Q := 10.
Definition OPTIMIZED_ADJACENCY_FACTOR : Q := 10.
Definition OPTIMIZED_ALIGNMENT_FACTOR : Q := 15.
Definition OPTIMIZED_COMPLETION_FACTOR : Q := 20.
Definition OPTIMIZED_PATTERN_FACTOR : Q := 5.
Definition ENTROPY_WEIGHT : Q := 3 # 10.

(** [x > 0] on cell values. *)
Definition Qpos (x : Q) : bool := negb (Qle_bool x 0).

Definition prob (m : ProbabilityMap) (rc : Coordinate) : Q :=
  getCell 0%Q m (fst rc) (snd rc).

(** [probabilityMap[row][col] = f(probabilityMap[row][col])]. *)
Definition setProb (f : Q -> Q) (m : ProbabilityMap) (rc : Coordinate)
  : ProbabilityMap :=
  updCell f m (fst rc) (snd rc).

(** [if (probabilityMap[row][col] > 0) probabilityMap[row][col] *= k]. *)
Definition boost (k : Q) (x : Q) : Q := if Qpos x then (x * k)%Q else x.

(** [for (const [row, col] of cells) if (map[row][col] > 0) map[row][col] *= k]. *)
Definition boostCells (k : Q) (cells : list Coordinate) (m : ProbabilityMap)
  : ProbabilityMap :=
  fold_left (setProb (boost k)) cells m.

(** The cells visited by
    [for (row = 0; row < h; row++) for (col = 0; col < w; col++)]. *)
Definition boardCells (h w : Z) : list Coordinate :=
  flat_map (fun r => map (fun c => (r, c)) (range 0 w)) (range 0 h).

(** ** Geometry and consistency primitives *)

Definition coordEq (a b : Coordinate) : bool :=
  (fst a =? fst b) && (snd a =? snd b).

Definition isCoordinateInList (coord : Coordinate) (l : list Coordinate)
  : bool :=
  existsb (fun item => coordEq item coord) l.

Definition isValidCell (row col height width : Z) : bool :=
  (0 <=? row) && (row <? height) && (0 <=? col) && (col <? width).

(** The index of [hit] in [placement], or [-1]. *)
Fixpoint indexIn (hit : Coordinate) (placement : list Coordinate) (i : Z) : Z :=
  match placement with
  | [] => -1
  | p :: rest => if coordEq p hit then i else indexIn hit rest (i + 1)
  end.

Fixpoint contiguous (l : list Z) : bool :=
  match l with
  | a :: (b :: _) as rest => (b =? a + 1) && contiguous rest
  | _ => true
  end.

Definition isConsistentWithHits (placement hits : list Coordinate) : bool :=
  let overlappingHits :=
    filter (fun hit => isCoordinateInList hit placement) hits in
  match overlappingHits with
  | [] => true
  | _ =>
    let placementIndices :=
      sortBy (fun i => i) (map (fun hit => indexIn hit placement 0) overlappingHits) in
    contiguous placementIndices
  end.

(** ** Placement enumerator *)

Definition candidate (isMiss : Coordinate -> bool) (hits : list Coordinate)
  (placement : list Coordinate) : list (list Coordinate) :=
  let isValid := forallb (fun coord => negb (isMiss coord)) placement in
  if isValid && isConsistentWithHits placement hits then [placement] else [].

Definition generateValidPlacements (boardHeight boardWidth shipLength : Z)
  (hits misses : list Coordinate) (sunkShips : list SunkShip)
  : list (list Coordinate) :=
  let isMiss coord := isCoordinateInList coord misses in
  flat_map (fun row =>
    flat_map (fun col =>
      candidate isMiss hits
        (map (fun i => (row, col + i)) (range 0 shipLength)))
      (range 0 (boardWidth - shipLength + 1)))
    (range 0 boardHeight)
  ++
  flat_map (fun row =>
    flat_map (fun col =>
      candidate isMiss hits
        (map (fun i => (row + i, col)) (range 0 shipLength)))
      (range 0 boardWidth))
    (range 0 (boardHeight - shipLength + 1)).

(** ** Alignment analyzer *)

(** [Map<number, Coordinate[]>]: keys are kept in insertion order, which is
    the order [Map.prototype.entries] iterates them in. *)
Fixpoint mapPush (k : Z) (v : Coordinate) (m : list (Z * list Coordinate))
  : list (Z * list Coordinate) :=
  match m with
  | [] => [(k, [v])]
  | (k', vs) :: m' =>
    if k' =? k then (k', vs ++ [v]) :: m' else (k', vs) :: mapPush k v m'
  end.

Definition groupByKey (key : Coordinate -> Z) (hits : list Coordinate)
  : list (Z * list Coordinate) :=
  fold_left (fun m hit => mapPush (key hit) hit m) hits [].

(** The loop [for (let i = 1; i <= n; i++)] that cuts a sorted line of hits
    into runs of consecutive cells and keeps the runs of two or more. *)
Definition consecutiveRuns (dir : Direction) (key : Coordinate -> Z)
  (lineHits : list Coordinate) : list AlignedGroup :=
  let n := Z.of_nat (length lineHits) in
  let at_ i := key (nth (Z.to_nat i) lineHits (0, 0)) in
  snd (fold_left
         (fun (st : Z * list AlignedGroup) i =>
            let (start, result) := st in
            if (i =? n) || (at_ i >? at_ (i - 1) + 1)
            then (i, if i - start >=? 2
                     then result ++ [mkGroup dir (slice start i lineHits)]
                     else result)
            else (start, result))
         (range 1 (n + 1)) (0, [])).

Definition lineGroups (dir : Direction) (lineKey sortKey : Coordinate -> Z)
  (hits : list Coordinate) : list AlignedGroup :=
  flat_map (fun entry : Z * list Coordinate =>
              let lineHits := snd entry in
              if Z.of_nat (length lineHits) <? 2 then []
              else consecutiveRuns dir sortKey (sortBy sortKey lineHits))
           (groupByKey lineKey hits).

Definition findAlignedHits (hits : list Coordinate) : list AlignedGroup :=
  lineGroups horizontal fst snd hits ++ lineGroups vertical snd fst hits.

Definition getExtensionPoints (coords : list Coordinate) (dir : Direction)
  (boardHeight boardWidth : Z) (misses : list Coordinate) : list Coordinate :=
  let keep (ok : bool) (ext : Coordinate) :=
    if ok && negb (isCoordinateInList ext misses) then [ext] else [] in
  match dir with
  | horizontal =>
    let sorted := sortBy snd coords in
    let row := fst (hd (0, 0) sorted) in
    let minCol := snd (hd (0, 0) sorted) in
    let maxCol := snd (last sorted (0, 0)) in
    keep (minCol >? 0) (row, minCol - 1) ++
    keep (maxCol <? boardWidth - 1) (row, maxCol + 1)
  | vertical =>
    let sorted := sortBy fst coords in
    let col := snd (hd (0, 0) sorted) in
    let minRow := fst (hd (0, 0) sorted) in
    let maxRow := fst (last sorted (0, 0)) in
    keep (minRow >? 0) (minRow - 1, col) ++
    keep (maxRow <? boardHeight - 1) (maxRow + 1, col)
  end.

Definition getAdjacentCells (boardHeight boardWidth : Z)
  (hits misses : list Coordinate) : list Coordinate :=
  fold_left
    (fun adjacentCells (hit : Coordinate) =>
       fold_left
         (fun adjacentCells (d : Z * Z) =>
            let adjRow := fst hit + fst d in
            let adjCol := snd hit + snd d in
            if (adjRow >=? 0) && (adjRow <? boardHeight) &&
               (adjCol >=? 0) && (adjCol <? boardWidth)
            then
              let adjCoord := (adjRow, adjCol) in
              if negb (isCoordinateInList adjCoord hits) &&
                 negb (isCoordinateInList adjCoord misses) &&
                 negb (isCoordinateInList adjCoord adjacentCells)
              then adjacentCells ++ [adjCoord]
              else adjacentCells
            else adjacentCells)
         ADJACENT_DIRECTIONS adjacentCells)
    hits [].

(** One row or column of [findSmallestRemainingShip]: [consecutiveEmpty]
    restarts at 0, [maxConsecutiveEmpty] is carried along. *)
Definition scanLine (m : ProbabilityMap) (line : list Coordinate)
  (maxConsecutiveEmpty : Z) : Z :=
  snd (fold_left
         (fun (st : Z * Z) rc =>
            let (consecutiveEmpty, mx) := st in
            if Qpos (prob m rc)
            then (consecutiveEmpty + 1, Z.max mx (consecutiveEmpty + 1))
            else (0, mx))
         line (0, maxConsecutiveEmpty)).

Definition findSmallestRemainingShip (m : ProbabilityMap)
  (boardHeight boardWidth : Z) : Z :=
  let smallestSize := 2 in
  let afterRows :=
    fold_left (fun mx row =>
                 scanLine m (map (fun col => (row, col)) (range 0 boardWidth)) mx)
              (range 0 boardHeight) 0 in
  let maxConsecutiveEmpty :=
    fold_left (fun mx col =>
                 scanLine m (map (fun row => (row, col)) (range 0 boardHeight)) mx)
              (range 0 boardWidth) afterRows in
  if maxConsecutiveEmpty >? smallestSize
  then Z.min maxConsecutiveEmpty 5
  else smallestSize.

Definition findPotentialCompletions (boardHeight boardWidth : Z)
  (hits misses : list Coordinate) (shipSize : Z) : list Coordinate :=
  flat_map
    (fun g : AlignedGroup =>
       let len := Z.of_nat (length (coordinates g)) in
       if len >=? shipSize then []
       else
         let extensions :=
           getExtensionPoints (coordinates g) (direction g)
                              boardHeight boardWidth misses in
         if len =? shipSize - 1 then extensions else [])
    (findAlignedHits hits).

(** ** Heuristic modulators *)

Definition applyCheckerboardPattern (m : ProbabilityMap)
  (boardHeight boardWidth : Z) : ProbabilityMap :=
  fold_left
    (fun m rc =>
       if Z.rem (fst rc + snd rc) 2 =? 1
       then setProb (boost (1 # 2)) m rc
       else m)
    (boardCells boardHeight boardWidth) m.

Definition applyTargetingStrategy (m : ProbabilityMap)
  (boardHeight boardWidth : Z) (hits misses : list Coordinate)
  : ProbabilityMap :=
  match hits with
  | [] => m
  | _ :: _ =>
    let alignedHits := findAlignedHits hits in
    if Z.of_nat (length alignedHits) >=? 2 then
      match alignedHits with
      | g :: _ =>
        let extensions :=
          getExtensionPoints (coordinates g) (direction g)
                             boardHeight boardWidth misses in
        boostCells ALIGNMENT_FACTOR extensions m
      | [] => m
      end
    else
      let adjacentCells :=
        getAdjacentCells boardHeight boardWidth hits misses in
      let m1 := boostCells ADJACENCY_FACTOR adjacentCells m in
      let completions :=
        findPotentialCompletions boardHeight boardWidth hits misses
          (findSmallestRemainingShip m1 boardHeight boardWidth) in
      boostCells COMPLETION_FACTOR completions m1
  end.

(** The corner pass shared by [applyPatternRecognition] (factor 1.5) and
    [applyEnhancedPatternRecognition] (factor [OPTIMIZED_PATTERN_FACTOR]):
    [probabilityMap[corner] *= factor], with no test on the cell's value. *)
Definition boostCorner (factor : Q) (boardHeight boardWidth : Z)
  (hits misses : list Coordinate) (m : ProbabilityMap) (corner : Coordinate)
  : ProbabilityMap :=
  if isValidCell (fst corner) (snd corner) boardHeight boardWidth &&
     negb (isCoordinateInList corner hits) &&
     negb (isCoordinateInList corner misses)
  then setProb (fun x => (x * factor)%Q) m corner
  else m.

Definition cornerPass (factor : Q) (m : ProbabilityMap)
  (boardHeight boardWidth : Z) (hits misses : list Coordinate)
  : ProbabilityMap :=
  fold_left
    (fun m (hit1 : Coordinate) =>
       fold_left
         (fun m (hit2 : Coordinate) =>
            if (fst hit1 =? fst hit2) && (snd hit1 =? snd hit2) then m
            else if (fst hit1 =? fst hit2) || (snd hit1 =? snd hit2) then m
            else
              let corner1 := (fst hit1, snd hit2) in
              let corner2 := (fst hit2, snd hit1) in
              let m1 :=
                boostCorner factor boardHeight boardWidth hits misses m corner1 in
              boostCorner factor boardHeight boardWidth hits misses m1 corner2)
         hits m)
    hits m.

Definition applyPatternRecognition (m : ProbabilityMap)
  (boardHeight boardWidth : Z) (hits misses : list Coordinate)
  : ProbabilityMap :=
  cornerPass (3 # 2) m boardHeight boardWidth hits misses.

Definition applySuperAggressiveStrategy (m : ProbabilityMap)
  (boardHeight boardWidth : Z) (hits misses : list Coordinate)
  : ProbabilityMap :=
  match hits with
  | [] => applyCheckerboardPattern m boardHeight boardWidth
  | _ :: _ =>
    let alignedHits := findAlignedHits hits in
    let m1 :=
      if Z.of_nat (length alignedHits) >=? 2 then
        fold_left
          (fun m (g : AlignedGroup) =>
             boostCells SUPER_ALIGNMENT_FACTOR
               (getExtensionPoints (coordinates g) (direction g)
                                   boardHeight boardWidth misses) m)
          alignedHits m
      else
        boostCells SUPER_ADJACENCY_FACTOR
          (getAdjacentCells boardHeight boardWidth hits misses) m in
    let completions :=
      findPotentialCompletions boardHeight boardWidth hits misses
        (findSmallestRemainingShip m1 boardHeight boardWidth) in
    let m2 := boostCells SUPER_COMPLETION_FACTOR completions m1 in
    applyPatternRecognition m2 boardHeight boardWidth hits misses
  end.

(** ** Optimized mode *)

Definition getActiveHits (hits : list Coordinate) (sunkShips : list SunkShip)
  : list Coordinate :=
  let sunkPositions := flat_map positions sunkShips in
  filter (fun hit => negb (existsb (fun sunkPos => coordEq sunkPos hit)
                                   sunkPositions))
         hits.

(** [Math.min(...remainingShips)]; the list is not empty where it is used. *)
Definition minOfList (l : list Z) : Z :=
  match l with
  | [] => 0
  | x :: l' => fold_left Z.min l' x
  end.

Definition applyOptimalInitialPattern (m : ProbabilityMap)
  (boardHeight boardWidth : Z) (remainingShips : list Z) : ProbabilityMap :=
  let smallestShip := minOfList remainingShips in
  let optimalSpacing := Z.max 2 (smallestShip - 1) in
  let m1 :=
    fold_left
      (fun m rc =>
         let row := fst rc in
         let col := snd rc in
         if ((Z.rem row optimalSpacing =? 0) && (Z.rem col optimalSpacing =? 0))
            || ((Z.rem row optimalSpacing =? 1) && (Z.rem col optimalSpacing =? 1))
         then setProb (fun x => (x * 2)%Q) m rc
         else m)
      (boardCells boardHeight boardWidth) m in
  if (boardHeight =? 10) && (boardWidth =? 10) then
    let cornerAreas :=
      [ (0, 0); (0, 1); (1, 0);
        (0, boardWidth - 1); (0, boardWidth - 2); (1, boardWidth - 1);
        (boardHeight - 1, 0); (boardHeight - 2, 0); (boardHeight - 1, 1);
        (boardHeight - 1, boardWidth - 1); (boardHeight - 1, boardWidth - 2);
        (boardHeight - 2, boardWidth - 1) ] in
    let m2 := boostCells (1 # 2) cornerAreas m1 in
    let centerRow := boardHeight / 2 in
    let centerCol := boardWidth / 2 in
    fold_left
      (fun m rc =>
         if isValidCell (fst rc) (snd rc) boardHeight boardWidth
         then setProb (boost (5 # 4)) m rc
         else m)
      (flat_map (fun r => map (fun c => (r, c))
                              (range (centerCol - 1) (centerCol + 2)))
                (range (centerRow - 1) (centerRow + 2)))
      m2
  else m1.

(** The number of placements of length [len] along one line that cover
    position [pos] and meet no miss away from [pos]; [cell j] is the [j]-th
    cell of the line and [limit] the line's length. *)
Definition placementsThrough (misses : list Coordinate)
  (cell : Z -> Coordinate) (pos len limit : Z) : Z :=
  let starts :=
    takeWhile (fun i => (i <=? pos) && (i + len - 1 <? limit))
              (range (Z.max 0 (pos - len + 1)) (pos + 1)) in
  Z.of_nat
    (length
       (filter
          (fun i =>
             forallb (fun j => (j =? pos) ||
                               negb (isCoordinateInList (cell j) misses))
                     (range i (i + len)))
          starts)).

Definition informationGain (boardHeight boardWidth : Z)
  (misses : list Coordinate) (remainingShips : list Z) (rc : Coordinate) : Z :=
  let row := fst rc in
  let col := snd rc in
  fold_left
    (fun gain shipLength =>
       gain
       + placementsThrough misses (fun j => (row, j)) col shipLength boardWidth
       + placementsThrough misses (fun j => (j, col)) row shipLength boardHeight)
    remainingShips 0.

(** [Math.max(...entropyMap.flatMap(row => row))]: the entries are counts,
    hence not negative, so starting the maximum at 0 agrees with the source
    on the test [maxEntropy > 0] and on the value used after it. *)
Definition maxOfGrid (g : list (list Q)) : Q :=
  fold_left Qmax (concat g) 0%Q.

(** The [entropyMap] of [applyInformationEntropy] once it is normalized:
    cells whose probability is [=== 0] are skipped and keep the score 0. *)
Definition entropyScores (m : ProbabilityMap) (boardHeight boardWidth : Z)
  (misses : list Coordinate) (remainingShips : list Z) : list (list Q) :=
  let cells := boardCells boardHeight boardWidth in
  let counted :=
    fold_left
      (fun e rc =>
         if Qeq_bool (prob m rc) 0 then e
         else setProb (fun _ => inject_Z (informationGain boardHeight boardWidth
                                            misses remainingShips rc)) e rc)
      cells (mkGrid boardHeight boardWidth 0%Q) in
  let maxEntropy := maxOfGrid counted in
  if Qpos maxEntropy
  then fold_left (setProb (fun x => (x / maxEntropy)%Q)) cells counted
  else counted.

(** The weighted combination written back by the last loop. *)
Definition blend (entropy x : Q) : Q :=
  if Qpos x
  then ((1 - ENTROPY_WEIGHT) * x + ENTROPY_WEIGHT * entropy)%Q
  else x.

Definition applyInformationEntropy (m : ProbabilityMap)
  (boardHeight boardWidth : Z) (hits misses : list Coordinate)
  (remainingShips : list Z) : ProbabilityMap :=
  if Z.of_nat (length (findAlignedHits hits)) >=? 2 then m
  else
    let entropyMap :=
      entropyScores m boardHeight boardWidth misses remainingShips in
    fold_left
      (fun m rc => setProb (blend (prob entropyMap rc)) m rc)
      (boardCells boardHeight boardWidth) m.

(** The first loop of [applyEnhancedPatternRecognition]: the "+" pattern
    around every hit. *)
Definition crossPass (m : ProbabilityMap) (boardHeight boardWidth : Z)
  (hits misses : list Coordinate) : ProbabilityMap :=
  fold_left
    (fun m (hit : Coordinate) =>
       fold_left
         (fun m (d : Z * Z) =>
            let adjRow := fst hit + fst d in
            let adjCol := snd hit + snd d in
            if isValidCell adjRow adjCol boardHeight boardWidth &&
               negb (isCoordinateInList (adjRow, adjCol) hits) &&
               negb (isCoordinateInList (adjRow, adjCol) misses)
            then setProb (boost 2) m (adjRow, adjCol)
            else m)
         ADJACENT_DIRECTIONS m)
    hits m.

Definition applyEnhancedPatternRecognition (m : ProbabilityMap)
  (boardHeight boardWidth : Z) (hits misses : list Coordinate)
  : ProbabilityMap :=
  let m1 := crossPass m boardHeight boardWidth hits misses in
  cornerPass OPTIMIZED_PATTERN_FACTOR m1 boardHeight boardWidth hits misses.

(** [applyOptimizedStrategy] up to, and without, its last call: the blend of
    the entropy score. *)
Definition optimizedBeforeEntropy (m : ProbabilityMap)
  (boardHeight boardWidth : Z) (activeHits misses : list Coordinate)
  : ProbabilityMap :=
  let alignedHits := findAlignedHits activeHits in
  let m1 :=
    if Z.of_nat (length alignedHits) >=? 1 then
      fold_left
        (fun m (g : AlignedGroup) =>
           boostCells OPTIMIZED_ALIGNMENT_FACTOR
             (getExtensionPoints (coordinates g) (direction g)
                                 boardHeight boardWidth misses) m)
        alignedHits m
    else m in
  let isolatedHits :=
    filter (fun hit =>
              negb (existsb
                      (fun g : AlignedGroup =>
                         existsb (fun coord => coordEq coord hit) (coordinates g))
                      alignedHits))
           activeHits in
  let m2 :=
    if Z.of_nat (length isolatedHits) >? 0 then
      boostCells OPTIMIZED_ADJACENCY_FACTOR
        (getAdjacentCells boardHeight boardWidth isolatedHits misses) m1
    else m1 in
  let completions :=
    findPotentialCompletions boardHeight boardWidth activeHits misses
      (findSmallestRemainingShip m2 boardHeight boardWidth) in
  let m3 := boostCells OPTIMIZED_COMPLETION_FACTOR completions m2 in
  applyEnhancedPatternRecognition m3 boardHeight boardWidth activeHits misses.

Definition applyOptimizedStrategy (m : ProbabilityMap)
  (boardHeight boardWidth : Z) (hits misses : list Coordinate)
  (remainingShips : list Z) (sunkShips : list SunkShip) : ProbabilityMap :=
  let activeHits := getActiveHits hits sunkShips in
  match activeHits with
  | [] => applyOptimalInitialPattern m boardHeight boardWidth remainingShips
  | _ :: _ =>
    let m4 :=
      optimizedBeforeEntropy m boardHeight boardWidth activeHits misses in
    applyInformationEntropy m4 boardHeight boardWidth hits misses remainingShips
  end.

(** ** Aggregator, normalizer and top-level orchestrator *)

(** [cellPlacementCount] and [totalPlacements] after the loop over the
    remaining ships. *)
Definition countPlacement (cnt : list (list Z)) (placement : list Coordinate)
  : list (list Z) :=
  fold_left (fun cnt rc => updCell Z.succ cnt (fst rc) (snd rc)) placement cnt.

Definition tallyPlacements (boardHeight boardWidth : Z)
  (hits misses : list Coordinate) (remainingShips : list Z)
  (sunkShips : list SunkShip) : list (list Z) * Z :=
  fold_left
    (fun (st : list (list Z) * Z) shipLength =>
       let (cellPlacementCount, totalPlacements) := st in
       let validPlacements :=
         generateValidPlacements boardHeight boardWidth shipLength
                                 hits misses sunkShips in
       (fold_left countPlacement validPlacements cellPlacementCount,
        totalPlacements + Z.of_nat (length validPlacements)))
    remainingShips (mkGrid boardHeight boardWidth 0, 0).

(** The map after the loop that divides the counts by the total and before
    the mode dispatch. *)
Definition baseProbabilities (boardHeight boardWidth : Z)
  (hits misses : list Coordinate) (cellPlacementCount : list (list Z))
  (totalPlacements : Z) : ProbabilityMap :=
  fold_left
    (fun m rc =>
       setProb
         (fun _ =>
            if isCoordinateInList rc hits || isCoordinateInList rc misses
            then 0%Q
            else (inject_Z (getCell 0%Z cellPlacementCount (fst rc) (snd rc))
                  / inject_Z totalPlacements)%Q)
         m rc)
    (boardCells boardHeight boardWidth)
    (mkGrid boardHeight boardWidth 0%Q).

(** The [switch (mode)] of [calculateProbabilityMap]. *)
Definition applyStrategy (mode : ProbabilityMode) (m : ProbabilityMap)
  (boardHeight boardWidth : Z) (hits misses : list Coordinate)
  (remainingShips : list Z) (sunkShips : list SunkShip) : ProbabilityMap :=
  match mode with
  | HUNTING => applyCheckerboardPattern m boardHeight boardWidth
  | TARGETING => applyTargetingStrategy m boardHeight boardWidth hits misses
  | SUPER_AGGRESSIVE =>
    applySuperAggressiveStrategy m boardHeight boardWidth hits misses
  | OPTIMIZED =>
    applyOptimizedStrategy m boardHeight boardWidth hits misses
                           remainingShips sunkShips
  | NORMAL =>
    let adjacentCells := getAdjacentCells boardHeight boardWidth hits misses in
    fold_left (setProb (fun x => Qmin 1 (x * ADJACENCY_FACTOR)))
              adjacentCells m
  end.

(** The sum of the strictly positive cells and their number, as accumulated
    by the first loop of [normalizeMap]. *)
Definition positiveMass (m : ProbabilityMap) (boardHeight boardWidth : Z)
  : Q * Z :=
  fold_left
    (fun (st : Q * Z) rc =>
       let (sum, validCells) := st in
       if Qpos (prob m rc) then ((sum + prob m rc)%Q, validCells + 1)
       else (sum, validCells))
    (boardCells boardHeight boardWidth) (0%Q, 0).

Definition normalizeMap (m : ProbabilityMap) (boardHeight boardWidth : Z)
  : ProbabilityMap :=
  let (sum, validCells) := positiveMass m boardHeight boardWidth in
  if (validCells =? 0) || Qeq_bool sum 0 then m
  else
    fold_left (setProb (fun x => if Qpos x then (x / sum)%Q else x))
              (boardCells boardHeight boardWidth) m.

(** The auto-upgrade [if (mode === NORMAL && hits.length > 0) mode = TARGETING]. *)
Definition effectiveMode (mode : ProbabilityMode) (hits : list Coordinate)
  : ProbabilityMode :=
  match mode, hits with
  | NORMAL, _ :: _ => TARGETING
  | _, _ => mode
  end.

(** The map handed to [normalizeMap], when the engine gets that far: [None]
    stands for the two early returns of the zero-filled map. *)
Definition heuristicMap (boardHeight boardWidth : Z)
  (hits misses : list Coordinate) (remainingShips : list Z)
  (mode : ProbabilityMode) (sunkShips : list SunkShip)
  : option ProbabilityMap :=
  match remainingShips with
  | [] => None
  | _ :: _ =>
    let mode := effectiveMode mode hits in
    let (cellPlacementCount, totalPlacements) :=
      tallyPlacements boardHeight boardWidth hits misses remainingShips
                      sunkShips in
    if totalPlacements =? 0 then None
    else
      let m := baseProbabilities boardHeight boardWidth hits misses
                                 cellPlacementCount totalPlacements in
      Some (applyStrategy mode m boardHeight boardWidth hits misses
                          remainingShips sunkShips)
  end.

Definition calculateProbabilityMap (boardHeight boardWidth : Z)
  (hits misses : list Coordinate) (remainingShips : list Z)
  (mode : ProbabilityMode) (sunkShips : list SunkShip) : ProbabilityMap :=
  match heuristicMap boardHeight boardWidth hits misses remainingShips
                     mode sunkShips with
  | None => mkGrid boardHeight boardWidth 0%Q
  | Some m => normalizeMap m boardHeight boardWidth
  end.


(** ** Vocabulary of the statements *)

(** A pass over the map keeps the cells that are 0 at 0, and keeps the
    shape of the map. *)
Definition keepsZero (F : ProbabilityMap -> ProbabilityMap) : Prop :=
  forall m rc, (prob m rc == 0)%Q -> (prob (F m) rc == 0)%Q.

Definition keepsDims (F : ProbabilityMap -> ProbabilityMap) : Prop :=
  forall h w m, hasDims h w m -> hasDims h w (F m).

Definition Pass (F : ProbabilityMap -> ProbabilityMap) : Prop :=
  keepsDims F /\ keepsZero F.

(** A function on cell values that fixes 0. *)
Definition fixesZero (f : Q -> Q) : Prop :=
  forall x, (x == 0)%Q -> (f x == 0)%Q.

(** Positive board dimensions and coordinates inside the board. *)
Definition inBoard (boardHeight boardWidth : Z) (rc : Coordinate) : Prop :=
  0 <= fst rc < boardHeight /\ 0 <= snd rc < boardWidth.

Definition wellFormed (boardHeight boardWidth : Z)
  (hits misses : list Coordinate) : Prop :=
  0 < boardHeight /\ 0 < boardWidth /\
  Forall (inBoard boardHeight boardWidth) hits /\
  Forall (inBoard boardHeight boardWidth) misses /\
  (forall rc, In rc hits -> ~ In rc misses).

(** The positive part of a cell value and the sum of a list of values, to
    speak of "the sum of the strictly positive cells". *)
Definition posPart (x : Q) : Q := if Qpos x then x else 0%Q.

Fixpoint Qsum (l : list Q) : Q :=
  match l with
  | [] => 0%Q
  | x :: l' => (x + Qsum l')%Q
  end.

(** The value written by the second loop of [normalizeMap]. *)
Definition normalized (sum x : Q) : Q := if Qpos x then (x / sum)%Q else x.

(** *** The spec's reading of the base probability

    "The number of in-bounds axis-aligned placements of length L covering
    that cell, divided by the total number of such placements": a placement
    is an orientation and a first cell; it is in bounds when each of its
    cells is on the board.  These definitions follow the sentence, not the
    loops of [generateValidPlacements]. *)
Definition placementAt (dir : Direction) (start : Coordinate) (len : Z)
  : list Coordinate :=
  map (fun i => match dir with
                | horizontal => (fst start, snd start + i)
                | vertical => (fst start + i, snd start)
                end)
      (range 0 len).

Definition onBoard (boardHeight boardWidth : Z) (rc : Coordinate) : bool :=
  isValidCell (fst rc) (snd rc) boardHeight boardWidth.

Definition axisAlignedPlacements (boardHeight boardWidth len : Z)
  : list (list Coordinate) :=
  flat_map
    (fun dir =>
       flat_map
         (fun start =>
            let placement := placementAt dir start len in
            if forallb (onBoard boardHeight boardWidth) placement
            then [placement] else [])
         (boardCells boardHeight boardWidth))
    [horizontal; vertical].

Definition placementsCovering (boardHeight boardWidth len : Z)
  (rc : Coordinate) : Z :=
  Z.of_nat
    (length (filter (fun placement => isCoordinateInList rc placement)
                    (axisAlignedPlacements boardHeight boardWidth len))).

Definition placementsInTotal (boardHeight boardWidth len : Z) : Z :=
  Z.of_nat (length (axisAlignedPlacements boardHeight boardWidth len)).




Definition nonNegative (m : ProbabilityMap) : Prop :=
  forall rc, (0 <= prob m rc)%Q.



(** A pass keeps a property of single cell values, cell by cell. *)
Definition Keeps (P : Q -> Prop) (F : ProbabilityMap -> ProbabilityMap) : Prop :=
  forall m rc, P (prob m rc) -> P (prob (F m) rc).

(** All surviving placements of all remaining ships, in the order the
    aggregator meets them. *)
Definition survivingPlacements (boardHeight boardWidth : Z)
  (hits misses : list Coordinate) (remainingShips : list Z)
  (sunkShips : list SunkShip) : list (list Coordinate) :=
  flat_map (fun shipLength =>
              generateValidPlacements boardHeight boardWidth shipLength
                                      hits misses sunkShips)
           remainingShips.

(** A list of integers in ascending order, as a sort leaves it. *)
Fixpoint ascending (l : list Z) : Prop :=
  match l with
  | a :: (b :: _) as rest => a <= b /\ ascending rest
  | _ => True
  end.

(** The entries of the map of lines hold, each under its own key, the hits
    seen so far that have this key, without repetition. *)
Definition Grouped (key : Coordinate -> Z) (seen : Coordinate -> Prop)
  (m : list (Z * list Coordinate)) : Prop :=
  NoDup (map fst m) /\
  (forall x, seen x -> In (key x) (map fst m)) /\
  forall k vs, In (k, vs) m ->
               NoDup vs /\ forall x, In x vs <-> seen x /\ key x = k.

(** The sort key of the [i]-th hit of a line. *)
Definition keyAt (key : Coordinate -> Z) (lineHits : list Coordinate) (i : Z)
  : Z :=
  key (nth (Z.to_nat i) lineHits (0, 0)).

(** A run that the loop of [consecutiveRuns] has closed: a slice of two or
    more cells whose keys go up by at most one at a time, which the loop
    started at the beginning of the line or after a jump and closed at the
    end of the line or before a jump. *)
Definition ClosedRun (dir : Direction) (key : Coordinate -> Z)
  (lineHits : list Coordinate) (g : AlignedGroup) : Prop :=
  direction g = dir /\
  exists s e,
    0 <= s /\ s + 2 <= e <= Z.of_nat (length lineHits) /\
    coordinates g = slice s e lineHits /\
    (s = 0 \/ keyAt key lineHits s > keyAt key lineHits (s - 1) + 1) /\
    (e = Z.of_nat (length lineHits)
     \/ keyAt key lineHits e > keyAt key lineHits (e - 1) + 1) /\
    forall j, s < j < e ->
              keyAt key lineHits j <= keyAt key lineHits (j - 1) + 1.

(** The cell [i] steps along a direction from a cell. *)
Definition cellAt (dir : Direction) (start : Coordinate) (i : Z) : Coordinate :=
  match dir with
  | horizontal => (fst start, snd start + i)
  | vertical => (fst start + i, snd start)
  end.

(** The four neighbours of a cell, in the order of [ADJACENT_DIRECTIONS]. *)
Definition neighbours (rc : Coordinate) : list Coordinate :=
  map (fun d : Z * Z => (fst rc + fst d, snd rc + snd d)) ADJACENT_DIRECTIONS.

(** ** The analysis of the hit patterns *)

(** [analyzeHitPatterns]: the aligned groups of the active hits and the
    active hits outside every group. *)
Definition analyzeHitPatterns (hits : list Coordinate)
  (sunkShips : list SunkShip) : list AlignedGroup * list Coordinate :=
  let activeHits :=
    filter (fun hit =>
              negb (existsb (fun ship =>
                               isCoordinateInList hit (positions ship))
                            sunkShips))
           hits in
  let alignedGroups := findAlignedHits activeHits in
  let isolatedHits :=
    filter (fun hit =>
              negb (existsb (fun group =>
                               isCoordinateInList hit (coordinates group))
                            alignedGroups))
           activeHits in
  (alignedGroups, isolatedHits).

(** ** The board of the user interface *)

(** [type CellState = 'empty' | 'ship' | 'hit' | 'miss' | 'sunk']. *)
Module CellState.
Inductive t : Type := empty | ship | hit | miss | sunk.
End CellState.

(** [interface Cell]; the optional fields are [None] when absent. *)
Record Cell : Type := mkCell
  { state : CellState.t; shipId : option Z; probability : option Q }.

(** [{ state: 'empty' }], the cell of a fresh board; also what a read outside
    the board gives in this model.  In the source such a read throws; the
    loops below stay inside a board of [rows] rows and [cols] columns. *)
Definition emptyCell : Cell := mkCell CellState.empty None None.

Definition cellAtBoard (board : list (list Cell)) (rc : Coordinate) : Cell :=
  getCell emptyCell board (fst rc) (snd rc).

(** [cell.state !== 'hit' && cell.state !== 'miss' && cell.state !== 'sunk']. *)
Definition untargeted (cell : Cell) : bool :=
  match state cell with
  | CellState.hit | CellState.miss | CellState.sunk => false
  | _ => true
  end.

(** [cell.probability || 0]. *)
Definition probabilityOrZero (cell : Cell) : Q :=
  match probability cell with
  | Some p => p
  | None => 0%Q
  end.

(** [findBestMove] of the game board: the scan keeps the first cell that is
    strictly above everything seen before it, starting from [-1]. *)
Definition findBestMove (highlightBestMove showProbabilities : bool)
  (rows cols : Z) (board : list (list Cell)) : option Coordinate :=
  if negb highlightBestMove || negb showProbabilities then None
  else
    snd (fold_left
           (fun (st : Q * option Coordinate) rc =>
              let (maxProb, bestMove) := st in
              let cell := cellAtBoard board rc in
              if untargeted cell
              then
                let prob := probabilityOrZero cell in
                if negb (Qle_bool prob maxProb) then (prob, Some rc)
                else (maxProb, bestMove)
              else (maxProb, bestMove))
           (boardCells rows cols) ((-1)%Q, None)).

(** Row-major order of the cells, the order the loops scan them in. *)
Definition scannedBefore (a b : Coordinate) : Prop :=
  fst a < fst b \/ (fst a = fst b /\ snd a < snd b).

(** ** The game component *)

(** [interface Ship]. *)
Module Ship.
Record t : Type := mk
  { id : Z; length : Z; positions : list Coordinate; hits : Z; isSunk : bool }.
End Ship.

(** [interface Player]. *)
Module Player.
Record t : Type := mk
  { board : list (list Cell);
    ships : list Ship.t;
    hits : list Coordinate;
    misses : list Coordinate;
    sunkShips : list SunkShip }.
End Player.

(** [gameStats]. *)
Module Stats.
Record t : Type := mk { totalShots : Z; hits : Z; misses : Z }.
End Stats.

(** [type GamePhase = 'setup' | 'play' | 'gameOver']. *)
Module GamePhase.
Inductive t : Type := setup | play | gameOver.
End GamePhase.

(** The optional argument [manualResult?: 'hit' | 'miss'] of [processAttack]. *)
Module ManualResult.
Inductive t : Type := hit | miss.
End ManualResult.

(** The state variables of the component that the functions below read and
    set. *)
Module Game.
Record t : Type := mk
  { rows : Z;
    cols : Z;
    shipLengths : list Z;
    developerMode : bool;
    probabilityMode : ProbabilityMode;
    gamePhase : GamePhase.t;
    player1 : option Player.t;
    player2 : option Player.t;
    turnNumber : Z;
    gameStats : Stats.t;
    selectedCell : option Coordinate;
    manualFeedbackMode : bool }.
End Game.

(** [Array.prototype.indexOf]: the first index of [x], or [-1]. *)
Fixpoint indexOfFrom (x : Z) (l : list Z) (i : Z) : Z :=
  match l with
  | [] => -1
  | y :: l' => if y =? x then i else indexOfFrom x l' (i + 1)
  end.

Definition indexOf (x : Z) (l : list Z) : Z := indexOfFrom x l 0.

(** [l.splice(index, 1)] for an index inside the list. *)
Definition spliceOne {A : Type} (index : Z) (l : list A) : list A :=
  firstn (Z.to_nat index) l ++ skipn (Z.to_nat index + 1) l.

(** The remaining ships of manual mode in [getProbabilityMap]: the configured
    lengths, each one dropped when a sunk length is still there to pay for
    it; the callback of [filter] removes that sunk length from its list. *)
Definition manualRemainingShips (shipLengths : list Z)
  (sunkShips : list SunkShip) : list Z :=
  fst (fold_left
         (fun (st : list Z * list Z) length =>
            let (kept, sunkLengths) := st in
            let index := indexOf length sunkLengths in
            if negb (index =? -1) then (kept, spliceOne index sunkLengths)
            else (kept ++ [length], sunkLengths))
         shipLengths ([], map sunkLength sunkShips)).

(** The remaining ships of developer mode. *)
Definition developerRemainingShips (ships : list Ship.t) : list Z :=
  map Ship.length (filter (fun ship => negb (Ship.isSunk ship)) ships).

(** [getProbabilityMap]: [None] is the [null] of the early return. *)
Definition getProbabilityMap (g : Game.t) : option ProbabilityMap :=
  match Game.gamePhase g, Game.player1 g, Game.player2 g with
  | GamePhase.play, Some player1, Some player2 =>
    let remainingShips :=
      if Game.developerMode g
         && (Z.of_nat (List.length (Player.ships player2)) >? 0)
      then developerRemainingShips (Player.ships player2)
      else manualRemainingShips (Game.shipLengths g)
                                (Player.sunkShips player1) in
    Some (calculateProbabilityMap (Game.rows g) (Game.cols g)
            (Player.hits player1) (Player.misses player1) remainingShips
            (Game.probabilityMode g) (Player.sunkShips player1))
  | _, _, _ => None
  end.

(** [{ ...cell, state: s }]. *)
Definition withState (s : CellState.t) (cell : Cell) : Cell :=
  mkCell s (shipId cell) (probability cell).

(** The loop that shows a sunk ship on the board. *)
Definition markSunk (board : list (list Cell)) (positions : list Coordinate)
  : list (list Cell) :=
  fold_left (fun b (rc : Coordinate) =>
               updCell (withState CellState.sunk) b (fst rc) (snd rc))
            positions board.

(** [Array.prototype.findIndex]: the first index that passes, or [-1]. *)
Fixpoint findIndexFrom {A : Type} (p : A -> bool) (l : list A) (i : Z) : Z :=
  match l with
  | [] => -1
  | y :: l' => if p y then i else findIndexFrom p l' (i + 1)
  end.

(** The first aligned group that manual mode takes for a sunk ship: its
    length is a configured length and no sunk ship has that length yet. *)
Definition inferSunkShip (shipLengths : list Z) (sunkShips : list SunkShip)
  (alignedGroups : list AlignedGroup) : option SunkShip :=
  match
    find (fun g : AlignedGroup =>
            let groupLength := Z.of_nat (List.length (coordinates g)) in
            existsb (Z.eqb groupLength) shipLengths
            && negb (existsb (fun ship => sunkLength ship =? groupLength)
                             sunkShips))
         alignedGroups
  with
  | Some g =>
    Some (mkSunkShip (Z.of_nat (List.length (coordinates g))) (coordinates g))
  | None => None
  end.

(** [processAttack], from the state it reads to the state it sets.  [None]
    is the [TypeError] that reading [player2.board[row][col].state] throws
    for a cell outside the board.  The later writes go to the cells of an
    aligned group of hits or to the positions of a ship; outside the board
    the model drops them.  [player1.board] is never read by the component
    and is left as it is. *)
Definition processAttack (g : Game.t) (row col : Z)
  (manualResult : option ManualResult.t) : option Game.t :=
  match Game.gamePhase g, Game.player1 g, Game.player2 g with
  | GamePhase.play, Some player1, Some player2 =>
    if negb (inGrid (Player.board player2) row col) then None
    else
      let targetCell := cellAtBoard (Player.board player2) (row, col) in
      if negb (untargeted targetCell) then Some g
      else
        let stats := Game.gameStats g in
        let shots := Stats.totalShots stats + 1 in
        let hitBoard :=
          updCell (fun _ => withState CellState.hit targetCell)
                  (Player.board player2) row col in
        let missBoard :=
          updCell (fun _ => withState CellState.miss targetCell)
                  (Player.board player2) row col in
        let newHits := Player.hits player1 ++ [(row, col)] in
        let newMisses := Player.misses player1 ++ [(row, col)] in
        let hitStats :=
          Stats.mk shots (Stats.hits stats + 1) (Stats.misses stats) in
        let missStats :=
          Stats.mk shots (Stats.hits stats) (Stats.misses stats + 1) in
        let result (board : list (list Cell)) (ships : list Ship.t)
                   (hits misses : list Coordinate)
                   (sunkShips : list SunkShip) (newStats : Stats.t) :=
          Some (Game.mk (Game.rows g) (Game.cols g) (Game.shipLengths g)
                  (Game.developerMode g) (Game.probabilityMode g)
                  (if Game.developerMode g
                      && forallb Ship.isSunk ships
                   then GamePhase.gameOver else Game.gamePhase g)
                  (Some (Player.mk (Player.board player1)
                           (Player.ships player1) hits misses sunkShips))
                  (Some (Player.mk board ships (Player.hits player2)
                           (Player.misses player2)
                           (Player.sunkShips player2)))
                  (Game.turnNumber g + 1) newStats None
                  (Game.manualFeedbackMode g)) in
        match Game.manualFeedbackMode g, manualResult with
        | true, Some ManualResult.hit =>
          let hitPatterns :=
            analyzeHitPatterns newHits (Player.sunkShips player1) in
          match inferSunkShip (Game.shipLengths g)
                              (Player.sunkShips player1) (fst hitPatterns) with
          | Some sunkShip =>
            result (markSunk hitBoard (positions sunkShip))
                   (Player.ships player2) newHits (Player.misses player1)
                   (Player.sunkShips player1 ++ [sunkShip]) hitStats
          | None =>
            result hitBoard (Player.ships player2) newHits
                   (Player.misses player1) (Player.sunkShips player1) hitStats
          end
        | true, Some ManualResult.miss =>
          result missBoard (Player.ships player2) (Player.hits player1)
                 newMisses (Player.sunkShips player1) missStats
        | _, _ =>
          if Game.developerMode g then
            match state targetCell with
            | CellState.ship =>
              let ships := Player.ships player2 in
              let shipIndex :=
                findIndexFrom
                  (fun s => match shipId targetCell with
                            | Some i => Ship.id s =? i
                            | None => false
                            end)
                  ships 0 in
              if shipIndex =? -1
              then
                (* [{ ...undefined }] is an object without fields: its hit
                   count is [NaN], it is never sunk, and the write to
                   [newOpponentShips[-1]] adds no element to the array. *)
                result hitBoard ships newHits (Player.misses player1)
                       (Player.sunkShips player1) hitStats
              else
                match nth_error ships (Z.to_nat shipIndex) with
                | Some ship =>
                  let shipHits := Ship.hits ship + 1 in
                  if shipHits =? Ship.length ship then
                    let sunkShip :=
                      mkSunkShip (Ship.length ship) (Ship.positions ship) in
                    result (markSunk hitBoard (Ship.positions ship))
                           (updNth (fun _ =>
                                      Ship.mk (Ship.id ship) (Ship.length ship)
                                              (Ship.positions ship) shipHits
                                              true)
                                   (Z.to_nat shipIndex) ships)
                           newHits (Player.misses player1)
                           (Player.sunkShips player1 ++ [sunkShip]) hitStats
                  else
                    result hitBoard
                           (updNth (fun _ =>
                                      Ship.mk (Ship.id ship) (Ship.length ship)
                                              (Ship.positions ship) shipHits
                                              (Ship.isSunk ship))
                                   (Z.to_nat shipIndex) ships)
                           newHits (Player.misses player1)
                           (Player.sunkShips player1) hitStats
                | None =>
                  (* not reached: [findIndex] returns an index of the array *)
                  result hitBoard ships newHits (Player.misses player1)
                         (Player.sunkShips player1) hitStats
                end
            | _ =>
              result missBoard (Player.ships player2) (Player.hits player1)
                     newMisses (Player.sunkShips player1) missStats
            end
          else
            result (Player.board player2) (Player.ships player2)
                   (Player.hits player1) (Player.misses player1)
                   (Player.sunkShips player1)
                   (Stats.mk shots (Stats.hits stats) (Stats.misses stats))
        end
  | _, _, _ => Some g
  end.





(** ** The ship placement component *)

(** The props [rows], [cols] and the state variables of the component.
    [currentShipIndex] is a counter that starts at 0 and goes up by one. *)
Module Placement.
Record t : Type := mk
  { rows : Z;
    cols : Z;
    board : list (list Cell);
    ships : list Ship.t;
    currentShipIndex : nat;
    orientation : Direction }.
End Placement.

(** [isValidPlacement]: the loop returns [false] at the first cell that is
    off the board or not empty; the board is read only after the bounds
    test. *)
Definition isValidPlacement (rows cols : Z) (board : list (list Cell))
  (shipLength startRow startCol : Z) (isHorizontal : bool) : bool :=
  if (if isHorizontal then startCol + shipLength >? cols
      else startRow + shipLength >? rows)
  then false
  else
    forallb
      (fun i =>
         let row := if isHorizontal then startRow else startRow + i in
         let col := if isHorizontal then startCol + i else startCol in
         if (row <? 0) || (row >=? rows) || (col <? 0) || (col >=? cols)
         then false
         else
           match state (cellAtBoard board (row, col)) with
           | CellState.empty => true
           | _ => false
           end)
      (range 0 shipLength).

(** [placeShip]. *)
Definition placeShip (st : Placement.t) (row col : Z) : Placement.t :=
  match nth_error (Placement.ships st) (Placement.currentShipIndex st) with
  | None => st
  | Some ship =>
    let isHorizontal :=
      match Placement.orientation st with
      | horizontal => true
      | vertical => false
      end in
    if negb (isValidPlacement (Placement.rows st) (Placement.cols st)
                              (Placement.board st) (Ship.length ship)
                              row col isHorizontal)
    then st
    else
      let positions :=
        map (fun i => (if isHorizontal then row else row + i,
                       if isHorizontal then col + i else col))
            (range 0 (Ship.length ship)) in
      let updatedShip :=
        Ship.mk (Ship.id ship) (Ship.length ship) positions (Ship.hits ship)
                (Ship.isSunk ship) in
      let updatedShips :=
        updNth (fun _ => updatedShip) (Placement.currentShipIndex st)
               (Placement.ships st) in
      let newBoard :=
        fold_left
          (fun b (rc : Coordinate) =>
             updCell (fun _ => mkCell CellState.ship (Some (Ship.id ship)) None)
                     b (fst rc) (snd rc))
          positions (Placement.board st) in
      Placement.mk (Placement.rows st) (Placement.cols st) newBoard
                   updatedShips (Datatypes.S (Placement.currentShipIndex st))
                   (Placement.orientation st)
  end.

(** The cells of the ships placed so far. *)
Definition placedCells (st : Placement.t) : list Coordinate :=
  flat_map Ship.positions
           (firstn (Placement.currentShipIndex st) (Placement.ships st)).

(** The ships placed so far lie on the board, share no cell, and are what
    the board shows. *)
Definition fleetApart (st : Placement.t) : Prop :=
  hasDims (Placement.rows st) (Placement.cols st) (Placement.board st) /\
  (forall rc, In rc (placedCells st) ->
              inBoard (Placement.rows st) (Placement.cols st) rc) /\
  NoDup (placedCells st) /\
  forall rc,
    inBoard (Placement.rows st) (Placement.cols st) rc ->
    (state (cellAtBoard (Placement.board st) rc) <> CellState.empty
     <-> In rc (placedCells st)).

(** The effect that writes the engine's map into the opponent's board:
    [board.map((row, rowIndex) => row.map((cell, colIndex) =>
    ({ ...cell, probability: probMap[rowIndex][colIndex] })))].  The map has
    the shape of the board, so the reads stay inside it. *)
Definition showProbabilityMap (board : list (list Cell))
  (probMap : ProbabilityMap) : list (list Cell) :=
  map (fun indexedRow : Z * list Cell =>
         let (rowIndex, row) := indexedRow in
         map (fun indexedCell : Z * Cell =>
                let (colIndex, cell) := indexedCell in
                mkCell (state cell) (shipId cell)
                       (Some (prob probMap (rowIndex, colIndex))))
             (combine (range 0 (Z.of_nat (List.length row))) row))
      (combine (range 0 (Z.of_nat (List.length board))) board).

(** * Properties *)

(** ** The engine on concrete boards *)

(** The example of the source file: hits at (2,3) and (2,4), misses at
    (0,0), (1,1) and (3,3), ships 5, 4 and 3, default mode. *)
Example worked_scenario :
  let result :=
    calculateProbabilityMap 10 10 [(2, 3); (2, 4)] [(0, 0); (1, 1); (3, 3)]
                            [5; 4; 3] NORMAL [] in
  map (fun rc => Qred (prob result rc))
      [(2, 2); (2, 5); (0, 0); (1, 1); (3, 3); (2, 3); (2, 4); (4, 4)]
  = [(54 # 1595)%Q; (63 # 1595)%Q; 0%Q; 0%Q; 0%Q; 0%Q; 0%Q; (24 # 1595)%Q].
Proof. vm_compute. reflexivity. Qed.

Example aligned_groups_example :
  findAlignedHits [(2, 4); (2, 3); (5, 5); (4, 5); (2, 6); (2, 7); (9, 9)]
  = [ mkGroup horizontal [(2, 3); (2, 4)];
      mkGroup horizontal [(2, 6); (2, 7)];
      mkGroup vertical [(4, 5); (5, 5)] ].
Proof. reflexivity. Qed.

Example placements_example :
  generateValidPlacements 3 3 2 [(0, 0)] [(1, 1)] []
  = [ [(0, 0); (0, 1)]; [(0, 1); (0, 2)]; [(2, 0); (2, 1)]; [(2, 1); (2, 2)];
      [(0, 0); (1, 0)]; [(0, 2); (1, 2)]; [(1, 0); (2, 0)]; [(1, 2); (2, 2)] ].
Proof. reflexivity. Qed.

Example consistency_example :
  isConsistentWithHits [(0, 0); (0, 1); (0, 2); (0, 3)] [(0, 1); (0, 2)] = true /\
  isConsistentWithHits [(0, 0); (0, 1); (0, 2); (0, 3)] [(0, 0); (0, 2)] = false /\
  isConsistentWithHits [(0, 0); (0, 1); (0, 2); (0, 3)] [(5, 5)] = true.
Proof. repeat split; reflexivity. Qed.

(** ** Loops *)

Lemma in_range (lo hi x : Z) : In x (range lo hi) <-> lo <= x < hi.
Proof.
  unfold range. rewrite in_map_iff. split.
  - intros [k [<- Hk]]. apply in_seq in Hk. lia.
  - intros Hx. exists (Z.to_nat (x - lo)). split; [lia|].
    apply in_seq. lia.
Qed.

Lemma NoDup_range (lo hi : Z) : NoDup (range lo hi).
Proof.
  unfold range. apply Injective_map_NoDup.
  - intros a b Hab. lia.
  - apply seq_NoDup.
Qed.

Lemma range_nil (lo hi : Z) : hi <= lo -> range lo hi = [].
Proof.
  intros H. unfold range. replace (Z.to_nat (hi - lo)) with 0%nat by lia.
  reflexivity.
Qed.

Lemma range_cons (lo hi : Z) : lo < hi -> range lo hi = lo :: range (lo + 1) hi.
Proof.
  intros H. unfold range.
  replace (Z.to_nat (hi - lo)) with (S (Z.to_nat (hi - (lo + 1)))) by lia.
  cbn [seq map]. f_equal; [lia|].
  rewrite <- seq_shift, map_map. apply map_ext. intros k. lia.
Qed.

Lemma length_range (lo hi : Z) : length (range lo hi) = Z.to_nat (hi - lo).
Proof. unfold range. now rewrite length_map, length_seq. Qed.

Lemma in_boardCells (h w : Z) (rc : Coordinate) :
  In rc (boardCells h w) <-> 0 <= fst rc < h /\ 0 <= snd rc < w.
Proof.
  unfold boardCells. rewrite in_flat_map. split.
  - intros [r [Hr Hin]]. apply in_map_iff in Hin. destruct Hin as [c [<- Hc]].
    apply in_range in Hr. apply in_range in Hc. cbn. lia.
  - intros [Hr Hc]. exists (fst rc). split; [now apply in_range|].
    apply in_map_iff. exists (snd rc). split; [now destruct rc|now apply in_range].
Qed.

Lemma NoDup_flat_map {A B : Type} (f : A -> list B) (l : list A) :
  NoDup l ->
  (forall a, In a l -> NoDup (f a)) ->
  (forall a a' b, In a l -> In a' l -> In b (f a) -> In b (f a') -> a = a') ->
  NoDup (flat_map f l).
Proof.
  induction l as [|a l IH]; intros Hl Hf Hsep; cbn; [constructor|].
  inversion Hl as [|? ? Hna Hl']; subst.
  apply NoDup_app.
  - apply Hf; now left.
  - apply IH; auto.
    + intros a' Ha'. apply Hf. now right.
    + intros a1 a2 b H1 H2. apply Hsep; now right.
  - intros b Hb Hb'. apply in_flat_map in Hb'. destruct Hb' as [a' [Ha' Hb']].
    assert (a = a') by (apply (Hsep a a' b); auto; [now left|now right]).
    subst. contradiction.
Qed.

Lemma NoDup_boardCells (h w : Z) : NoDup (boardCells h w).
Proof.
  unfold boardCells. apply NoDup_flat_map.
  - apply NoDup_range.
  - intros r _. apply Injective_map_NoDup; [|apply NoDup_range].
    intros a b Hab. now inversion Hab.
  - intros r r' b _ _ H1 H2. apply in_map_iff in H1, H2.
    destruct H1 as [c [<- _]]. destruct H2 as [c' [E _]]. now inversion E.
Qed.

(** ** Arrays *)

Lemma length_updNth {B : Type} (f : B -> B) (n : nat) (l : list B) :
  length (updNth f n l) = length l.
Proof.
  revert n. induction l as [|x l IH]; intros [|n]; cbn; auto.
Qed.

Lemma nth_updNth_same {B : Type} (f : B -> B) (n : nat) (l : list B) (d : B) :
  (n < length l)%nat -> nth n (updNth f n l) d = f (nth n l d).
Proof.
  revert n. induction l as [|x l IH]; intros [|n] H; cbn in *; try lia; auto.
  apply IH. lia.
Qed.

Lemma nth_updNth_other {B : Type} (f : B -> B) (n n' : nat) (l : list B) (d : B) :
  n <> n' -> nth n' (updNth f n l) d = nth n' l d.
Proof.
  revert n n'. induction l as [|x l IH]; intros [|n] [|n'] H; cbn; auto;
    try lia.
Qed.

Lemma updNth_beyond {B : Type} (f : B -> B) (n : nat) (l : list B) :
  (length l <= n)%nat -> updNth f n l = l.
Proof.
  revert n. induction l as [|x l IH]; intros [|n] H; cbn in *; auto; try lia.
  f_equal. apply IH. lia.
Qed.

Lemma updNth_fixed {B : Type} (f : B -> B) (n : nat) (l : list B) (d : B) :
  f (nth n l d) = nth n l d -> updNth f n l = l.
Proof.
  revert n. induction l as [|x l IH]; intros [|n] H; cbn in *; auto.
  - now rewrite H.
  - f_equal. now apply IH.
Qed.

Section GridFacts.
Context {A : Type}.
Variable d : A.

Lemma updCell_outside (f : A -> A) (g : list (list A)) (r c : Z) :
  inGrid g r c = false -> updCell f g r c = g.
Proof.
  unfold inGrid, updCell. intros H.
  destruct ((0 <=? r) && (0 <=? c)) eqn:E; [|reflexivity].
  cbn in H. apply andb_false_iff in H. destruct H as [H|H].
  - apply Nat.ltb_ge in H. now apply updNth_beyond.
  - apply Nat.ltb_ge in H. apply updNth_fixed with (d := []).
    now apply updNth_beyond.
Qed.

Lemma getCell_updCell_same (f : A -> A) (g : list (list A)) (r c : Z) :
  inGrid g r c = true ->
  getCell d (updCell f g r c) r c = f (getCell d g r c).
Proof.
  unfold inGrid, updCell, getCell. intros H.
  destruct ((0 <=? r) && (0 <=? c)) eqn:E; [|discriminate].
  cbn in H. apply andb_true_iff in H. destruct H as [Hr Hc].
  apply Nat.ltb_lt in Hr, Hc.
  rewrite nth_updNth_same by assumption.
  now apply nth_updNth_same.
Qed.

Lemma getCell_updCell_other (f : A -> A) (g : list (list A)) (r c r' c' : Z) :
  (r, c) <> (r', c') ->
  getCell d (updCell f g r c) r' c' = getCell d g r' c'.
Proof.
  unfold updCell, getCell. intros H.
  destruct ((0 <=? r) && (0 <=? c)) eqn:E; [|reflexivity].
  destruct ((0 <=? r') && (0 <=? c')) eqn:E'; [|reflexivity].
  apply andb_true_iff in E, E'. destruct E as [E1 E2], E' as [E3 E4].
  apply Z.leb_le in E1, E2, E3, E4.
  destruct (Nat.eq_dec (Z.to_nat r) (Z.to_nat r')) as [Er|Er].
  - assert (r = r') by lia. subst r'.
    assert (Hc : Z.to_nat c <> Z.to_nat c').
    { intros Ec. apply H. f_equal. lia. }
    destruct (Nat.lt_ge_cases (Z.to_nat r) (length g)) as [Hlt|Hge].
    + rewrite nth_updNth_same by assumption.
      now apply nth_updNth_other.
    + now rewrite updNth_beyond.
  - now rewrite nth_updNth_other.
Qed.

Lemma inGrid_updCell (f : A -> A) (g : list (list A)) (r c r' c' : Z) :
  inGrid (updCell f g r c) r' c' = inGrid g r' c'.
Proof.
  unfold updCell, inGrid.
  destruct ((0 <=? r) && (0 <=? c)) eqn:E; [|reflexivity].
  rewrite length_updNth. f_equal. f_equal.
  destruct (Nat.eq_dec (Z.to_nat r) (Z.to_nat r')) as [Er|Er].
  - rewrite <- Er.
    destruct (Nat.lt_ge_cases (Z.to_nat r) (length g)) as [Hlt|Hge].
    + rewrite nth_updNth_same by assumption. apply length_updNth.
    + now rewrite updNth_beyond.
  - now rewrite nth_updNth_other.
Qed.

Lemma hasDims_updCell (f : A -> A) (g : list (list A)) (h w r c : Z) :
  hasDims h w g -> hasDims h w (updCell f g r c).
Proof.
  unfold hasDims, updCell. intros [Hl Hrows].
  destruct ((0 <=? r) && (0 <=? c)); [|now split].
  split; [now rewrite length_updNth|].
  clear Hl. revert Hrows. generalize (Z.to_nat r) as n.
  induction g as [|row g IH]; intros n Hrows; destruct n; cbn; auto.
  - inversion Hrows; subst. constructor; [now rewrite length_updNth|assumption].
  - inversion Hrows; subst. constructor; auto.
Qed.

Lemma hasDims_mkGrid (h w : Z) (v : A) : hasDims h w (mkGrid h w v).
Proof.
  unfold hasDims, mkGrid. split; [apply repeat_length|].
  apply Forall_forall. intros row Hrow. apply repeat_spec in Hrow. subst.
  apply repeat_length.
Qed.

Lemma inGrid_hasDims (h w : Z) (g : list (list A)) (r c : Z) :
  hasDims h w g -> 0 <= r < h -> 0 <= c < w -> inGrid g r c = true.
Proof.
  unfold hasDims, inGrid. intros [Hl Hrows] Hr Hc.
  rewrite Forall_forall in Hrows.
  assert (Hlt : (Z.to_nat r < length g)%nat) by lia.
  rewrite (Hrows (nth (Z.to_nat r) g [])) by now apply nth_In.
  repeat (apply andb_true_iff; split);
    try apply Z.leb_le; try apply Nat.ltb_lt; lia.
Qed.

Lemma getCell_outside (g : list (list A)) (r c : Z) :
  inGrid g r c = false -> getCell d g r c = d.
Proof.
  unfold inGrid, getCell. intros H.
  destruct ((0 <=? r) && (0 <=? c)) eqn:E; [|reflexivity].
  cbn in H. apply andb_false_iff in H. destruct H as [H|H];
    apply Nat.ltb_ge in H.
  - rewrite (nth_overflow g) by assumption. now destruct (Z.to_nat c).
  - now apply nth_overflow.
Qed.

Lemma inGrid_bounds (h w : Z) (g : list (list A)) (r c : Z) :
  hasDims h w g -> inGrid g r c = true -> 0 <= r < h /\ 0 <= c < w.
Proof.
  unfold hasDims, inGrid. intros [Hl Hrows] H.
  rewrite Forall_forall in Hrows.
  repeat (apply andb_true_iff in H; destruct H as [H ?]).
  apply Z.leb_le in H. apply Z.leb_le in H2.
  apply Nat.ltb_lt in H0, H1.
  rewrite (Hrows (nth (Z.to_nat r) g [])) in H0 by now apply nth_In.
  lia.
Qed.

Lemma getCell_mkGrid (h w : Z) (v : A) (r c : Z) :
  0 <= r < h -> 0 <= c < w -> getCell d (mkGrid h w v) r c = v.
Proof.
  intros Hr Hc. unfold getCell, mkGrid.
  replace ((0 <=? r) && (0 <=? c)) with true
    by (symmetry; apply andb_true_iff; split; apply Z.leb_le; lia).
  rewrite nth_repeat_lt by lia.
  apply nth_repeat_lt. lia.
Qed.
End GridFacts.

(** ** Cell values *)

Lemma Qpos_true (x : Q) : Qpos x = true <-> (0 < x)%Q.
Proof.
  unfold Qpos. rewrite negb_true_iff. split.
  - intros H. apply Qnot_le_lt. intros Hle.
    apply Qle_bool_iff in Hle. congruence.
  - intros H. destruct (Qle_bool x 0) eqn:E; [|reflexivity].
    apply Qle_bool_iff in E. exfalso. apply (Qlt_not_le _ _ H E).
Qed.

Lemma Qpos_false (x : Q) : Qpos x = false <-> (x <= 0)%Q.
Proof.
  unfold Qpos. rewrite negb_false_iff. apply Qle_bool_iff.
Qed.

Lemma Qpos_zero (x : Q) : (x == 0)%Q -> Qpos x = false.
Proof. intros H. apply Qpos_false. rewrite H. apply Qle_refl. Qed.

Lemma fixesZero_boost (k : Q) : fixesZero (boost k).
Proof. intros x Hx. unfold boost. now rewrite (Qpos_zero x Hx). Qed.

Lemma fixesZero_scale (k : Q) : fixesZero (fun x => (x * k)%Q).
Proof. intros x Hx. cbv beta. rewrite Hx. apply Qmult_0_l. Qed.

Lemma fixesZero_whenPositive (f : Q -> Q) :
  fixesZero (fun x => if Qpos x then f x else x).
Proof. intros x Hx. cbv beta. now rewrite (Qpos_zero x Hx). Qed.

Lemma fixesZero_cap (k : Q) : fixesZero (fun x => Qmin 1 (x * k)).
Proof.
  intros x Hx. cbv beta.
  assert (E : (x * k == 0)%Q) by (rewrite Hx; apply Qmult_0_l).
  rewrite E. apply Q.min_r. discriminate.
Qed.

Lemma prob_setProb_same (f : Q -> Q) (m : ProbabilityMap) (rc : Coordinate) :
  inGrid m (fst rc) (snd rc) = true ->
  prob (setProb f m rc) rc = f (prob m rc).
Proof. apply getCell_updCell_same. Qed.

Lemma prob_setProb_other (f : Q -> Q) (m : ProbabilityMap) (rc rc' : Coordinate) :
  rc <> rc' -> prob (setProb f m rc) rc' = prob m rc'.
Proof.
  intros H. apply getCell_updCell_other. now destruct rc, rc'.
Qed.

Lemma coord_eq_dec (a b : Coordinate) : {a = b} + {a <> b}.
Proof. decide equality; apply Z.eq_dec. Qed.

(** What one assignment does to the value read at any cell. *)
Lemma prob_setProb (f : Q -> Q) (m : ProbabilityMap) (rc rc' : Coordinate) :
  prob (setProb f m rc) rc' =
  if coord_eq_dec rc rc'
  then if inGrid m (fst rc) (snd rc) then f (prob m rc') else prob m rc'
  else prob m rc'.
Proof.
  destruct (coord_eq_dec rc rc') as [<-|Hne].
  - destruct (inGrid m (fst rc) (snd rc)) eqn:E.
    + now apply prob_setProb_same.
    + unfold setProb. now rewrite updCell_outside.
  - now apply prob_setProb_other.
Qed.

(** ** Passes *)

Lemma Pass_id : Pass (fun m => m).
Proof. split; intros ?; auto. Qed.

Lemma Pass_setProb (f : Q -> Q) (rc : Coordinate) :
  fixesZero f -> Pass (fun m => setProb f m rc).
Proof.
  intros Hf. split.
  - intros h w m. apply hasDims_updCell.
  - intros m rc' H. rewrite prob_setProb.
    destruct (coord_eq_dec rc rc'); [|assumption].
    destruct (inGrid m (fst rc) (snd rc)); auto.
Qed.

Lemma Pass_compose (F G : ProbabilityMap -> ProbabilityMap) :
  Pass F -> Pass G -> Pass (fun m => G (F m)).
Proof.
  intros [HF1 HF2] [HG1 HG2]. split.
  - intros h w m H. apply HG1, HF1, H.
  - intros m rc H. apply HG2, HF2, H.
Qed.

Lemma Pass_fold {X : Type} (step : ProbabilityMap -> X -> ProbabilityMap)
  (l : list X) :
  (forall x, Pass (fun m => step m x)) -> Pass (fun m => fold_left step l m).
Proof.
  intros Hstep. induction l as [|x l IH]; cbn [fold_left].
  - apply Pass_id.
  - apply (Pass_compose (fun m => step m x) (fun m => fold_left step l m));
      auto.
Qed.

(** A pass whose parameters are read off the map it is applied to. *)
Lemma Pass_reading {X : Type} (F : X -> ProbabilityMap -> ProbabilityMap)
  (p : ProbabilityMap -> X) :
  (forall x, Pass (F x)) -> Pass (fun m => F (p m) m).
Proof.
  intros HF. split.
  - intros h w m H. now apply (HF (p m)).
  - intros m rc H. now apply (HF (p m)).
Qed.

Lemma Pass_if (b : bool) (F G : ProbabilityMap -> ProbabilityMap) :
  Pass F -> Pass G -> Pass (fun m => if b then F m else G m).
Proof. now destruct b. Qed.

Lemma Pass_boostCells (k : Q) (cells : list Coordinate) :
  Pass (boostCells k cells).
Proof.
  unfold boostCells. apply Pass_fold. intros rc.
  apply Pass_setProb, fixesZero_boost.
Qed.

(** ** Every heuristic modulator is a pass *)

Lemma Pass_applyCheckerboardPattern (h w : Z) :
  Pass (fun m => applyCheckerboardPattern m h w).
Proof.
  unfold applyCheckerboardPattern. apply Pass_fold. intros rc.
  apply Pass_if; [apply Pass_setProb, fixesZero_boost|apply Pass_id].
Qed.

Lemma Pass_completions (k : Q) (h w : Z) (hits misses : list Coordinate) :
  Pass (fun m =>
          boostCells k
            (findPotentialCompletions h w hits misses
               (findSmallestRemainingShip m h w)) m).
Proof.
  apply (Pass_reading
           (fun size => boostCells k (findPotentialCompletions h w hits misses size))
           (fun m => findSmallestRemainingShip m h w)).
  intros size. apply Pass_boostCells.
Qed.

Lemma Pass_applyTargetingStrategy (h w : Z) (hits misses : list Coordinate) :
  Pass (fun m => applyTargetingStrategy m h w hits misses).
Proof.
  unfold applyTargetingStrategy. destruct hits as [|hit hits']; [apply Pass_id|].
  cbv zeta. apply Pass_if.
  - destruct (findAlignedHits (hit :: hits')); [apply Pass_id|].
    apply Pass_boostCells.
  - apply (Pass_compose
             (boostCells ADJACENCY_FACTOR
                (getAdjacentCells h w (hit :: hits') misses))
             (fun m1 =>
                boostCells COMPLETION_FACTOR
                  (findPotentialCompletions h w (hit :: hits') misses
                     (findSmallestRemainingShip m1 h w)) m1)).
    + apply Pass_boostCells.
    + apply Pass_completions.
Qed.

Lemma Pass_boostCorner (k : Q) (h w : Z) (hits misses : list Coordinate)
  (corner : Coordinate) :
  Pass (fun m => boostCorner k h w hits misses m corner).
Proof.
  unfold boostCorner.
  apply Pass_if; [apply Pass_setProb, fixesZero_scale|apply Pass_id].
Qed.

Lemma Pass_cornerPass (k : Q) (h w : Z) (hits misses : list Coordinate) :
  Pass (fun m => cornerPass k m h w hits misses).
Proof.
  unfold cornerPass. apply Pass_fold. intros hit1.
  apply Pass_fold. intros hit2.
  apply Pass_if; [apply Pass_id|].
  apply Pass_if; [apply Pass_id|].
  cbv zeta.
  apply (Pass_compose
           (fun m => boostCorner k h w hits misses m (fst hit1, snd hit2))
           (fun m1 => boostCorner k h w hits misses m1 (fst hit2, snd hit1)));
    apply Pass_boostCorner.
Qed.

Lemma Pass_extensions (k : Q) (h w : Z) (misses : list Coordinate)
  (groups : list AlignedGroup) :
  Pass (fun m =>
          fold_left
            (fun m (g : AlignedGroup) =>
               boostCells k
                 (getExtensionPoints (coordinates g) (direction g) h w misses) m)
            groups m).
Proof. apply Pass_fold. intros g. apply Pass_boostCells. Qed.

Lemma Pass_applySuperAggressiveStrategy (h w : Z)
  (hits misses : list Coordinate) :
  Pass (fun m => applySuperAggressiveStrategy m h w hits misses).
Proof.
  unfold applySuperAggressiveStrategy.
  destruct hits as [|hit hits']; [apply Pass_applyCheckerboardPattern|].
  cbv zeta. unfold applyPatternRecognition.
  set (hs := hit :: hits').
  apply (Pass_compose
           (fun m =>
              if Z.of_nat (length (findAlignedHits hs)) >=? 2
              then fold_left
                     (fun m (g : AlignedGroup) =>
                        boostCells SUPER_ALIGNMENT_FACTOR
                          (getExtensionPoints (coordinates g) (direction g)
                                              h w misses) m)
                     (findAlignedHits hs) m
              else boostCells SUPER_ADJACENCY_FACTOR
                     (getAdjacentCells h w hs misses) m)
           (fun m1 =>
              cornerPass (3 # 2)
                (boostCells SUPER_COMPLETION_FACTOR
                   (findPotentialCompletions h w hs misses
                      (findSmallestRemainingShip m1 h w)) m1)
                h w hs misses)).
  - apply Pass_if; [apply Pass_extensions|apply Pass_boostCells].
  - apply (Pass_compose
             (fun m1 =>
                boostCells SUPER_COMPLETION_FACTOR
                  (findPotentialCompletions h w hs misses
                     (findSmallestRemainingShip m1 h w)) m1)
             (fun m2 => cornerPass (3 # 2) m2 h w hs misses)).
    + apply Pass_completions.
    + apply Pass_cornerPass.
Qed.

Lemma Pass_applyOptimalInitialPattern (h w : Z) (remainingShips : list Z) :
  Pass (fun m => applyOptimalInitialPattern m h w remainingShips).
Proof.
  unfold applyOptimalInitialPattern. cbv zeta.
  set (spacing := Z.max 2 (minOfList remainingShips - 1)).
  set (grid := fun m : ProbabilityMap =>
         fold_left
           (fun m rc =>
              if ((Z.rem (fst rc) spacing =? 0) && (Z.rem (snd rc) spacing =? 0))
                 || ((Z.rem (fst rc) spacing =? 1) && (Z.rem (snd rc) spacing =? 1))
              then setProb (fun x => (x * 2)%Q) m rc
              else m)
           (boardCells h w) m).
  assert (Hgrid : Pass grid).
  { apply Pass_fold. intros rc.
    apply Pass_if; [apply Pass_setProb, fixesZero_scale|apply Pass_id]. }
  apply Pass_if; [|exact Hgrid].
  set (corners := [ (0, 0); (0, 1); (1, 0);
                    (0, w - 1); (0, w - 2); (1, w - 1);
                    (h - 1, 0); (h - 2, 0); (h - 1, 1);
                    (h - 1, w - 1); (h - 1, w - 2); (h - 2, w - 1) ]).
  set (center := flat_map _ _).
  set (centerStep := fun (m : ProbabilityMap) (rc : Coordinate) =>
         if isValidCell (fst rc) (snd rc) h w
         then setProb (boost (5 # 4)) m rc
         else m).
  apply (Pass_compose grid
           (fun m1 => fold_left centerStep center (boostCells (1 # 2) corners m1)));
    [exact Hgrid|].
  apply (Pass_compose (boostCells (1 # 2) corners)
           (fun m2 => fold_left centerStep center m2)).
  - apply Pass_boostCells.
  - apply Pass_fold. intros rc.
    apply Pass_if; [apply Pass_setProb, fixesZero_boost|apply Pass_id].
Qed.

Lemma Pass_applyInformationEntropy (h w : Z) (hits misses : list Coordinate)
  (remainingShips : list Z) :
  Pass (fun m => applyInformationEntropy m h w hits misses remainingShips).
Proof.
  unfold applyInformationEntropy.
  apply Pass_if; [apply Pass_id|]. cbv zeta.
  apply (Pass_reading
           (fun entropyMap m =>
              fold_left
                (fun m rc => setProb (blend (prob entropyMap rc)) m rc)
                (boardCells h w) m)
           (fun m => entropyScores m h w misses remainingShips)).
  intros entropyMap. apply Pass_fold. intros rc.
  apply Pass_setProb. unfold blend. apply fixesZero_whenPositive.
Qed.

Lemma Pass_crossPass (h w : Z) (hits misses : list Coordinate) :
  Pass (fun m => crossPass m h w hits misses).
Proof.
  unfold crossPass. apply Pass_fold. intros hit. apply Pass_fold. intros dxy.
  apply Pass_if; [apply Pass_setProb, fixesZero_boost|apply Pass_id].
Qed.

Lemma Pass_applyEnhancedPatternRecognition (h w : Z)
  (hits misses : list Coordinate) :
  Pass (fun m => applyEnhancedPatternRecognition m h w hits misses).
Proof.
  unfold applyEnhancedPatternRecognition. cbv zeta.
  apply (Pass_compose
           (fun m => crossPass m h w hits misses)
           (fun m1 => cornerPass OPTIMIZED_PATTERN_FACTOR m1 h w hits misses)).
  - apply Pass_crossPass.
  - apply Pass_cornerPass.
Qed.

Lemma Pass_optimizedBeforeEntropy (h w : Z)
  (activeHits misses : list Coordinate) :
  Pass (fun m => optimizedBeforeEntropy m h w activeHits misses).
Proof.
  unfold optimizedBeforeEntropy. cbv zeta.
  set (groups := findAlignedHits activeHits).
  set (isolated := filter _ activeHits).
  apply (Pass_compose
           (fun m =>
              if Z.of_nat (length groups) >=? 1
              then fold_left
                     (fun m (g : AlignedGroup) =>
                        boostCells OPTIMIZED_ALIGNMENT_FACTOR
                          (getExtensionPoints (coordinates g) (direction g)
                                              h w misses) m)
                     groups m
              else m)
           (fun m1 =>
              applyEnhancedPatternRecognition
                (boostCells OPTIMIZED_COMPLETION_FACTOR
                   (findPotentialCompletions h w activeHits misses
                      (findSmallestRemainingShip
                         (if Z.of_nat (length isolated) >? 0
                          then boostCells OPTIMIZED_ADJACENCY_FACTOR
                                 (getAdjacentCells h w isolated misses) m1
                          else m1) h w))
                   (if Z.of_nat (length isolated) >? 0
                    then boostCells OPTIMIZED_ADJACENCY_FACTOR
                           (getAdjacentCells h w isolated misses) m1
                    else m1))
                h w activeHits misses)).
  - apply Pass_if; [apply Pass_extensions|apply Pass_id].
  - apply (Pass_compose
             (fun m1 =>
                if Z.of_nat (length isolated) >? 0
                then boostCells OPTIMIZED_ADJACENCY_FACTOR
                       (getAdjacentCells h w isolated misses) m1
                else m1)
             (fun m2 =>
                applyEnhancedPatternRecognition
                  (boostCells OPTIMIZED_COMPLETION_FACTOR
                     (findPotentialCompletions h w activeHits misses
                        (findSmallestRemainingShip m2 h w)) m2)
                  h w activeHits misses)).
    + apply Pass_if; [apply Pass_boostCells|apply Pass_id].
    + apply (Pass_compose
               (fun m2 =>
                  boostCells OPTIMIZED_COMPLETION_FACTOR
                    (findPotentialCompletions h w activeHits misses
                       (findSmallestRemainingShip m2 h w)) m2)
               (fun m3 =>
                  applyEnhancedPatternRecognition m3 h w activeHits misses)).
      * apply Pass_completions.
      * apply Pass_applyEnhancedPatternRecognition.
Qed.

Lemma Pass_applyOptimizedStrategy (h w : Z) (hits misses : list Coordinate)
  (remainingShips : list Z) (sunkShips : list SunkShip) :
  Pass (fun m =>
          applyOptimizedStrategy m h w hits misses remainingShips sunkShips).
Proof.
  unfold applyOptimizedStrategy. cbv zeta.
  destruct (getActiveHits hits sunkShips) as [|a active'].
  - apply Pass_applyOptimalInitialPattern.
  - apply (Pass_compose
             (fun m => optimizedBeforeEntropy m h w (a :: active') misses)
             (fun m4 =>
                applyInformationEntropy m4 h w hits misses remainingShips)).
    + apply Pass_optimizedBeforeEntropy.
    + apply Pass_applyInformationEntropy.
Qed.

Lemma Pass_applyStrategy (mode : ProbabilityMode) (h w : Z)
  (hits misses : list Coordinate) (remainingShips : list Z)
  (sunkShips : list SunkShip) :
  Pass (fun m =>
          applyStrategy mode m h w hits misses remainingShips sunkShips).
Proof.
  destruct mode; cbn [applyStrategy].
  - apply Pass_fold. intros rc. apply Pass_setProb, fixesZero_cap.
  - apply Pass_applyCheckerboardPattern.
  - apply Pass_applyTargetingStrategy.
  - apply Pass_applySuperAggressiveStrategy.
  - apply Pass_applyOptimizedStrategy.
Qed.

Lemma Pass_normalizeMap (h w : Z) : Pass (fun m => normalizeMap m h w).
Proof.
  unfold normalizeMap.
  apply (Pass_reading
           (fun (mass : Q * Z) m =>
              let (sum, validCells) := mass in
              if (validCells =? 0) || Qeq_bool sum 0 then m
              else fold_left (setProb (fun x => if Qpos x then (x / sum)%Q else x))
                             (boardCells h w) m)
           (fun m => positiveMass m h w)).
  intros [sum validCells].
  apply Pass_if; [apply Pass_id|].
  apply Pass_fold. intros rc. apply Pass_setProb, fixesZero_whenPositive.
Qed.

(** ** Loops that assign every cell once *)

Lemma inGrid_setProb (f : Q -> Q) (m : ProbabilityMap) (rc rc' : Coordinate) :
  inGrid (setProb f m rc) (fst rc') (snd rc') = inGrid m (fst rc') (snd rc').
Proof. apply inGrid_updCell. Qed.

Lemma prob_fold_skip (g : Coordinate -> Q -> Q) (cells : list Coordinate)
  (m : ProbabilityMap) (rc : Coordinate) :
  ~ In rc cells ->
  prob (fold_left (fun m rc => setProb (g rc) m rc) cells m) rc = prob m rc.
Proof.
  revert m. induction cells as [|x cells IH]; intros m Hn; cbn [fold_left].
  - reflexivity.
  - rewrite IH by (intros H; apply Hn; now right).
    apply prob_setProb_other. intros E. apply Hn. now left.
Qed.

Lemma prob_fold_pointwise (g : Coordinate -> Q -> Q) (cells : list Coordinate)
  (m : ProbabilityMap) (rc : Coordinate) :
  NoDup cells -> In rc cells -> inGrid m (fst rc) (snd rc) = true ->
  prob (fold_left (fun m rc => setProb (g rc) m rc) cells m) rc
  = g rc (prob m rc).
Proof.
  revert m. induction cells as [|x cells IH]; intros m Hnd Hin Hgrid;
    [contradiction|].
  cbn [fold_left]. inversion Hnd as [|? ? Hx Hnd']; subst.
  destruct (coord_eq_dec x rc) as [->|Hne].
  - rewrite prob_fold_skip by assumption. now apply prob_setProb_same.
  - destruct Hin as [E|Hin]; [contradiction|].
    rewrite IH; auto.
    + now rewrite prob_setProb_other.
    + now rewrite inGrid_setProb.
Qed.

Lemma prob_outside (m : ProbabilityMap) (rc : Coordinate) :
  inGrid m (fst rc) (snd rc) = false -> prob m rc = 0%Q.
Proof. apply getCell_outside. Qed.

Lemma prob_mkGrid_zero (h w : Z) (rc : Coordinate) :
  prob (mkGrid h w 0%Q) rc = 0%Q.
Proof.
  destruct (inGrid (mkGrid h w 0%Q) (fst rc) (snd rc)) eqn:E.
  - destruct (inGrid_bounds h w _ _ _ (hasDims_mkGrid h w 0%Q) E).
    now apply getCell_mkGrid.
  - now apply prob_outside.
Qed.

Lemma isCoordinateInList_In (rc : Coordinate) (l : list Coordinate) :
  isCoordinateInList rc l = true <-> In rc l.
Proof.
  unfold isCoordinateInList. rewrite existsb_exists. split.
  - intros [x [Hx E]]. unfold coordEq in E.
    apply andb_true_iff in E. destruct E as [E1 E2].
    apply Z.eqb_eq in E1, E2. destruct x, rc; cbn in *; subst. assumption.
  - intros H. exists rc. split; [assumption|].
    unfold coordEq. now rewrite !Z.eqb_refl.
Qed.

(** ** The base map *)

Lemma hasDims_fold_setProb {X : Type} (step : ProbabilityMap -> X -> ProbabilityMap)
  (l : list X) (h w : Z) (m : ProbabilityMap) :
  (forall m x, hasDims h w m -> hasDims h w (step m x)) ->
  hasDims h w m -> hasDims h w (fold_left step l m).
Proof.
  intros Hstep. revert m. induction l as [|x l IH]; intros m Hm; cbn; auto.
Qed.

Lemma hasDims_baseProbabilities (h w : Z) (hits misses : list Coordinate)
  (cnt : list (list Z)) (total : Z) :
  hasDims h w (baseProbabilities h w hits misses cnt total).
Proof.
  unfold baseProbabilities. apply hasDims_fold_setProb.
  - intros m rc. apply hasDims_updCell.
  - apply hasDims_mkGrid.
Qed.

Lemma prob_baseProbabilities (h w : Z) (hits misses : list Coordinate)
  (cnt : list (list Z)) (total : Z) (rc : Coordinate) :
  inBoard h w rc ->
  prob (baseProbabilities h w hits misses cnt total) rc =
  if isCoordinateInList rc hits || isCoordinateInList rc misses
  then 0%Q
  else (inject_Z (getCell 0%Z cnt (fst rc) (snd rc)) / inject_Z total)%Q.
Proof.
  intros [Hr Hc]. unfold baseProbabilities.
  rewrite (prob_fold_pointwise
             (fun rc _ =>
                if isCoordinateInList rc hits || isCoordinateInList rc misses
                then 0%Q
                else (inject_Z (getCell 0%Z cnt (fst rc) (snd rc))
                      / inject_Z total)%Q)).
  - reflexivity.
  - apply NoDup_boardCells.
  - now apply in_boardCells.
  - apply (inGrid_hasDims h w); auto. apply hasDims_mkGrid.
Qed.

Lemma prob_baseProbabilities_outside (h w : Z) (hits misses : list Coordinate)
  (cnt : list (list Z)) (total : Z) (rc : Coordinate) :
  ~ inBoard h w rc ->
  prob (baseProbabilities h w hits misses cnt total) rc = 0%Q.
Proof.
  intros Hout. apply prob_outside.
  destruct (inGrid _ (fst rc) (snd rc)) eqn:E; [|reflexivity].
  exfalso. apply Hout.
  exact (inGrid_bounds h w _ _ _
           (hasDims_baseProbabilities h w hits misses cnt total) E).
Qed.


(** Cells that are a hit or a miss are 0 in the returned map. *)
Lemma known_cells_are_zero (h w : Z) (hits misses : list Coordinate)
  (remainingShips : list Z) (mode : ProbabilityMode) (sunkShips : list SunkShip)
  (rc : Coordinate) :
  In rc hits \/ In rc misses ->
  (prob (calculateProbabilityMap h w hits misses remainingShips mode sunkShips) rc
   == 0)%Q.
Proof.
  intros Hknown.
  unfold calculateProbabilityMap, heuristicMap.
  destruct remainingShips as [|s ships];
    [rewrite prob_mkGrid_zero; reflexivity|].
  destruct (tallyPlacements h w hits misses (s :: ships) sunkShips)
    as [cnt total].
  destruct (total =? 0); [rewrite prob_mkGrid_zero; reflexivity|].
  apply Pass_normalizeMap, Pass_applyStrategy.
  destruct (Z_lt_dec (fst rc) 0) as [Hr|Hr];
    [rewrite prob_baseProbabilities_outside; [reflexivity|unfold inBoard; lia]|].
  destruct (Z_lt_dec (fst rc) h) as [Hr'|Hr'];
    [|rewrite prob_baseProbabilities_outside; [reflexivity|unfold inBoard; lia]].
  destruct (Z_lt_dec (snd rc) 0) as [Hc|Hc];
    [rewrite prob_baseProbabilities_outside; [reflexivity|unfold inBoard; lia]|].
  destruct (Z_lt_dec (snd rc) w) as [Hc'|Hc'];
    [|rewrite prob_baseProbabilities_outside; [reflexivity|unfold inBoard; lia]].
  rewrite prob_baseProbabilities by (unfold inBoard; lia).
  replace (isCoordinateInList rc hits || isCoordinateInList rc misses)
    with true; [reflexivity|].
  symmetry. apply orb_true_iff.
  destruct Hknown as [H|H]; [left|right]; now apply isCoordinateInList_In.
Qed.

(** ** The normalizer *)

Lemma posPart_nonneg (x : Q) : (0 <= posPart x)%Q.
Proof.
  unfold posPart. destruct (Qpos x) eqn:E; [|apply Qle_refl].
  apply Qlt_le_weak. now apply Qpos_true.
Qed.

Lemma Qsum_nonneg (l : list Q) :
  (forall x, In x l -> (0 <= x)%Q) -> (0 <= Qsum l)%Q.
Proof.
  induction l as [|x l IH]; intros H; cbn [Qsum]; [apply Qle_refl|].
  rewrite <- (Qplus_0_l 0). apply Qplus_le_compat.
  - apply H. now left.
  - apply IH. intros y Hy. apply H. now right.
Qed.

Lemma Qsum_bounds_term (l : list Q) (x : Q) :
  (forall y, In y l -> (0 <= y)%Q) -> In x l -> (x <= Qsum l)%Q.
Proof.
  induction l as [|y l IH]; intros Hnn Hin; [contradiction|].
  cbn [Qsum]. destruct Hin as [->|Hin].
  - rewrite <- (Qplus_0_r x) at 1. apply Qplus_le_compat; [apply Qle_refl|].
    apply Qsum_nonneg. intros z Hz. apply Hnn. now right.
  - rewrite <- (Qplus_0_l x). apply Qplus_le_compat.
    + apply Hnn. now left.
    + apply IH; auto. intros z Hz. apply Hnn. now right.
Qed.

Lemma Qsum_map_ext {X : Type} (f g : X -> Q) (l : list X) :
  (forall x, In x l -> (f x == g x)%Q) ->
  (Qsum (map f l) == Qsum (map g l))%Q.
Proof.
  induction l as [|x l IH]; intros H; cbn [map Qsum]; [reflexivity|].
  rewrite (H x) by now left. rewrite IH; [reflexivity|].
  intros y Hy. apply H. now right.
Qed.

Lemma Qsum_map_div {X : Type} (f : X -> Q) (s : Q) (l : list X) :
  (Qsum (map (fun x => f x / s) l) == Qsum (map f l) / s)%Q.
Proof.
  induction l as [|x l IH]; cbn [map Qsum].
  - unfold Qdiv. now rewrite Qmult_0_l.
  - rewrite IH. unfold Qdiv. now rewrite Qmult_plus_distr_l.
Qed.

(** The first loop of [normalizeMap], over any list of cells. *)
Lemma mass_fold (m : ProbabilityMap) (cells : list Coordinate) (s : Q) (n : Z) :
  let st :=
    fold_left
      (fun (st : Q * Z) rc =>
         let (sum, validCells) := st in
         if Qpos (prob m rc) then ((sum + prob m rc)%Q, validCells + 1)
         else (sum, validCells))
      cells (s, n) in
  (fst st == s + Qsum (map (fun rc => posPart (prob m rc)) cells))%Q /\
  snd st = n + Z.of_nat (length (filter (fun rc => Qpos (prob m rc)) cells)).
Proof.
  revert s n. induction cells as [|rc cells IH]; intros s n; cbn zeta.
  - cbn. split; [now rewrite Qplus_0_r|lia].
  - cbn [fold_left map Qsum filter]. unfold posPart at 1.
    destruct (Qpos (prob m rc)) eqn:E.
    + destruct (IH (s + prob m rc)%Q (n + 1)) as [H1 H2]. cbn zeta in H1, H2.
      split.
      * rewrite H1. now rewrite Qplus_assoc.
      * rewrite H2. cbn [length]. lia.
    + destruct (IH s n) as [H1 H2]. cbn zeta in H1, H2. split.
      * rewrite H1. now rewrite Qplus_0_l.
      * exact H2.
Qed.

Lemma positiveMass_sum (m : ProbabilityMap) (h w : Z) :
  (fst (positiveMass m h w)
   == Qsum (map (fun rc => posPart (prob m rc)) (boardCells h w)))%Q.
Proof.
  unfold positiveMass.
  destruct (mass_fold m (boardCells h w) 0%Q 0) as [H _]. cbn zeta in H.
  rewrite H. apply Qplus_0_l.
Qed.

Lemma positiveMass_count (m : ProbabilityMap) (h w : Z) :
  snd (positiveMass m h w)
  = Z.of_nat (length (filter (fun rc => Qpos (prob m rc)) (boardCells h w))).
Proof.
  unfold positiveMass.
  destruct (mass_fold m (boardCells h w) 0%Q 0) as [_ H]. cbn zeta in H.
  rewrite H. lia.
Qed.

(** A positive cell of the board makes both accumulators positive. *)
Lemma positiveMass_positive (m : ProbabilityMap) (h w : Z) (rc : Coordinate) :
  inBoard h w rc -> (0 < prob m rc)%Q ->
  (0 < fst (positiveMass m h w))%Q /\ 0 < snd (positiveMass m h w).
Proof.
  intros Hin Hpos. apply in_boardCells in Hin.
  assert (Hq : Qpos (prob m rc) = true) by now apply Qpos_true.
  split.
  - rewrite positiveMass_sum.
    apply Qlt_le_trans with (y := posPart (prob m rc)).
    + unfold posPart. now rewrite Hq.
    + apply Qsum_bounds_term.
      * intros y Hy. apply in_map_iff in Hy. destruct Hy as [z [<- _]].
        apply posPart_nonneg.
      * apply in_map_iff. now exists rc.
  - rewrite positiveMass_count.
    assert (Hf : In rc (filter (fun rc => Qpos (prob m rc)) (boardCells h w)))
      by (apply filter_In; now split).
    destruct (filter _ _); [contradiction|cbn [length]; lia].
Qed.

Lemma normalizeMap_unfold (m : ProbabilityMap) (h w : Z) :
  normalizeMap m h w =
  if (snd (positiveMass m h w) =? 0) || Qeq_bool (fst (positiveMass m h w)) 0
  then m
  else fold_left
         (fun m' rc => setProb (normalized (fst (positiveMass m h w))) m' rc)
         (boardCells h w) m.
Proof. unfold normalizeMap. now destruct (positiveMass m h w). Qed.

(** Outside the board every map of the board's shape reads 0. *)
Lemma prob_off_board (h w : Z) (m : ProbabilityMap) (rc : Coordinate) :
  hasDims h w m -> ~ inBoard h w rc -> prob m rc = 0%Q.
Proof.
  intros Hd Hout. apply prob_outside.
  destruct (inGrid m (fst rc) (snd rc)) eqn:E; [|reflexivity].
  exfalso. apply Hout. exact (inGrid_bounds h w _ _ _ Hd E).
Qed.

Lemma inBoard_dec (h w : Z) (rc : Coordinate) :
  {inBoard h w rc} + {~ inBoard h w rc}.
Proof.
  unfold inBoard.
  destruct (Z_le_dec 0 (fst rc)), (Z_lt_dec (fst rc) h),
           (Z_le_dec 0 (snd rc)), (Z_lt_dec (snd rc) w);
    try (left; lia); right; lia.
Qed.

Section Normalized.
Variables (h w : Z) (pre : ProbabilityMap).
Hypothesis Hdims : hasDims h w pre.
Hypothesis Hmass : (0 < fst (positiveMass pre h w))%Q.
Hypothesis Hcount : 0 < snd (positiveMass pre h w).

Let S := fst (positiveMass pre h w).

Lemma normalizeMap_divides :
  normalizeMap pre h w =
  fold_left (fun m' rc => setProb (normalized S) m' rc) (boardCells h w) pre.
Proof.
  rewrite normalizeMap_unfold.
  replace (snd (positiveMass pre h w) =? 0) with false
    by (symmetry; apply Z.eqb_neq; lia).
  replace (Qeq_bool (fst (positiveMass pre h w)) 0) with false; [reflexivity|].
  symmetry. apply not_true_is_false. intros E. apply Qeq_bool_eq in E.
  rewrite E in Hmass. now apply Qlt_irrefl in Hmass.
Qed.

Lemma prob_normalizeMap (rc : Coordinate) :
  prob (normalizeMap pre h w) rc = normalized S (prob pre rc).
Proof.
  rewrite normalizeMap_divides.
  destruct (inBoard_dec h w rc) as [Hin|Hout].
  - apply (prob_fold_pointwise (fun _ => normalized S)).
    + apply NoDup_boardCells.
    + now apply in_boardCells.
    + destruct Hin. now apply (inGrid_hasDims h w).
  - rewrite (prob_fold_skip (fun _ => normalized S))
      by (intros H; apply Hout; now apply in_boardCells).
    rewrite (prob_off_board h w pre rc Hdims Hout). reflexivity.
Qed.

Lemma posPart_normalized (x : Q) :
  (posPart (normalized S x) == posPart x / S)%Q.
Proof.
  unfold normalized, posPart. destruct (Qpos x) eqn:E.
  - assert (Hx : (0 < x / S)%Q).
    { apply Qlt_shift_div_l; [exact Hmass|].
      rewrite Qmult_0_l. now apply Qpos_true. }
    apply Qpos_true in Hx. rewrite Hx. reflexivity.
  - rewrite E. unfold Qdiv. now rewrite Qmult_0_l.
Qed.

Lemma normalized_mass :
  (fst (positiveMass (normalizeMap pre h w) h w) == 1)%Q.
Proof.
  rewrite positiveMass_sum.
  rewrite (Qsum_map_ext _ (fun rc => posPart (prob pre rc) / S)%Q).
  - rewrite (Qsum_map_div (fun rc => posPart (prob pre rc))).
    rewrite <- positiveMass_sum. fold S.
    apply Qmult_inv_r. intros E. unfold S in E.
    rewrite E in Hmass. now apply Qlt_irrefl in Hmass.
  - intros rc _. rewrite prob_normalizeMap. apply posPart_normalized.
Qed.

Lemma normalized_le_1 (rc : Coordinate) :
  (prob (normalizeMap pre h w) rc <= 1)%Q.
Proof.
  rewrite prob_normalizeMap. unfold normalized.
  destruct (Qpos (prob pre rc)) eqn:E.
  - apply Qle_shift_div_r; [exact Hmass|]. rewrite Qmult_1_l.
    destruct (inBoard_dec h w rc) as [Hin|Hout].
    + unfold S. rewrite positiveMass_sum.
      apply Qle_trans with (y := posPart (prob pre rc)).
      * unfold posPart. rewrite E. apply Qle_refl.
      * apply Qsum_bounds_term.
        -- intros y Hy. apply in_map_iff in Hy. destruct Hy as [z [<- _]].
           apply posPart_nonneg.
        -- apply in_map_iff. exists rc. split; [reflexivity|].
           now apply in_boardCells.
    + rewrite (prob_off_board h w pre rc Hdims Hout) in E. discriminate.
  - apply Qpos_false in E. apply Qle_trans with (y := 0%Q); [exact E|].
    discriminate.
Qed.
End Normalized.

Lemma hasDims_heuristicMap (h w : Z) (hits misses : list Coordinate)
  (remainingShips : list Z) (mode : ProbabilityMode) (sunkShips : list SunkShip)
  (pre : ProbabilityMap) :
  heuristicMap h w hits misses remainingShips mode sunkShips = Some pre ->
  hasDims h w pre.
Proof.
  unfold heuristicMap. destruct remainingShips as [|s ships]; [discriminate|].
  destruct (tallyPlacements h w hits misses (s :: ships) sunkShips)
    as [cnt total].
  destruct (total =? 0); [discriminate|].
  intros E. inversion E; subst.
  apply Pass_applyStrategy, hasDims_baseProbabilities.
Qed.

Lemma fold_setProb_nonpos (f : Q -> Q) (cells : list Coordinate)
  (m : ProbabilityMap) (rc : Coordinate) :
  (forall x, (x <= 0)%Q -> (f x <= 0)%Q) ->
  (prob m rc <= 0)%Q ->
  (prob (fold_left (fun m' rc' => setProb f m' rc') cells m) rc <= 0)%Q.
Proof.
  intros Hf. revert m. induction cells as [|x cells IH]; intros m Hm;
    cbn [fold_left]; [assumption|].
  apply IH. rewrite prob_setProb.
  destruct (coord_eq_dec x rc); [|assumption].
  destruct (inGrid m (fst x) (snd x)); auto.
Qed.

(** Normalizing never turns a cell that is not positive into a positive one. *)
Lemma positive_after_normalizeMap (h w : Z) (pre : ProbabilityMap)
  (rc : Coordinate) :
  (0 < prob (normalizeMap pre h w) rc)%Q -> (0 < prob pre rc)%Q.
Proof.
  intros H. apply Qnot_le_lt. intros Hle.
  apply (Qlt_not_le _ _ H). rewrite normalizeMap_unfold.
  destruct ((snd (positiveMass pre h w) =? 0)
            || Qeq_bool (fst (positiveMass pre h w)) 0); [assumption|].
  apply fold_setProb_nonpos; [|assumption].
  intros x Hx. unfold normalized. apply Qpos_false in Hx. rewrite Hx.
  now apply Qpos_false.
Qed.

(** ** The engine's contract *)

(** C6.  With no remaining ship the engine returns the zero-filled map of
    [boardHeight] rows and [boardWidth] columns, whatever the hits, the
    misses, the mode and the sunk ships. *)
Theorem no_remaining_ships_zero_map (h w : Z) (hits misses : list Coordinate)
  (mode : ProbabilityMode) (sunkShips : list SunkShip) :
  0 < h -> 0 < w ->
  let result := calculateProbabilityMap h w hits misses [] mode sunkShips in
  length result = Z.to_nat h /\
  Forall (fun row => row = repeat 0%Q (Z.to_nat w)) result /\
  forall rc, inBoard h w rc -> prob result rc = 0%Q.
Proof.
  intros _ _. cbn zeta. unfold calculateProbabilityMap. cbn [heuristicMap].
  split; [apply repeat_length|]. split.
  - apply Forall_forall. intros row Hrow. now apply repeat_spec in Hrow.
  - intros rc _. apply prob_mkGrid_zero.
Qed.

Lemma no_remaining_ships_zero_map_witness :
  let result := calculateProbabilityMap 10 10 [(2, 3)] [(0, 0)] [] OPTIMIZED [] in
  length result = 10%nat /\
  Forall (fun row => row = repeat 0%Q 10) result /\
  forall rc, inBoard 10 10 rc -> prob result rc = 0%Q.
Proof.
  apply (no_remaining_ships_zero_map 10 10 [(2, 3)] [(0, 0)] OPTIMIZED []); lia.
Defined.

(** C2.  For a well-formed input and any mode, the returned map is exactly 0
    at every hit and at every miss. *)
Theorem hit_and_miss_cells_are_zero (h w : Z) (hits misses : list Coordinate)
  (remainingShips : list Z) (mode : ProbabilityMode) (sunkShips : list SunkShip)
  (rc : Coordinate) :
  wellFormed h w hits misses ->
  In rc hits \/ In rc misses ->
  (prob (calculateProbabilityMap h w hits misses remainingShips mode sunkShips) rc
   == 0)%Q.
Proof. intros _. apply known_cells_are_zero. Qed.


(** C10.  Outside OPTIMIZED mode the returned map does not depend on the
    sunk ships, and in no mode does the enumeration of placements. *)
Theorem sunk_ships_ignored_outside_optimized (h w : Z)
  (hits misses : list Coordinate) (remainingShips : list Z)
  (mode : ProbabilityMode) (sunk1 sunk2 : list SunkShip) :
  wellFormed h w hits misses ->
  mode <> OPTIMIZED ->
  calculateProbabilityMap h w hits misses remainingShips mode sunk1
  = calculateProbabilityMap h w hits misses remainingShips mode sunk2
  /\ forall shipLength,
       generateValidPlacements h w shipLength hits misses sunk1
       = generateValidPlacements h w shipLength hits misses sunk2.
Proof.
  intros _ Hmode. split; [|reflexivity].
  unfold calculateProbabilityMap, heuristicMap, tallyPlacements,
    generateValidPlacements.
  destruct mode; try contradiction; try reflexivity.
  destruct hits; reflexivity.
Qed.

(** Discharges [wellFormed] on a concrete board. *)
Ltac well_formed :=
  unfold wellFormed, inBoard;
  repeat match goal with |- _ /\ _ => split end;
  try lia;
  try (repeat constructor; cbn; lia);
  cbn; intuition congruence.

Lemma hit_and_miss_cells_are_zero_witness :
  let result :=
    calculateProbabilityMap 10 10 [(2, 3); (2, 4)] [(0, 0); (1, 1); (3, 3)]
                            [5; 4; 3] OPTIMIZED [] in
  let miss : Coordinate := (3, 3) in
  wellFormed 10 10 [(2, 3); (2, 4)] [(0, 0); (1, 1); (3, 3)] /\
  (prob result miss == 0)%Q.
Proof.
  cbv zeta.
  assert (Hwf : wellFormed 10 10 [(2, 3); (2, 4)] [(0, 0); (1, 1); (3, 3)])
    by well_formed.
  split; [exact Hwf|].
  apply (hit_and_miss_cells_are_zero 10 10 [(2, 3); (2, 4)]
           [(0, 0); (1, 1); (3, 3)] [5; 4; 3] OPTIMIZED [] (3, 3) Hwf).
  right. cbn. tauto.
Defined.


Lemma sunk_ships_ignored_outside_optimized_witness :
  calculateProbabilityMap 10 10 [(2, 3); (2, 4)] [(0, 0)] [5; 4; 3]
                          SUPER_AGGRESSIVE []
  = calculateProbabilityMap 10 10 [(2, 3); (2, 4)] [(0, 0)] [5; 4; 3]
                            SUPER_AGGRESSIVE
                            [mkSunkShip 2 [(2, 3); (2, 4)]]
  /\ forall shipLength,
       generateValidPlacements 10 10 shipLength [(2, 3); (2, 4)] [(0, 0)] []
       = generateValidPlacements 10 10 shipLength [(2, 3); (2, 4)] [(0, 0)]
                                 [mkSunkShip 2 [(2, 3); (2, 4)]].
Proof.
  apply (sunk_ships_ignored_outside_optimized 10 10 [(2, 3); (2, 4)] [(0, 0)]
           [5; 4; 3] SUPER_AGGRESSIVE [] [mkSunkShip 2 [(2, 3); (2, 4)]]).
  - well_formed.
  - discriminate.
Defined.

(** C3.  For a well-formed input, when the returned map has a strictly
    positive cell: its strictly positive cells sum to 1 (exactly, in exact
    arithmetic, hence within any tolerance), every cell that was 0 in the map
    handed to the final normalization is 0 in the returned map, and every
    cell is at most 1. *)
Theorem positive_cells_sum_to_one (h w : Z) (hits misses : list Coordinate)
  (remainingShips : list Z) (mode : ProbabilityMode) (sunkShips : list SunkShip) :
  let result :=
    calculateProbabilityMap h w hits misses remainingShips mode sunkShips in
  wellFormed h w hits misses ->
  (exists rc, inBoard h w rc /\ (0 < prob result rc)%Q) ->
  (fst (positiveMass result h w) == 1)%Q /\
  (Qabs (fst (positiveMass result h w) - 1) <= 1 # 1000000000)%Q /\
  (exists pre,
      heuristicMap h w hits misses remainingShips mode sunkShips = Some pre /\
      result = normalizeMap pre h w /\
      forall rc, (prob pre rc == 0)%Q -> (prob result rc == 0)%Q) /\
  (forall rc, (prob result rc <= 1)%Q).
Proof.
  cbn zeta. intros _ [rc0 [Hin Hpos]]. revert Hpos.
  unfold calculateProbabilityMap.
  destruct (heuristicMap h w hits misses remainingShips mode sunkShips)
    as [pre|] eqn:Hpre.
  - intros Hpos. apply positive_after_normalizeMap in Hpos.
    pose proof (hasDims_heuristicMap _ _ _ _ _ _ _ _ Hpre) as Hdims.
    destruct (positiveMass_positive pre h w rc0 Hin Hpos) as [Hmass Hcount].
    pose proof (normalized_mass h w pre Hdims Hmass Hcount) as Hone.
    split; [exact Hone|]. split; [|split].
    + rewrite Hone. discriminate.
    + exists pre. split; [reflexivity|]. split; [reflexivity|].
      intros rc. apply Pass_normalizeMap.
    + intros rc. now apply normalized_le_1.
  - rewrite prob_mkGrid_zero. intros H. now apply Qlt_irrefl in H.
Qed.

Lemma positive_cells_sum_to_one_witness :
  let result :=
    calculateProbabilityMap 4 4 [(1, 1)] [(0, 0)] [3; 2] SUPER_AGGRESSIVE [] in
  (fst (positiveMass result 4 4) == 1)%Q /\
  (Qabs (fst (positiveMass result 4 4) - 1) <= 1 # 1000000000)%Q /\
  (exists pre,
      heuristicMap 4 4 [(1, 1)] [(0, 0)] [3; 2] SUPER_AGGRESSIVE [] = Some pre /\
      result = normalizeMap pre 4 4 /\
      forall rc, (prob pre rc == 0)%Q -> (prob result rc == 0)%Q) /\
  (forall rc, (prob result rc <= 1)%Q).
Proof.
  apply (positive_cells_sum_to_one 4 4 [(1, 1)] [(0, 0)] [3; 2]
           SUPER_AGGRESSIVE []).
  - well_formed.
  - exists (2, 2). split; [unfold inBoard; cbn; lia|].
    vm_compute. reflexivity.
Defined.

(** ** Contradictory states *)

Lemma tallyPlacements_none (h w : Z) (hits misses : list Coordinate)
  (remainingShips : list Z) (sunkShips : list SunkShip) :
  (forall shipLength, In shipLength remainingShips ->
     generateValidPlacements h w shipLength hits misses sunkShips = []) ->
  tallyPlacements h w hits misses remainingShips sunkShips
  = (mkGrid h w 0, 0).
Proof.
  unfold tallyPlacements. generalize (mkGrid h w 0) as cnt.
  induction remainingShips as [|s ships IH]; intros cnt Hnone; [reflexivity|].
  cbn [fold_left]. rewrite (Hnone s) by now left.
  cbn [fold_left length Z.of_nat]. rewrite Z.add_0_r.
  apply IH. intros s' Hs'. apply Hnone. now right.
Qed.

(** C1, as the code has it.  When no placement of any remaining ship length
    survives the miss filter and the contiguity filter, the engine returns
    the zero-filled map, in every mode. *)
Theorem no_surviving_placement_zero_map (h w : Z) (hits misses : list Coordinate)
  (remainingShips : list Z) (mode : ProbabilityMode) (sunkShips : list SunkShip) :
  wellFormed h w hits misses ->
  (forall shipLength, In shipLength remainingShips ->
     generateValidPlacements h w shipLength hits misses sunkShips = []) ->
  calculateProbabilityMap h w hits misses remainingShips mode sunkShips
  = mkGrid h w 0%Q
  /\ forall rc,
       prob (calculateProbabilityMap h w hits misses remainingShips mode
                                     sunkShips) rc = 0%Q.
Proof.
  intros _ Hnone.
  assert (E : calculateProbabilityMap h w hits misses remainingShips mode
                                      sunkShips = mkGrid h w 0%Q).
  { unfold calculateProbabilityMap, heuristicMap.
    destruct remainingShips as [|s ships]; [reflexivity|].
    now rewrite (tallyPlacements_none _ _ _ _ _ _ Hnone). }
  split; [exact E|]. intros rc. rewrite E. apply prob_mkGrid_zero.
Qed.

Lemma no_surviving_placement_zero_map_witness :
  wellFormed 2 2 [(0, 0)] [(0, 1); (1, 0)] /\
  forall mode,
    calculateProbabilityMap 2 2 [(0, 0)] [(0, 1); (1, 0)] [2] mode []
    = mkGrid 2 2 0%Q
    /\ forall rc,
         prob (calculateProbabilityMap 2 2 [(0, 0)] [(0, 1); (1, 0)] [2] mode [])
              rc = 0%Q.
Proof.
  assert (Hwf : wellFormed 2 2 [(0, 0)] [(0, 1); (1, 0)]) by well_formed.
  split; [exact Hwf|]. intros mode.
  apply (no_surviving_placement_zero_map 2 2 [(0, 0)] [(0, 1); (1, 0)] [2]
           mode [] Hwf).
  intros shipLength [<-|[]]. vm_compute. reflexivity.
Defined.

(** C1, as stated, fails.  On the 10 x 10 board with a hit at (0,0), misses
    at (0,1) and (1,0) and one ship of length 2, no surviving placement
    covers the hit, and yet cell (5,5) is positive in every mode. *)
Lemma unexplained_hit_keeps_positive_cells :
  let hits : list Coordinate := [(0, 0)] in
  let misses : list Coordinate := [(0, 1); (1, 0)] in
  let cell : Coordinate := (5, 5) in
  wellFormed 10 10 hits misses /\
  forallb (fun placement => negb (isCoordinateInList (0, 0) placement))
          (generateValidPlacements 10 10 2 hits misses []) = true /\
  forall mode,
    let result := calculateProbabilityMap 10 10 hits misses [2] mode [] in
    (0 < prob result cell)%Q.
Proof.
  cbv zeta. split; [well_formed|]. split; [vm_compute; reflexivity|].
  intros mode. destruct mode; vm_compute; reflexivity.
Qed.

(** ** The enumerator on an empty board *)

Lemma flat_map_ext_in {A B : Type} (f g : A -> list B) (l : list A) :
  (forall a, In a l -> f a = g a) -> flat_map f l = flat_map g l.
Proof.
  induction l as [|a l IH]; intros H; cbn; [reflexivity|].
  rewrite (H a) by now left. f_equal. apply IH. intros b Hb. apply H. now right.
Qed.

Lemma flat_map_guard {A B : Type} (p : A -> bool) (f : A -> list B)
  (l : list A) :
  flat_map (fun a => if p a then f a else []) l = flat_map f (filter p l).
Proof.
  induction l as [|a l IH]; cbn; [reflexivity|].
  destruct (p a); cbn; now rewrite IH.
Qed.

Lemma flat_map_singleton {A B : Type} (f : A -> B) (l : list A) :
  flat_map (fun a => [f a]) l = map f l.
Proof. induction l as [|a l IH]; cbn; [reflexivity|now rewrite IH]. Qed.

Lemma flat_map_nested {A B C : Type} (f : B -> list C) (g : A -> list B)
  (l : list A) :
  flat_map f (flat_map g l) = flat_map (fun a => flat_map f (g a)) l.
Proof.
  induction l as [|a l IH]; cbn; [reflexivity|].
  now rewrite flat_map_app, IH.
Qed.

Lemma flat_map_of_map {A B C : Type} (f : B -> list C) (g : A -> B)
  (l : list A) :
  flat_map f (map g l) = flat_map (fun a => f (g a)) l.
Proof. induction l as [|a l IH]; cbn; [reflexivity|now rewrite IH]. Qed.

Lemma filter_below_range (k lo hi : Z) :
  filter (fun x => x <? k) (range lo hi) = range lo (Z.min k hi).
Proof.
  remember (Z.to_nat (hi - lo)) as n eqn:Hn. revert lo Hn.
  induction n as [|n IH]; intros lo Hn.
  - rewrite (range_nil lo hi) by lia. rewrite range_nil by lia. reflexivity.
  - rewrite (range_cons lo hi) by lia. cbn [filter].
    rewrite IH by lia.
    destruct (lo <? k) eqn:E.
    + apply Z.ltb_lt in E. rewrite (range_cons lo (Z.min k hi)) by lia.
      reflexivity.
    + apply Z.ltb_ge in E. rewrite range_nil by lia.
      rewrite range_nil by lia. reflexivity.
Qed.

Lemma candidate_free (placement : list Coordinate) :
  candidate (fun coord => isCoordinateInList coord []) [] placement
  = [placement].
Proof.
  unfold candidate.
  replace (forallb _ placement) with true; [reflexivity|].
  symmetry. apply forallb_forall. reflexivity.
Qed.

Lemma generateValidPlacements_free (h w len : Z) (sunkShips : list SunkShip) :
  generateValidPlacements h w len [] [] sunkShips
  = flat_map (fun row =>
                map (fun col => placementAt horizontal (row, col) len)
                    (range 0 (w - len + 1)))
             (range 0 h)
    ++ flat_map (fun row =>
                   map (fun col => placementAt vertical (row, col) len)
                       (range 0 w))
                (range 0 (h - len + 1)).
Proof.
  unfold generateValidPlacements. f_equal.
  - apply flat_map_ext. intros row.
    rewrite <- flat_map_singleton. apply flat_map_ext. intros col.
    apply candidate_free.
  - apply flat_map_ext. intros row.
    rewrite <- flat_map_singleton. apply flat_map_ext. intros col.
    apply candidate_free.
Qed.

Lemma in_placementAt (dir : Direction) (start : Coordinate) (len : Z)
  (rc : Coordinate) :
  In rc (placementAt dir start len) <->
  match dir with
  | horizontal =>
    fst rc = fst start /\ snd start <= snd rc < snd start + len
  | vertical =>
    snd rc = snd start /\ fst start <= fst rc < fst start + len
  end.
Proof.
  unfold placementAt. rewrite in_map_iff. split.
  - intros [i [<- Hi]]. apply in_range in Hi. destruct dir; cbn; lia.
  - destruct rc as [r c], start as [r0 c0]. destruct dir; cbn; intros [-> H].
    + exists (c - c0). split; [f_equal; lia|apply in_range; lia].
    + exists (r - r0). split; [f_equal; lia|apply in_range; lia].
Qed.

Lemma NoDup_placementAt (dir : Direction) (start : Coordinate) (len : Z) :
  NoDup (placementAt dir start len).
Proof.
  unfold placementAt. apply Injective_map_NoDup; [|apply NoDup_range].
  intros i j E. destruct dir; inversion E; lia.
Qed.

(** A placement starting on the board is in bounds when its last cell is. *)
Lemma fits_horizontal (h w len row col : Z) :
  0 < len -> 0 <= row < h -> 0 <= col < w ->
  forallb (onBoard h w) (placementAt horizontal (row, col) len)
  = (col <? w - len + 1).
Proof.
  intros Hlen Hrow Hcol. apply eq_true_iff_eq.
  rewrite forallb_forall, Z.ltb_lt. split.
  - intros H. specialize (H (row, col + (len - 1))).
    unfold onBoard, isValidCell in H. cbn in H.
    assert (Hin : In (row, col + (len - 1)) (placementAt horizontal (row, col) len))
      by (apply in_placementAt; cbn; lia).
    apply H in Hin.
    rewrite !andb_true_iff, !Z.leb_le, !Z.ltb_lt in Hin. lia.
  - intros H rc Hin. apply in_placementAt in Hin. cbn in Hin.
    unfold onBoard, isValidCell.
    repeat (apply andb_true_iff; split);
      try apply Z.leb_le; try apply Z.ltb_lt; lia.
Qed.

Lemma fits_vertical (h w len row col : Z) :
  0 < len -> 0 <= row < h -> 0 <= col < w ->
  forallb (onBoard h w) (placementAt vertical (row, col) len)
  = (row <? h - len + 1).
Proof.
  intros Hlen Hrow Hcol. apply eq_true_iff_eq.
  rewrite forallb_forall, Z.ltb_lt. split.
  - intros H. specialize (H (row + (len - 1), col)).
    unfold onBoard, isValidCell in H. cbn in H.
    assert (Hin : In (row + (len - 1), col) (placementAt vertical (row, col) len))
      by (apply in_placementAt; cbn; lia).
    apply H in Hin.
    rewrite !andb_true_iff, !Z.leb_le, !Z.ltb_lt in Hin. lia.
  - intros H rc Hin. apply in_placementAt in Hin. cbn in Hin.
    unfold onBoard, isValidCell.
    repeat (apply andb_true_iff; split);
      try apply Z.leb_le; try apply Z.ltb_lt; lia.
Qed.

(** The loops of the enumerator list exactly the in-bounds placements. *)
Lemma enumerator_lists_all_placements (h w len : Z) (sunkShips : list SunkShip) :
  0 < len ->
  generateValidPlacements h w len [] [] sunkShips
  = axisAlignedPlacements h w len.
Proof.
  intros Hlen. rewrite generateValidPlacements_free.
  unfold axisAlignedPlacements. cbn [flat_map]. rewrite app_nil_r.
  unfold boardCells. rewrite !flat_map_nested. f_equal.
  - apply flat_map_ext_in. intros row Hrow. apply in_range in Hrow.
    rewrite flat_map_of_map.
    rewrite (flat_map_ext_in _
               (fun col => if col <? w - len + 1
                           then [placementAt horizontal (row, col) len]
                           else [])).
    + rewrite flat_map_guard, flat_map_singleton, filter_below_range.
      now rewrite Z.min_l by lia.
    + intros col Hcol. apply in_range in Hcol. cbv zeta.
      now rewrite fits_horizontal by lia.
  - symmetry.
    transitivity
      (flat_map
         (fun row => if row <? h - len + 1
                     then map (fun col => placementAt vertical (row, col) len)
                              (range 0 w)
                     else [])
         (range 0 h)).
    + apply flat_map_ext_in. intros row Hrow. apply in_range in Hrow.
      rewrite flat_map_of_map.
      destruct (row <? h - len + 1) eqn:E.
      * rewrite <- flat_map_singleton. apply flat_map_ext_in.
        intros col Hcol. apply in_range in Hcol. cbv zeta.
        now rewrite fits_vertical, E by lia.
      * rewrite (flat_map_ext_in _ (fun _ => [])).
        -- clear. induction (range 0 w); cbn; auto.
        -- intros col Hcol. apply in_range in Hcol. cbv zeta.
           now rewrite fits_vertical, E by lia.
    + rewrite flat_map_guard, filter_below_range.
      now rewrite Z.min_l by lia.
Qed.

(** ** The aggregator's counters *)

Lemma inGrid_countPlacement (cnt : list (list Z)) (placement : list Coordinate)
  (r c : Z) :
  inGrid (countPlacement cnt placement) r c = inGrid cnt r c.
Proof.
  unfold countPlacement. revert cnt.
  induction placement as [|x placement IH]; intros cnt; cbn [fold_left];
    [reflexivity|].
  rewrite IH. apply inGrid_updCell.
Qed.

Lemma getCell_countPlacement (cnt : list (list Z)) (placement : list Coordinate)
  (r c : Z) :
  inGrid cnt r c = true ->
  getCell 0 (countPlacement cnt placement) r c
  = getCell 0 cnt r c + Z.of_nat (count_occ coord_eq_dec placement (r, c)).
Proof.
  unfold countPlacement. revert cnt.
  induction placement as [|x placement IH]; intros cnt Hin;
    cbn [fold_left count_occ]; [cbn; lia|].
  rewrite IH by now rewrite inGrid_updCell.
  destruct (coord_eq_dec x (r, c)) as [->|Hne].
  - cbn [fst snd]. rewrite getCell_updCell_same by assumption. lia.
  - rewrite getCell_updCell_other by now destruct x. reflexivity.
Qed.

Lemma count_occ_NoDup (placement : list Coordinate) (rc : Coordinate) :
  NoDup placement ->
  count_occ coord_eq_dec placement rc
  = if isCoordinateInList rc placement then 1%nat else 0%nat.
Proof.
  intros Hnd.
  pose proof (proj1 (NoDup_count_occ coord_eq_dec placement) Hnd rc) as Hle.
  destruct (isCoordinateInList rc placement) eqn:E.
  - apply isCoordinateInList_In in E.
    apply (count_occ_In coord_eq_dec) in E. lia.
  - assert (Hn : ~ In rc placement).
    { intros H. apply isCoordinateInList_In in H. congruence. }
    now apply (count_occ_not_In coord_eq_dec) in Hn.
Qed.

Lemma getCell_tally (cnt : list (list Z)) (placements : list (list Coordinate))
  (r c : Z) :
  inGrid cnt r c = true ->
  (forall placement, In placement placements -> NoDup placement) ->
  getCell 0 (fold_left countPlacement placements cnt) r c
  = getCell 0 cnt r c
    + Z.of_nat (length (filter (fun placement =>
                                  isCoordinateInList (r, c) placement)
                               placements)).
Proof.
  revert cnt. induction placements as [|p placements IH]; intros cnt Hin Hnd;
    cbn [fold_left filter]; [cbn; lia|].
  rewrite IH.
  - rewrite getCell_countPlacement by assumption.
    rewrite count_occ_NoDup by (apply Hnd; now left).
    destruct (isCoordinateInList (r, c) p); cbn [length]; lia.
  - now rewrite inGrid_countPlacement.
  - intros q Hq. apply Hnd. now right.
Qed.

Lemma NoDup_axisAlignedPlacements (h w len : Z) (placement : list Coordinate) :
  In placement (axisAlignedPlacements h w len) -> NoDup placement.
Proof.
  unfold axisAlignedPlacements. intros H.
  apply in_flat_map in H. destruct H as [dir [_ H]].
  apply in_flat_map in H. destruct H as [start [_ H]]. cbv zeta in H.
  destruct (forallb _ _); [|contradiction].
  destruct H as [<-|[]]. apply NoDup_placementAt.
Qed.

(** Some placement exists as soon as the ship fits one way. *)
Lemma placementsInTotal_positive (h w len : Z) :
  0 < h -> 0 < w -> 0 < len -> len <= h \/ len <= w ->
  0 < placementsInTotal h w len.
Proof.
  intros Hh Hw Hlen Hfit. unfold placementsInTotal.
  rewrite <- (enumerator_lists_all_placements h w len []) by assumption.
  rewrite generateValidPlacements_free, length_app.
  destruct Hfit as [Hfit|Hfit].
  - assert (0 < length
                  (flat_map (fun row =>
                               map (fun col => placementAt vertical (row, col) len)
                                   (range 0 w))
                            (range 0 (h - len + 1))))%nat; [|lia].
    rewrite (range_cons 0 (h - len + 1)) by lia. cbn [flat_map].
    rewrite (range_cons 0 w) by lia. cbn [map app length]. lia.
  - assert (0 < length
                  (flat_map (fun row =>
                               map (fun col => placementAt horizontal (row, col) len)
                                   (range 0 (w - len + 1)))
                            (range 0 h)))%nat; [|lia].
    rewrite (range_cons 0 h) by lia. cbn [flat_map].
    rewrite (range_cons 0 (w - len + 1)) by lia. cbn [map app length]. lia.
Qed.

(** C7.  On a board with no hit and no miss and one remaining ship of length
    L that fits the board in at least one orientation, the map before the
    heuristic passes - which in NORMAL mode is also the map handed to the
    final normalization - holds at every cell the number of in-bounds
    axis-aligned placements of length L covering that cell divided by the
    number of all such placements. *)
Theorem base_probability_counts_placements (h w len : Z)
  (sunkShips : list SunkShip) (rc : Coordinate) :
  0 < h -> 0 < w -> 0 < len -> len <= h \/ len <= w -> inBoard h w rc ->
  let (cellPlacementCount, totalPlacements) :=
    tallyPlacements h w [] [] [len] sunkShips in
  let base :=
    baseProbabilities h w [] [] cellPlacementCount totalPlacements in
  heuristicMap h w [] [] [len] NORMAL sunkShips = Some base /\
  prob base rc
  = (inject_Z (placementsCovering h w len rc)
     / inject_Z (placementsInTotal h w len))%Q.
Proof.
  intros Hh Hw Hlen Hfit Hrc.
  pose proof (placementsInTotal_positive h w len Hh Hw Hlen Hfit) as Htotal.
  unfold heuristicMap, tallyPlacements. cbn [fold_left].
  rewrite enumerator_lists_all_placements by assumption.
  fold (placementsInTotal h w len). rewrite Z.add_0_l.
  replace (placementsInTotal h w len =? 0) with false
    by (symmetry; apply Z.eqb_neq; lia).
  split; [reflexivity|].
  rewrite prob_baseProbabilities by assumption. cbn [isCoordinateInList existsb orb].
  destruct Hrc as [Hr Hc].
  rewrite getCell_tally.
  - rewrite getCell_mkGrid by assumption. rewrite Z.add_0_l.
    destruct rc as [r c]. reflexivity.
  - apply (inGrid_hasDims h w); auto. apply hasDims_mkGrid.
  - apply NoDup_axisAlignedPlacements.
Qed.

Lemma base_probability_counts_placements_witness :
  let (cellPlacementCount, totalPlacements) :=
    tallyPlacements 10 10 [] [] [3] [] in
  let base := baseProbabilities 10 10 [] [] cellPlacementCount totalPlacements in
  let corner : Coordinate := (0, 0) in
  heuristicMap 10 10 [] [] [3] NORMAL [] = Some base /\
  prob base corner
  = (inject_Z (placementsCovering 10 10 3 corner)
     / inject_Z (placementsInTotal 10 10 3))%Q.
Proof.
  apply (base_probability_counts_placements 10 10 3 [] (0, 0));
    try lia; unfold inBoard; cbn; lia.
Defined.

(** ** The mode dispatch on concrete boards *)

(** C4.  On the 10 x 10 board with hits at (2,3) and (2,4), no miss and
    ships 5, 4 and 3, TARGETING mode finds the one aligned group, whose
    extension points are (2,2) and (2,5), but takes the branch of the
    adjacent cells: the two extension points come out multiplied by 3, the
    adjacency factor, and not by 4, the alignment factor. *)
Lemma targeting_single_group_gets_adjacency_factor :
  let hits : list Coordinate := [(2, 3); (2, 4)] in
  let (cellPlacementCount, totalPlacements) :=
    tallyPlacements 10 10 hits [] [5; 4; 3] [] in
  let base :=
    baseProbabilities 10 10 hits [] cellPlacementCount totalPlacements in
  let boosted := applyTargetingStrategy base 10 10 hits [] in
  findAlignedHits hits = [mkGroup horizontal hits] /\
  getExtensionPoints hits horizontal 10 10 [] = [(2, 2); (2, 5)] /\
  heuristicMap 10 10 hits [] [5; 4; 3] TARGETING [] = Some boosted /\
  Forall (fun extension =>
            (0 < prob base extension)%Q /\
            (prob boosted extension == ADJACENCY_FACTOR * prob base extension)%Q /\
            ~ (prob boosted extension == ALIGNMENT_FACTOR * prob base extension)%Q)
         [(2, 2); (2, 5)].
Proof.
  vm_compute. repeat split; try reflexivity.
  repeat constructor; try reflexivity; try discriminate.
Qed.

(** C9.  On the 10 x 10 board with a sunk ship at (0,0)-(0,1), two further
    hits at (5,5) and (5,6) and a ship of length 3 remaining, the active hits
    form one aligned group, the whole hit list forms two, and OPTIMIZED mode
    returns the map as it stands before the entropy blend: the blend is
    skipped, although blending on the active hits would change cell (5,4). *)
Lemma entropy_skip_counts_sunk_hits :
  let hits : list Coordinate := [(0, 0); (0, 1); (5, 5); (5, 6)] in
  let sunkShips := [mkSunkShip 2 [(0, 0); (0, 1)]] in
  let activeHits := getActiveHits hits sunkShips in
  let (cellPlacementCount, totalPlacements) :=
    tallyPlacements 10 10 hits [] [3] sunkShips in
  let base :=
    baseProbabilities 10 10 hits [] cellPlacementCount totalPlacements in
  let beforeBlend := optimizedBeforeEntropy base 10 10 activeHits [] in
  let blended := applyInformationEntropy beforeBlend 10 10 activeHits [] [3] in
  let cell : Coordinate := (5, 4) in
  activeHits = [(5, 5); (5, 6)] /\
  length (findAlignedHits activeHits) = 1%nat /\
  length (findAlignedHits hits) = 2%nat /\
  heuristicMap 10 10 hits [] [3] OPTIMIZED sunkShips = Some beforeBlend /\
  ~ (prob blended cell == prob beforeBlend cell)%Q.
Proof.
  vm_compute. repeat split; try reflexivity. discriminate.
Qed.

(** ** Non-negative maps *)

Lemma getCell_updCell_cases {A : Type} (d : A) (f : A -> A)
  (g : list (list A)) (r c r' c' : Z) :
  getCell d (updCell f g r c) r' c' = getCell d g r' c' \/
  getCell d (updCell f g r c) r' c' = f (getCell d g r' c').
Proof.
  destruct (coord_eq_dec (r, c) (r', c')) as [E|E].
  - inversion E; subst. destruct (inGrid g r' c') eqn:Hin.
    + right. now apply getCell_updCell_same.
    + left. now rewrite updCell_outside.
  - left. now apply getCell_updCell_other.
Qed.

Lemma fold_invariant {S X : Type} (P : S -> Prop) (step : S -> X -> S)
  (l : list X) (s : S) :
  (forall s x, P s -> P (step s x)) -> P s -> P (fold_left step l s).
Proof.
  intros Hstep. revert s. induction l as [|x l IH]; intros s Hs; cbn; auto.
Qed.

Lemma tally_nonneg (h w : Z) (hits misses : list Coordinate)
  (remainingShips : list Z) (sunkShips : list SunkShip) :
  let (cnt, total) :=
    tallyPlacements h w hits misses remainingShips sunkShips in
  (forall r c, 0 <= getCell 0 cnt r c) /\ 0 <= total.
Proof.
  unfold tallyPlacements.
  apply (fold_invariant
           (fun st : list (list Z) * Z =>
              let (cnt, total) := st in
              (forall r c, 0 <= getCell 0 cnt r c) /\ 0 <= total)).
  - intros [cnt total] len [Hcnt Htotal]. split; [|lia].
    apply (fold_invariant (fun g => forall r c, 0 <= getCell 0 g r c));
      [|exact Hcnt].
    intros g placement Hg. unfold countPlacement.
    apply (fold_invariant (fun g => forall r c, 0 <= getCell 0 g r c));
      [|exact Hg].
    intros g' x Hg' r c.
    destruct (getCell_updCell_cases 0 Z.succ g' (fst x) (snd x) r c) as [E|E];
      rewrite E; specialize (Hg' r c); lia.
  - split; [|lia]. intros r c.
    destruct (inGrid (mkGrid h w 0) r c) eqn:E.
    + destruct (inGrid_bounds h w _ _ _ (hasDims_mkGrid h w 0) E).
      rewrite getCell_mkGrid by assumption. lia.
    + rewrite getCell_outside by assumption. lia.
Qed.

Lemma Qdiv_nonneg (a b : Z) :
  0 <= a -> 0 <= b -> (0 <= inject_Z a / inject_Z b)%Q.
Proof.
  intros Ha Hb. destruct (Z.eq_dec b 0) as [->|Hne].
  - unfold Qdiv. change (/ inject_Z 0)%Q with 0%Q.
    rewrite Qmult_0_r. apply Qle_refl.
  - apply Qle_shift_div_l.
    + change 0%Q with (inject_Z 0). rewrite <- Zlt_Qlt. lia.
    + rewrite Qmult_0_l. change 0%Q with (inject_Z 0). rewrite <- Zle_Qle. lia.
Qed.

Lemma nonNegative_baseProbabilities (h w : Z) (hits misses : list Coordinate)
  (cnt : list (list Z)) (total : Z) :
  (forall r c, 0 <= getCell 0 cnt r c) -> 0 <= total ->
  nonNegative (baseProbabilities h w hits misses cnt total).
Proof.
  intros Hcnt Htotal rc.
  destruct (inBoard_dec h w rc) as [Hin|Hout].
  - rewrite prob_baseProbabilities by assumption.
    destruct (_ || _); [apply Qle_refl|]. now apply Qdiv_nonneg.
  - rewrite prob_baseProbabilities_outside by assumption. apply Qle_refl.
Qed.

Lemma nonNegative_setProb (f : Q -> Q) (m : ProbabilityMap) (rc : Coordinate) :
  (forall x, (0 <= x)%Q -> (0 <= f x)%Q) ->
  nonNegative m -> nonNegative (setProb f m rc).
Proof.
  intros Hf Hm rc'. rewrite prob_setProb.
  destruct (coord_eq_dec rc rc'); [|apply Hm].
  destruct (inGrid m (fst rc) (snd rc)); [apply Hf|]; apply Hm.
Qed.

Lemma informationGain_nonneg (h w : Z) (misses : list Coordinate)
  (remainingShips : list Z) (rc : Coordinate) :
  0 <= informationGain h w misses remainingShips rc.
Proof.
  unfold informationGain. apply (fold_invariant (fun gain => 0 <= gain)).
  - intros gain len Hgain. unfold placementsThrough. lia.
  - lia.
Qed.

Lemma nonNegative_mkGrid (h w : Z) : nonNegative (mkGrid h w 0%Q).
Proof. intros rc. rewrite prob_mkGrid_zero. apply Qle_refl. Qed.

Lemma nonNegative_entropyScores (m : ProbabilityMap) (h w : Z)
  (misses : list Coordinate) (remainingShips : list Z) :
  nonNegative (entropyScores m h w misses remainingShips).
Proof.
  unfold entropyScores. cbv zeta.
  match goal with
  | |- context [fold_left ?step (boardCells h w) (mkGrid h w 0%Q)] =>
    set (counted := fold_left step (boardCells h w) (mkGrid h w 0%Q))
  end.
  assert (Hcounted : nonNegative counted).
  { apply (fold_invariant nonNegative); [|apply nonNegative_mkGrid].
    intros e rc He. destruct (Qeq_bool (prob m rc) 0); [exact He|].
    apply nonNegative_setProb; [|exact He].
    intros _ _. change 0%Q with (inject_Z 0). rewrite <- Zle_Qle.
    apply informationGain_nonneg. }
  destruct (Qpos (maxOfGrid counted)) eqn:E; [|exact Hcounted].
  apply Qpos_true in E.
  apply (fold_invariant nonNegative); [|exact Hcounted].
  intros e rc He. apply nonNegative_setProb; [|exact He].
  intros x Hx. apply Qle_shift_div_l; [exact E|]. now rewrite Qmult_0_l.
Qed.

(** ** Loops that may visit a cell several times *)

Lemma prob_guardedFold (guard : Coordinate -> bool) (f : Q -> Q)
  (targets : list Coordinate) (m : ProbabilityMap) (rc : Coordinate) :
  inGrid m (fst rc) (snd rc) = true ->
  prob (fold_left (fun m x => if guard x then setProb f m x else m) targets m) rc
  = if guard rc
    then Nat.iter (count_occ coord_eq_dec targets rc) f (prob m rc)
    else prob m rc.
Proof.
  revert m. induction targets as [|x targets IH]; intros m Hin.
  - cbn. now destruct (guard rc).
  - cbn [fold_left count_occ]. rewrite IH.
    + destruct (coord_eq_dec x rc) as [->|Hne].
      * destruct (guard rc); [|reflexivity].
        rewrite prob_setProb_same by assumption. now rewrite Nat.iter_succ_r.
      * destruct (guard x); [|reflexivity].
        now rewrite prob_setProb_other.
    + destruct (guard x); [|assumption]. now rewrite inGrid_setProb.
Qed.



Lemma boost_positive (k x : Q) :
  (0 < k)%Q -> (0 < x)%Q -> boost k x = (x * k)%Q /\ (0 < x * k)%Q.
Proof.
  intros Hk Hx. unfold boost.
  replace (Qpos x) with true by (symmetry; now apply Qpos_true).
  split; [reflexivity|].
  rewrite <- (Qmult_0_l k). now apply Qmult_lt_compat_r.
Qed.

Lemma boost_nonneg (k x : Q) : (0 <= x)%Q -> (boost k x == x * k)%Q.
Proof.
  intros Hx. unfold boost. destruct (Qpos x) eqn:E; [reflexivity|].
  apply Qpos_false in E.
  assert (Hz : (x == 0)%Q) by now apply Qle_antisym.
  rewrite Hz. now rewrite Qmult_0_l.
Qed.

(** ** Two adjacent hits in one row, no miss, no sunk ship *)




Section AdjacentPair.
Variables (h w r c : Z) (hits : list Coordinate).
Hypothesis Hhits :
  hits = [(r, c); (r, c + 1)] \/ hits = [(r, c + 1); (r, c)].








Hypothesis Hleft : inBoard h w (r, c).
Hypothesis Hright : inBoard h w (r, c + 1).






Variable m : ProbabilityMap.
Hypothesis Hdims : hasDims h w m.


End AdjacentPair.

(** ** The blend and the final order *)




Lemma zero_total_zero_base (h w : Z) (hits misses : list Coordinate)
  (cnt : list (list Z)) (rc : Coordinate) :
  (prob (baseProbabilities h w hits misses cnt 0) rc == 0)%Q.
Proof.
  destruct (inBoard_dec h w rc) as [Hin|Hout].
  - rewrite prob_baseProbabilities by assumption.
    destruct (_ || _); [reflexivity|].
    unfold Qdiv. change (/ inject_Z 0)%Q with 0%Q. apply Qmult_0_r.
  - rewrite prob_baseProbabilities_outside by assumption. reflexivity.
Qed.






(** ** Every coordinate the engine produces is on the board

    For hits inside the board, the placements, the adjacent cells, the
    aligned groups and their extension points all lie inside the board, so
    the reads and writes of the passes never leave the map. *)

Lemma fold_invariant_in {S X : Type} (P : S -> Prop) (step : S -> X -> S)
  (l : list X) (s : S) :
  (forall s x, In x l -> P s -> P (step s x)) -> P s -> P (fold_left step l s).
Proof.
  revert s. induction l as [|x l IH]; intros s Hstep Hs; cbn; auto.
  apply IH.
  - intros s' x' Hx'. apply Hstep. now right.
  - apply Hstep; [now left|assumption].
Qed.

Lemma generateValidPlacements_onBoard (h w len : Z)
  (hits misses : list Coordinate) (sunkShips : list SunkShip)
  (placement : list Coordinate) (rc : Coordinate) :
  In placement (generateValidPlacements h w len hits misses sunkShips) ->
  In rc placement -> inBoard h w rc.
Proof.
  unfold generateValidPlacements. intros Hp Hrc.
  apply in_app_or in Hp. destruct Hp as [Hp|Hp];
    apply in_flat_map in Hp; destruct Hp as [row [Hrow Hp]];
    apply in_flat_map in Hp; destruct Hp as [col [Hcol Hp]];
    unfold candidate in Hp;
    destruct (_ && _); try contradiction;
    destruct Hp as [<-|[]];
    apply in_map_iff in Hrc; destruct Hrc as [i [<- Hi]];
    apply in_range in Hrow, Hcol, Hi; unfold inBoard; cbn; lia.
Qed.

Lemma getAdjacentCells_onBoard (h w : Z) (hits misses : list Coordinate) :
  Forall (inBoard h w) (getAdjacentCells h w hits misses).
Proof.
  unfold getAdjacentCells.
  apply (fold_invariant (Forall (inBoard h w))); [|constructor].
  intros adj hit Hadj.
  apply (fold_invariant (Forall (inBoard h w))); [|exact Hadj].
  intros adj' d Hadj'. cbv zeta.
  match goal with
  | |- Forall _ (if ?b then _ else _) => destruct b eqn:E; [|exact Hadj']
  end.
  match goal with
  | |- Forall _ (if ?b then _ else _) => destruct b; [|exact Hadj']
  end.
  apply Forall_app. split; [exact Hadj'|]. constructor; [|constructor].
  rewrite !andb_true_iff, !Z.geb_le, !Z.ltb_lt in E. unfold inBoard. cbn. lia.
Qed.

Lemma insertBy_In {A : Type} (key : A -> Z) (x y : A) (l : list A) :
  In y (insertBy key x l) <-> y = x \/ In y l.
Proof.
  induction l as [|z l IH]; cbn.
  - intuition.
  - destruct (key x <=? key z); cbn; [intuition|]. rewrite IH. intuition.
Qed.

Lemma sortBy_In {A : Type} (key : A -> Z) (y : A) (l : list A) :
  In y (sortBy key l) <-> In y l.
Proof.
  induction l as [|x l IH]; cbn; [tauto|].
  rewrite insertBy_In, IH. intuition.
Qed.

Lemma slice_In {A : Type} (start stop : Z) (l : list A) (x : A) :
  In x (slice start stop l) -> In x l.
Proof.
  unfold slice. intros H.
  rewrite <- (firstn_skipn (Z.to_nat start) l). apply in_or_app. right.
  rewrite <- (firstn_skipn (Z.to_nat (stop - start))
                           (skipn (Z.to_nat start) l)).
  apply in_or_app. now left.
Qed.

Lemma mapPush_In (k : Z) (v : Coordinate) (m : list (Z * list Coordinate))
  (P : Coordinate -> Prop) :
  P v ->
  Forall (fun entry => Forall P (snd entry)) m ->
  Forall (fun entry => Forall P (snd entry)) (mapPush k v m).
Proof.
  intros Hv. induction m as [|[k' vs] m IH]; intros Hm; cbn.
  - repeat constructor. exact Hv.
  - inversion Hm as [|? ? Hvs Hm']; subst. destruct (k' =? k).
    + constructor; [|assumption]. cbn. apply Forall_app. split; auto.
    + constructor; auto.
Qed.

Lemma groupByKey_In (key : Coordinate -> Z) (hits : list Coordinate)
  (P : Coordinate -> Prop) :
  Forall P hits ->
  Forall (fun entry => Forall P (snd entry)) (groupByKey key hits).
Proof.
  intros Hhits. unfold groupByKey. rewrite Forall_forall in Hhits.
  apply (fold_invariant_in
           (Forall (fun entry : Z * list Coordinate => Forall P (snd entry))));
    [|constructor].
  intros m hit Hin Hm. apply mapPush_In; auto.
Qed.

(** A group keeps hits of its line, and at least one of them. *)
Lemma consecutiveRuns_groups (dir : Direction) (key : Coordinate -> Z)
  (lineHits : list Coordinate) (P : Coordinate -> Prop) :
  Forall P lineHits ->
  Forall (fun g => Forall P (coordinates g) /\ coordinates g <> [])
         (consecutiveRuns dir key lineHits).
Proof.
  intros Hline. unfold consecutiveRuns. cbv zeta.
  set (n := Z.of_nat (length lineHits)).
  assert (Hinv :
    let st :=
      fold_left
        (fun (st : Z * list AlignedGroup) i =>
           let (start, result) := st in
           if (i =? n)
              || (key (nth (Z.to_nat i) lineHits (0, 0))
                  >? key (nth (Z.to_nat (i - 1)) lineHits (0, 0)) + 1)
           then (i, if i - start >=? 2
                    then result ++ [mkGroup dir (slice start i lineHits)]
                    else result)
           else (start, result))
        (range 1 (n + 1)) (0, []) in
    0 <= fst st /\
    Forall (fun g => Forall P (coordinates g) /\ coordinates g <> []) (snd st)).
  { apply (fold_invariant_in
             (fun st : Z * list AlignedGroup =>
                0 <= fst st /\
                Forall (fun g => Forall P (coordinates g) /\ coordinates g <> [])
                       (snd st))).
    - intros [start result] i Hi [Hstart Hres]. apply in_range in Hi.
      cbn [fst snd] in *.
      destruct (_ || _); [|now split]. cbn [fst snd]. split; [lia|].
      destruct (i - start >=? 2) eqn:E; [|exact Hres].
      rewrite Z.geb_le in E.
      apply Forall_app. split; [exact Hres|]. constructor; [|constructor].
      cbn [coordinates]. split.
      + apply Forall_forall. intros x Hx. apply slice_In in Hx.
        rewrite Forall_forall in Hline. now apply Hline.
      + intros Hnil. apply (f_equal (@length Coordinate)) in Hnil.
        unfold slice in Hnil. rewrite length_firstn, length_skipn in Hnil.
        cbn [length] in Hnil. unfold n in Hi. lia.
    - cbn. split; [lia|constructor]. }
  exact (proj2 Hinv).
Qed.

Lemma findAlignedHits_groups (hits : list Coordinate) (P : Coordinate -> Prop) :
  Forall P hits ->
  Forall (fun g => Forall P (coordinates g) /\ coordinates g <> [])
         (findAlignedHits hits).
Proof.
  intros Hhits. unfold findAlignedHits, lineGroups.
  apply Forall_app. split; apply Forall_flat_map, Forall_forall;
    intros [k lineHits] Hentry; cbn [snd];
    (destruct (_ <? 2); [constructor|]);
    apply consecutiveRuns_groups, Forall_forall; intros x Hx;
    apply sortBy_In in Hx.
  - pose proof (groupByKey_In fst hits P Hhits) as Hg.
    rewrite Forall_forall in Hg. specialize (Hg _ Hentry). cbn in Hg.
    rewrite Forall_forall in Hg. now apply Hg.
  - pose proof (groupByKey_In snd hits P Hhits) as Hg.
    rewrite Forall_forall in Hg. specialize (Hg _ Hentry). cbn in Hg.
    rewrite Forall_forall in Hg. now apply Hg.
Qed.

Lemma last_In {A : Type} (l : list A) (d : A) : l <> [] -> In (last l d) l.
Proof.
  induction l as [|x l IH]; intros H; [contradiction|].
  destruct l as [|y l]; [now left|].
  right. apply IH. discriminate.
Qed.

Lemma getExtensionPoints_onBoard (coords : list Coordinate) (dir : Direction)
  (h w : Z) (misses : list Coordinate) :
  Forall (inBoard h w) coords -> coords <> [] ->
  Forall (inBoard h w) (getExtensionPoints coords dir h w misses).
Proof.
  intros Hall Hne. rewrite Forall_forall in Hall.
  assert (Hends : forall key : Coordinate -> Z,
             inBoard h w (hd (0, 0) (sortBy key coords)) /\
             inBoard h w (last (sortBy key coords) (0, 0))).
  { intros key.
    assert (Hs : sortBy key coords <> []).
    { destruct coords as [|x coords']; [contradiction|].
      intros E. assert (Hx : In x (sortBy key (x :: coords')))
        by (apply sortBy_In; now left).
      rewrite E in Hx. contradiction. }
    split; apply Hall, (sortBy_In key).
    - destruct (sortBy key coords); [contradiction|now left].
    - now apply last_In. }
  unfold getExtensionPoints.
  destruct dir; cbv zeta;
    [destruct (Hends snd) as [[H1 H2] [H3 H4]]
    |destruct (Hends fst) as [[H1 H2] [H3 H4]]];
    apply Forall_app; split;
    match goal with
    | |- Forall _ (if ?b && _ then _ else _) =>
      destruct b eqn:E; cbn [andb]; [|constructor]
    end;
    match goal with
    | |- Forall _ (if ?b then _ else _) => destruct b; [|constructor]
    end;
    (apply Forall_cons; [|apply Forall_nil]);
    rewrite ?Z.gtb_ltb, ?Z.ltb_lt in E; unfold inBoard; cbn [fst snd];
    unfold Coordinate in *; lia.
Qed.

(** For hits on the board, the extension points of every aligned group are
    on the board. *)
Lemma extensions_onBoard (h w : Z) (hits misses : list Coordinate)
  (g : AlignedGroup) :
  Forall (inBoard h w) hits -> In g (findAlignedHits hits) ->
  Forall (inBoard h w)
         (getExtensionPoints (coordinates g) (direction g) h w misses).
Proof.
  intros Hhits Hg.
  pose proof (findAlignedHits_groups hits (inBoard h w) Hhits) as Hall.
  rewrite Forall_forall in Hall. destruct (Hall g Hg) as [Hin Hne].
  now apply getExtensionPoints_onBoard.
Qed.

(** * Further properties of the engine *)

(** ** Properties of cell values that every pass keeps

    The passes only ever apply five kinds of functions to a cell: [boost k],
    [x * k], [Qmin 1 (x * k)], [blend e] and [normalized s].  A property of
    cell values that these functions keep is kept by the whole engine. *)

Section KeptByPasses.
Variable P : Q -> Prop.
Hypothesis P_boost : forall k x, (0 < k)%Q -> P x -> P (boost k x).
Hypothesis P_scale : forall k x, (0 < k)%Q -> P x -> P (x * k)%Q.
Hypothesis P_cap : forall k x, (0 < k)%Q -> P x -> P (Qmin 1 (x * k)).
Hypothesis P_blend : forall e x, (0 <= e)%Q -> P x -> P (blend e x).
Hypothesis P_normalized : forall s x, (0 < s)%Q -> P x -> P (normalized s x).

Lemma Keeps_id : Keeps P (fun m => m).
Proof. intros m rc H. exact H. Qed.

Lemma Keeps_setProb (f : Q -> Q) (rc : Coordinate) :
  (forall x, P x -> P (f x)) -> Keeps P (fun m => setProb f m rc).
Proof.
  intros Hf m rc' H. rewrite prob_setProb.
  destruct (coord_eq_dec rc rc'); [|assumption].
  destruct (inGrid m (fst rc) (snd rc)); auto.
Qed.

Lemma Keeps_compose (F G : ProbabilityMap -> ProbabilityMap) :
  Keeps P F -> Keeps P G -> Keeps P (fun m => G (F m)).
Proof. intros HF HG m rc H. apply HG, HF, H. Qed.

Lemma Keeps_fold {X : Type} (step : ProbabilityMap -> X -> ProbabilityMap)
  (l : list X) :
  (forall x, Keeps P (fun m => step m x)) ->
  Keeps P (fun m => fold_left step l m).
Proof.
  intros Hstep. induction l as [|x l IH]; cbn [fold_left].
  - apply Keeps_id.
  - apply (Keeps_compose (fun m => step m x) (fun m => fold_left step l m));
      auto.
Qed.

Lemma Keeps_reading {X : Type} (F : X -> ProbabilityMap -> ProbabilityMap)
  (p : ProbabilityMap -> X) :
  (forall x, Keeps P (F x)) -> Keeps P (fun m => F (p m) m).
Proof. intros HF m rc H. now apply (HF (p m)). Qed.

Lemma Keeps_if (b : bool) (F G : ProbabilityMap -> ProbabilityMap) :
  Keeps P F -> Keeps P G -> Keeps P (fun m => if b then F m else G m).
Proof. now destruct b. Qed.

Lemma Keeps_boostCells (k : Q) (cells : list Coordinate) :
  (0 < k)%Q -> Keeps P (boostCells k cells).
Proof.
  intros Hk. unfold boostCells. apply Keeps_fold. intros rc.
  apply Keeps_setProb. intros x. now apply P_boost.
Qed.

Lemma Keeps_applyCheckerboardPattern (h w : Z) :
  Keeps P (fun m => applyCheckerboardPattern m h w).
Proof.
  unfold applyCheckerboardPattern. apply Keeps_fold. intros rc.
  apply Keeps_if; [|apply Keeps_id].
  apply Keeps_setProb. intros x. now apply P_boost.
Qed.

Lemma Keeps_completions (k : Q) (h w : Z) (hits misses : list Coordinate) :
  (0 < k)%Q ->
  Keeps P (fun m =>
             boostCells k
               (findPotentialCompletions h w hits misses
                  (findSmallestRemainingShip m h w)) m).
Proof.
  intros Hk.
  apply (Keeps_reading
           (fun size => boostCells k (findPotentialCompletions h w hits misses size))
           (fun m => findSmallestRemainingShip m h w)).
  intros size. now apply Keeps_boostCells.
Qed.

Lemma Keeps_applyTargetingStrategy (h w : Z) (hits misses : list Coordinate) :
  Keeps P (fun m => applyTargetingStrategy m h w hits misses).
Proof.
  unfold applyTargetingStrategy. destruct hits as [|hit hits']; [apply Keeps_id|].
  cbv zeta. apply Keeps_if.
  - destruct (findAlignedHits (hit :: hits')); [apply Keeps_id|].
    now apply Keeps_boostCells.
  - apply (Keeps_compose
             (boostCells ADJACENCY_FACTOR
                (getAdjacentCells h w (hit :: hits') misses))
             (fun m1 =>
                boostCells COMPLETION_FACTOR
                  (findPotentialCompletions h w (hit :: hits') misses
                     (findSmallestRemainingShip m1 h w)) m1)).
    + now apply Keeps_boostCells.
    + now apply Keeps_completions.
Qed.

Lemma Keeps_cornerPass (k : Q) (h w : Z) (hits misses : list Coordinate) :
  (0 < k)%Q -> Keeps P (fun m => cornerPass k m h w hits misses).
Proof.
  intros Hk. unfold cornerPass. apply Keeps_fold. intros hit1.
  apply Keeps_fold. intros hit2.
  apply Keeps_if; [apply Keeps_id|].
  apply Keeps_if; [apply Keeps_id|].
  cbv zeta.
  apply (Keeps_compose
           (fun m => boostCorner k h w hits misses m (fst hit1, snd hit2))
           (fun m1 => boostCorner k h w hits misses m1 (fst hit2, snd hit1)));
    unfold boostCorner; (apply Keeps_if; [|apply Keeps_id]);
    apply Keeps_setProb; intros x; now apply P_scale.
Qed.

Lemma Keeps_extensions (k : Q) (h w : Z) (misses : list Coordinate)
  (groups : list AlignedGroup) :
  (0 < k)%Q ->
  Keeps P (fun m =>
             fold_left
               (fun m (g : AlignedGroup) =>
                  boostCells k
                    (getExtensionPoints (coordinates g) (direction g) h w misses)
                    m)
               groups m).
Proof. intros Hk. apply Keeps_fold. intros g. now apply Keeps_boostCells. Qed.

Lemma Keeps_applySuperAggressiveStrategy (h w : Z)
  (hits misses : list Coordinate) :
  Keeps P (fun m => applySuperAggressiveStrategy m h w hits misses).
Proof.
  unfold applySuperAggressiveStrategy.
  destruct hits as [|hit hits']; [apply Keeps_applyCheckerboardPattern|].
  cbv zeta. unfold applyPatternRecognition.
  set (hs := hit :: hits').
  apply (Keeps_compose
           (fun m =>
              if Z.of_nat (length (findAlignedHits hs)) >=? 2
              then fold_left
                     (fun m (g : AlignedGroup) =>
                        boostCells SUPER_ALIGNMENT_FACTOR
                          (getExtensionPoints (coordinates g) (direction g)
                                              h w misses) m)
                     (findAlignedHits hs) m
              else boostCells SUPER_ADJACENCY_FACTOR
                     (getAdjacentCells h w hs misses) m)
           (fun m1 =>
              cornerPass (3 # 2)
                (boostCells SUPER_COMPLETION_FACTOR
                   (findPotentialCompletions h w hs misses
                      (findSmallestRemainingShip m1 h w)) m1)
                h w hs misses)).
  - apply Keeps_if; [now apply Keeps_extensions|now apply Keeps_boostCells].
  - apply (Keeps_compose
             (fun m1 =>
                boostCells SUPER_COMPLETION_FACTOR
                  (findPotentialCompletions h w hs misses
                     (findSmallestRemainingShip m1 h w)) m1)
             (fun m2 => cornerPass (3 # 2) m2 h w hs misses)).
    + now apply Keeps_completions.
    + now apply Keeps_cornerPass.
Qed.

Lemma Keeps_applyOptimalInitialPattern (h w : Z) (remainingShips : list Z) :
  Keeps P (fun m => applyOptimalInitialPattern m h w remainingShips).
Proof.
  unfold applyOptimalInitialPattern. cbv zeta.
  set (spacing := Z.max 2 (minOfList remainingShips - 1)).
  set (grid := fun m : ProbabilityMap =>
         fold_left
           (fun m rc =>
              if ((Z.rem (fst rc) spacing =? 0) && (Z.rem (snd rc) spacing =? 0))
                 || ((Z.rem (fst rc) spacing =? 1) && (Z.rem (snd rc) spacing =? 1))
              then setProb (fun x => (x * 2)%Q) m rc
              else m)
           (boardCells h w) m).
  assert (Hgrid : Keeps P grid).
  { apply Keeps_fold. intros rc. apply Keeps_if; [|apply Keeps_id].
    apply Keeps_setProb. intros x. now apply P_scale. }
  apply Keeps_if; [|exact Hgrid].
  set (corners := [ (0, 0); (0, 1); (1, 0);
                    (0, w - 1); (0, w - 2); (1, w - 1);
                    (h - 1, 0); (h - 2, 0); (h - 1, 1);
                    (h - 1, w - 1); (h - 1, w - 2); (h - 2, w - 1) ]).
  set (center := flat_map _ _).
  set (centerStep := fun (m : ProbabilityMap) (rc : Coordinate) =>
         if isValidCell (fst rc) (snd rc) h w
         then setProb (boost (5 # 4)) m rc
         else m).
  apply (Keeps_compose grid
           (fun m1 => fold_left centerStep center (boostCells (1 # 2) corners m1)));
    [exact Hgrid|].
  apply (Keeps_compose (boostCells (1 # 2) corners)
           (fun m2 => fold_left centerStep center m2)).
  - now apply Keeps_boostCells.
  - apply Keeps_fold. intros rc. apply Keeps_if; [|apply Keeps_id].
    apply Keeps_setProb. intros x. now apply P_boost.
Qed.

Lemma Keeps_reading_when {X : Type} (R : X -> Prop)
  (F : X -> ProbabilityMap -> ProbabilityMap) (p : ProbabilityMap -> X) :
  (forall m, R (p m)) -> (forall x, R x -> Keeps P (F x)) ->
  Keeps P (fun m => F (p m) m).
Proof. intros Hp HF m rc H. now apply (HF (p m)). Qed.

Lemma Keeps_applyInformationEntropy (h w : Z) (hits misses : list Coordinate)
  (remainingShips : list Z) :
  Keeps P (fun m => applyInformationEntropy m h w hits misses remainingShips).
Proof.
  unfold applyInformationEntropy.
  apply Keeps_if; [apply Keeps_id|]. cbv zeta.
  apply (Keeps_reading_when nonNegative
           (fun entropyMap m =>
              fold_left
                (fun m rc => setProb (blend (prob entropyMap rc)) m rc)
                (boardCells h w) m)
           (fun m => entropyScores m h w misses remainingShips)).
  - intros m. apply nonNegative_entropyScores.
  - intros entropyMap Hnn. apply Keeps_fold. intros rc.
    apply Keeps_setProb. intros x. apply P_blend, Hnn.
Qed.

Lemma Keeps_crossPass (h w : Z) (hits misses : list Coordinate) :
  Keeps P (fun m => crossPass m h w hits misses).
Proof.
  unfold crossPass. apply Keeps_fold. intros hit. apply Keeps_fold. intros dxy.
  apply Keeps_if; [|apply Keeps_id].
  apply Keeps_setProb. intros x. now apply P_boost.
Qed.

Lemma Keeps_applyEnhancedPatternRecognition (h w : Z)
  (hits misses : list Coordinate) :
  Keeps P (fun m => applyEnhancedPatternRecognition m h w hits misses).
Proof.
  unfold applyEnhancedPatternRecognition. cbv zeta.
  apply (Keeps_compose
           (fun m => crossPass m h w hits misses)
           (fun m1 => cornerPass OPTIMIZED_PATTERN_FACTOR m1 h w hits misses)).
  - apply Keeps_crossPass.
  - now apply Keeps_cornerPass.
Qed.

Lemma Keeps_optimizedBeforeEntropy (h w : Z)
  (activeHits misses : list Coordinate) :
  Keeps P (fun m => optimizedBeforeEntropy m h w activeHits misses).
Proof.
  unfold optimizedBeforeEntropy. cbv zeta.
  set (groups := findAlignedHits activeHits).
  set (isolated := filter _ activeHits).
  apply (Keeps_compose
           (fun m =>
              if Z.of_nat (length groups) >=? 1
              then fold_left
                     (fun m (g : AlignedGroup) =>
                        boostCells OPTIMIZED_ALIGNMENT_FACTOR
                          (getExtensionPoints (coordinates g) (direction g)
                                              h w misses) m)
                     groups m
              else m)
           (fun m1 =>
              applyEnhancedPatternRecognition
                (boostCells OPTIMIZED_COMPLETION_FACTOR
                   (findPotentialCompletions h w activeHits misses
                      (findSmallestRemainingShip
                         (if Z.of_nat (length isolated) >? 0
                          then boostCells OPTIMIZED_ADJACENCY_FACTOR
                                 (getAdjacentCells h w isolated misses) m1
                          else m1) h w))
                   (if Z.of_nat (length isolated) >? 0
                    then boostCells OPTIMIZED_ADJACENCY_FACTOR
                           (getAdjacentCells h w isolated misses) m1
                    else m1))
                h w activeHits misses)).
  - apply Keeps_if; [now apply Keeps_extensions|apply Keeps_id].
  - apply (Keeps_compose
             (fun m1 =>
                if Z.of_nat (length isolated) >? 0
                then boostCells OPTIMIZED_ADJACENCY_FACTOR
                       (getAdjacentCells h w isolated misses) m1
                else m1)
             (fun m2 =>
                applyEnhancedPatternRecognition
                  (boostCells OPTIMIZED_COMPLETION_FACTOR
                     (findPotentialCompletions h w activeHits misses
                        (findSmallestRemainingShip m2 h w)) m2)
                  h w activeHits misses)).
    + apply Keeps_if; [now apply Keeps_boostCells|apply Keeps_id].
    + apply (Keeps_compose
               (fun m2 =>
                  boostCells OPTIMIZED_COMPLETION_FACTOR
                    (findPotentialCompletions h w activeHits misses
                       (findSmallestRemainingShip m2 h w)) m2)
               (fun m3 =>
                  applyEnhancedPatternRecognition m3 h w activeHits misses)).
      * now apply Keeps_completions.
      * apply Keeps_applyEnhancedPatternRecognition.
Qed.

Lemma Keeps_applyOptimizedStrategy (h w : Z) (hits misses : list Coordinate)
  (remainingShips : list Z) (sunkShips : list SunkShip) :
  Keeps P (fun m =>
             applyOptimizedStrategy m h w hits misses remainingShips sunkShips).
Proof.
  unfold applyOptimizedStrategy. cbv zeta.
  destruct (getActiveHits hits sunkShips) as [|a active'].
  - apply Keeps_applyOptimalInitialPattern.
  - apply (Keeps_compose
             (fun m => optimizedBeforeEntropy m h w (a :: active') misses)
             (fun m4 =>
                applyInformationEntropy m4 h w hits misses remainingShips)).
    + apply Keeps_optimizedBeforeEntropy.
    + apply Keeps_applyInformationEntropy.
Qed.

Lemma Keeps_applyStrategy (mode : ProbabilityMode) (h w : Z)
  (hits misses : list Coordinate) (remainingShips : list Z)
  (sunkShips : list SunkShip) :
  Keeps P (fun m =>
             applyStrategy mode m h w hits misses remainingShips sunkShips).
Proof.
  destruct mode; cbn [applyStrategy].
  - apply Keeps_fold. intros rc. apply Keeps_setProb. intros x.
    now apply P_cap.
  - apply Keeps_applyCheckerboardPattern.
  - apply Keeps_applyTargetingStrategy.
  - apply Keeps_applySuperAggressiveStrategy.
  - apply Keeps_applyOptimizedStrategy.
Qed.

Lemma positiveMass_nonneg (m : ProbabilityMap) (h w : Z) :
  (0 <= fst (positiveMass m h w))%Q.
Proof.
  rewrite positiveMass_sum. apply Qsum_nonneg.
  intros x Hx. apply in_map_iff in Hx. destruct Hx as [rc [<- _]].
  apply posPart_nonneg.
Qed.

Lemma Keeps_normalizeMap (h w : Z) : Keeps P (fun m => normalizeMap m h w).
Proof.
  intros m rc H. rewrite normalizeMap_unfold.
  destruct (_ || _) eqn:E; [exact H|].
  apply orb_false_iff in E. destruct E as [_ E].
  assert (Hs : (0 < fst (positiveMass m h w))%Q).
  { destruct (Qlt_le_dec 0 (fst (positiveMass m h w))) as [Hlt|Hle]; [exact Hlt|].
    exfalso. assert (Hz : (fst (positiveMass m h w) == 0)%Q)
      by (apply Qle_antisym; [exact Hle|apply positiveMass_nonneg]).
    apply Qeq_bool_iff in Hz. congruence. }
  revert H.
  apply (Keeps_fold
           (fun m' rc' => setProb (normalized (fst (positiveMass m h w))) m' rc')
           (boardCells h w)).
  intros rc'. apply Keeps_setProb. intros x. now apply P_normalized.
Qed.
End KeptByPasses.

(** ** Values stay in the unit interval *)

Lemma Keeps_nonneg_applyStrategy (mode : ProbabilityMode) (h w : Z)
  (hits misses : list Coordinate) (remainingShips : list Z)
  (sunkShips : list SunkShip) :
  Keeps (fun x => (0 <= x)%Q)
        (fun m => normalizeMap
                    (applyStrategy mode m h w hits misses remainingShips sunkShips)
                    h w).
Proof.
  assert (Hboost : forall k x, (0 < k)%Q -> (0 <= x)%Q -> (0 <= boost k x)%Q).
  { intros k x Hk Hx. rewrite boost_nonneg by assumption.
    apply Qmult_le_0_compat; [assumption|now apply Qlt_le_weak]. }
  assert (Hscale : forall k x, (0 < k)%Q -> (0 <= x)%Q -> (0 <= x * k)%Q).
  { intros k x Hk Hx.
    apply Qmult_le_0_compat; [assumption|now apply Qlt_le_weak]. }
  assert (Hcap : forall k x, (0 < k)%Q -> (0 <= x)%Q -> (0 <= Qmin 1 (x * k))%Q).
  { intros k x Hk Hx. apply Q.min_glb; [discriminate|now apply Hscale]. }
  assert (Hblend : forall e x, (0 <= e)%Q -> (0 <= x)%Q -> (0 <= blend e x)%Q).
  { intros e x He Hx. unfold blend, ENTROPY_WEIGHT.
    destruct (Qpos x); [lra|assumption]. }
  assert (Hnorm : forall s x, (0 < s)%Q -> (0 <= x)%Q -> (0 <= normalized s x)%Q).
  { intros s x Hs Hx. unfold normalized. destruct (Qpos x); [|assumption].
    apply Qle_shift_div_l; [assumption|]. now rewrite Qmult_0_l. }
  apply (Keeps_compose (fun x => (0 <= x)%Q)
           (fun m => applyStrategy mode m h w hits misses remainingShips sunkShips)
           (fun m => normalizeMap m h w)).
  - now apply Keeps_applyStrategy.
  - now apply Keeps_normalizeMap.
Qed.

Lemma Keeps_positive_applyStrategy (mode : ProbabilityMode) (h w : Z)
  (hits misses : list Coordinate) (remainingShips : list Z)
  (sunkShips : list SunkShip) :
  Keeps (fun x => (0 < x)%Q)
        (fun m => normalizeMap
                    (applyStrategy mode m h w hits misses remainingShips sunkShips)
                    h w).
Proof.
  assert (Hscale : forall k x, (0 < k)%Q -> (0 < x)%Q -> (0 < x * k)%Q).
  { intros k x Hk Hx. rewrite <- (Qmult_0_l k). now apply Qmult_lt_compat_r. }
  assert (Hboost : forall k x, (0 < k)%Q -> (0 < x)%Q -> (0 < boost k x)%Q).
  { intros k x Hk Hx. destruct (boost_positive k x Hk Hx) as [E H].
    now rewrite E. }
  assert (Hcap : forall k x, (0 < k)%Q -> (0 < x)%Q -> (0 < Qmin 1 (x * k))%Q).
  { intros k x Hk Hx. apply Q.min_glb_lt; [reflexivity|now apply Hscale]. }
  assert (Hblend : forall e x, (0 <= e)%Q -> (0 < x)%Q -> (0 < blend e x)%Q).
  { intros e x He Hx. unfold blend, ENTROPY_WEIGHT.
    destruct (Qpos x); [lra|assumption]. }
  assert (Hnorm : forall s x, (0 < s)%Q -> (0 < x)%Q -> (0 < normalized s x)%Q).
  { intros s x Hs Hx. unfold normalized. destruct (Qpos x); [|assumption].
    apply Qlt_shift_div_l; [assumption|]. now rewrite Qmult_0_l. }
  apply (Keeps_compose (fun x => (0 < x)%Q)
           (fun m => applyStrategy mode m h w hits misses remainingShips sunkShips)
           (fun m => normalizeMap m h w)).
  - now apply Keeps_applyStrategy.
  - now apply Keeps_normalizeMap.
Qed.

(** The map handed back by the engine, in terms of the base map. *)
Lemma calculateProbabilityMap_cases (h w : Z) (hits misses : list Coordinate)
  (remainingShips : list Z) (mode : ProbabilityMode) (sunkShips : list SunkShip) :
  let tally := tallyPlacements h w hits misses remainingShips sunkShips in
  let base := baseProbabilities h w hits misses (fst tally) (snd tally) in
  (calculateProbabilityMap h w hits misses remainingShips mode sunkShips
   = mkGrid h w 0%Q /\ (remainingShips = [] \/ snd tally = 0)) \/
  (calculateProbabilityMap h w hits misses remainingShips mode sunkShips
   = normalizeMap
       (applyStrategy (effectiveMode mode hits) base h w hits misses
                      remainingShips sunkShips) h w
   /\ remainingShips <> [] /\ snd tally <> 0).
Proof.
  cbv zeta. unfold calculateProbabilityMap, heuristicMap.
  destruct remainingShips as [|s ships]; [left; split; auto|].
  destruct (tallyPlacements h w hits misses (s :: ships) sunkShips)
    as [cnt total]. cbn [fst snd].
  destruct (total =? 0) eqn:E.
  - apply Z.eqb_eq in E. left. split; auto.
  - apply Z.eqb_neq in E. right. split; [reflexivity|]. split; [discriminate|exact E].
Qed.

(** ** What the enumerator lists *)

Lemma candidate_In (isMiss : Coordinate -> bool) (hits placement p : list Coordinate) :
  In p (candidate isMiss hits placement) <->
  p = placement /\ forallb (fun coord => negb (isMiss coord)) placement = true
  /\ isConsistentWithHits placement hits = true.
Proof.
  unfold candidate.
  destruct (forallb _ placement); destruct (isConsistentWithHits placement hits);
    cbn; split; try tauto; intros H;
    try (destruct H as [_ [H1 H2]]; discriminate);
    try (destruct H as [H|[]]; auto);
    try (destruct H as [-> _]; auto).
Qed.

Lemma noMiss_forallb (misses placement : list Coordinate) :
  forallb (fun coord => negb (isCoordinateInList coord misses)) placement = true
  <-> (forall rc, In rc placement -> ~ In rc misses).
Proof.
  rewrite forallb_forall. split; intros H rc Hrc.
  - specialize (H rc Hrc). apply negb_true_iff in H. intros Hm.
    apply isCoordinateInList_In in Hm. congruence.
  - apply negb_true_iff. apply not_true_is_false. intros Hm.
    apply isCoordinateInList_In in Hm. exact (H rc Hrc Hm).
Qed.

Lemma generateValidPlacements_In (h w len : Z) (hits misses : list Coordinate)
  (sunkShips : list SunkShip) (p : list Coordinate) :
  In p (generateValidPlacements h w len hits misses sunkShips) <->
  exists dir start,
    p = placementAt dir start len /\
    match dir with
    | horizontal => 0 <= fst start < h /\ 0 <= snd start < w - len + 1
    | vertical => 0 <= fst start < h - len + 1 /\ 0 <= snd start < w
    end /\
    (forall rc, In rc p -> ~ In rc misses) /\
    isConsistentWithHits p hits = true.
Proof.
  unfold generateValidPlacements. rewrite in_app_iff, !in_flat_map. split.
  - intros [[row [Hrow H]]|[row [Hrow H]]];
      apply in_flat_map in H; destruct H as [col [Hcol H]];
      apply candidate_In in H; destruct H as [-> [Hm Hc]];
      apply in_range in Hrow, Hcol;
      pose proof (proj1 (noMiss_forallb _ _) Hm) as Hm'.
    + exists horizontal, (row, col). repeat split; auto; cbn; lia.
    + exists vertical, (row, col). repeat split; auto; cbn; lia.
  - intros [dir [[row col] [-> [Hb [Hm Hc]]]]]. cbn [fst snd] in Hb.
    destruct dir; [left|right]; exists row; (split; [apply in_range; lia|]);
      apply in_flat_map; exists col; (split; [apply in_range; lia|]);
      apply candidate_In; repeat split; auto; now apply (proj2 (noMiss_forallb _ _)).
Qed.

(** X1.  The placements the enumerator lists for a ship of positive length are
    exactly the horizontal and vertical runs of that length that lie on the
    board, avoid every miss and pass the consistency check against the
    hits. *)
Theorem enumerator_sound_and_complete (h w len : Z)
  (hits misses : list Coordinate) (sunkShips : list SunkShip)
  (p : list Coordinate) :
  0 < len ->
  (In p (generateValidPlacements h w len hits misses sunkShips) <->
   exists dir start,
     p = placementAt dir start len /\
     (forall rc, In rc p -> inBoard h w rc) /\
     (forall rc, In rc p -> ~ In rc misses) /\
     isConsistentWithHits p hits = true).
Proof.
  intros Hlen. rewrite generateValidPlacements_In. split.
  - intros [dir [start [-> [Hb H]]]]. exists dir, start.
    split; [reflexivity|]. split; [|exact H].
    intros rc Hrc. apply in_placementAt in Hrc. unfold inBoard.
    destruct dir; lia.
  - intros [dir [[row col] [-> [Hb H]]]]. exists dir, (row, col).
    split; [reflexivity|]. split; [|exact H]. cbn [fst snd].
    destruct dir.
    + assert (H1 : inBoard h w (row, col))
        by (apply Hb, in_placementAt; cbn; lia).
      assert (H2 : inBoard h w (row, col + len - 1))
        by (apply Hb, in_placementAt; cbn; lia).
      unfold inBoard in *. cbn in *. lia.
    + assert (H1 : inBoard h w (row, col))
        by (apply Hb, in_placementAt; cbn; lia).
      assert (H2 : inBoard h w (row + len - 1, col))
        by (apply Hb, in_placementAt; cbn; lia).
      unfold inBoard in *. cbn in *. lia.
Qed.

Lemma enumerator_sound_and_complete_witness :
  In [(0, 1); (0, 2)] (generateValidPlacements 3 3 2 [(0, 1)] [(1, 1)] []) <->
  exists dir start,
    [(0, 1); (0, 2)] = placementAt dir start 2 /\
    (forall rc, In rc [(0, 1); (0, 2)] -> inBoard 3 3 rc) /\
    (forall rc, In rc [(0, 1); (0, 2)] -> ~ In rc [(1, 1)]) /\
    isConsistentWithHits [(0, 1); (0, 2)] [(0, 1)] = true.
Proof. apply (enumerator_sound_and_complete 3 3 2 [(0, 1)] [(1, 1)] []). lia. Defined.

Lemma generateValidPlacements_NoDup_cells (h w len : Z)
  (hits misses : list Coordinate) (sunkShips : list SunkShip)
  (p : list Coordinate) :
  In p (generateValidPlacements h w len hits misses sunkShips) -> NoDup p.
Proof.
  intros H. apply generateValidPlacements_In in H.
  destruct H as [dir [start [-> _]]]. apply NoDup_placementAt.
Qed.

(** ** What the two counters of the aggregator hold *)

Lemma tally_counts (h w : Z) (hits misses : list Coordinate)
  (remainingShips : list Z) (sunkShips : list SunkShip) (r c : Z) :
  inBoard h w (r, c) ->
  let placements :=
    survivingPlacements h w hits misses remainingShips sunkShips in
  let tally := tallyPlacements h w hits misses remainingShips sunkShips in
  getCell 0 (fst tally) r c
  = Z.of_nat (length (filter (fun placement =>
                                isCoordinateInList (r, c) placement)
                             placements)) /\
  snd tally = Z.of_nat (length placements).
Proof.
  intros [Hr Hc]. cbn [fst snd] in Hr, Hc. cbv zeta.
  unfold tallyPlacements, survivingPlacements.
  assert (Hgen : forall (ships : list Z) (cnt : list (list Z)) (total : Z),
             inGrid cnt r c = true ->
             let st :=
               fold_left
                 (fun (st : list (list Z) * Z) shipLength =>
                    let (cellPlacementCount, totalPlacements) := st in
                    let validPlacements :=
                      generateValidPlacements h w shipLength hits misses
                                              sunkShips in
                    (fold_left countPlacement validPlacements cellPlacementCount,
                     totalPlacements + Z.of_nat (length validPlacements)))
                 ships (cnt, total) in
             let placements :=
               flat_map (fun shipLength =>
                           generateValidPlacements h w shipLength hits misses
                                                   sunkShips) ships in
             getCell 0 (fst st) r c
             = getCell 0 cnt r c
               + Z.of_nat (length (filter (fun placement =>
                                             isCoordinateInList (r, c) placement)
                                          placements)) /\
             snd st = total + Z.of_nat (length placements)).
  { induction ships as [|len ships IH]; intros cnt total Hin;
      cbn [fold_left flat_map]; [cbn; lia|].
    cbv zeta in IH. 
    destruct (IH (fold_left countPlacement
                    (generateValidPlacements h w len hits misses sunkShips) cnt)
                 (total + Z.of_nat (length (generateValidPlacements h w len hits
                                              misses sunkShips)))) as [E1 E2].
    - clear IH. revert cnt Hin.
      induction (generateValidPlacements h w len hits misses sunkShips)
        as [|p ps IHp]; intros cnt Hin; cbn [fold_left]; [assumption|].
      apply IHp. now rewrite inGrid_countPlacement.
    - cbv zeta. rewrite E1, E2. rewrite getCell_tally.
      + rewrite filter_app, !length_app. lia.
      + assumption.
      + intros p. apply generateValidPlacements_NoDup_cells. }
  destruct (Hgen remainingShips (mkGrid h w 0) 0) as [E1 E2].
  - apply (inGrid_hasDims h w); auto. apply hasDims_mkGrid.
  - cbv zeta in E1, E2. rewrite E1, E2.
    rewrite getCell_mkGrid by assumption. lia.
Qed.

(** ** The returned map as a whole *)


Lemma nonNegative_base (h w : Z) (hits misses : list Coordinate)
  (remainingShips : list Z) (sunkShips : list SunkShip) :
  let tally := tallyPlacements h w hits misses remainingShips sunkShips in
  nonNegative (baseProbabilities h w hits misses (fst tally) (snd tally)).
Proof.
  cbv zeta.
  pose proof (tally_nonneg h w hits misses remainingShips sunkShips) as H.
  destruct (tallyPlacements h w hits misses remainingShips sunkShips)
    as [cnt total]. destruct H as [Hcnt Htotal].
  now apply nonNegative_baseProbabilities.
Qed.


(** The positive cells of the returned map are those of the base map. *)
Lemma positive_iff_base (h w : Z) (hits misses : list Coordinate)
  (remainingShips : list Z) (mode : ProbabilityMode) (sunkShips : list SunkShip)
  (rc : Coordinate) :
  let tally := tallyPlacements h w hits misses remainingShips sunkShips in
  let base := baseProbabilities h w hits misses (fst tally) (snd tally) in
  (0 < prob (calculateProbabilityMap h w hits misses remainingShips mode
                                     sunkShips) rc)%Q
  <-> remainingShips <> [] /\ (0 < prob base rc)%Q.
Proof.
  cbv zeta.
  destruct (calculateProbabilityMap_cases h w hits misses remainingShips mode
              sunkShips) as [[-> Hz]|[-> [Hs Ht]]].
  - rewrite prob_mkGrid_zero. split.
    + intros H. now apply Qlt_irrefl in H.
    + intros [Hs H]. destruct Hz as [Hz|Hz]; [contradiction|].
      rewrite Hz in H. rewrite zero_total_zero_base in H. exact H.
  - split.
    + intros H. split; [assumption|].
      apply positive_after_normalizeMap in H.
      apply Qnot_le_lt. intros Hle.
      assert (E : (prob (baseProbabilities h w hits misses
                           (fst (tallyPlacements h w hits misses remainingShips
                                   sunkShips))
                           (snd (tallyPlacements h w hits misses remainingShips
                                   sunkShips))) rc == 0)%Q).
      { apply Qle_antisym; [assumption|].
        apply (nonNegative_base h w hits misses remainingShips sunkShips). }
      destruct (Pass_applyStrategy (effectiveMode mode hits) h w hits misses
                  remainingShips sunkShips) as [_ Hzero].
      rewrite (Hzero _ _ E) in H. now apply Qlt_irrefl in H.
    + intros [_ H].
      now apply (Keeps_positive_applyStrategy (effectiveMode mode hits) h w
                   hits misses remainingShips sunkShips).
Qed.

Lemma positive_base (h w : Z) (hits misses : list Coordinate)
  (remainingShips : list Z) (sunkShips : list SunkShip) (rc : Coordinate) :
  let tally := tallyPlacements h w hits misses remainingShips sunkShips in
  let base := baseProbabilities h w hits misses (fst tally) (snd tally) in
  (0 < prob base rc)%Q <->
  ~ In rc hits /\
  exists placement,
    In placement
       (survivingPlacements h w hits misses remainingShips sunkShips) /\
    In rc placement.
Proof.
  cbv zeta.
  assert (Hon : forall placement,
             In placement
                (survivingPlacements h w hits misses remainingShips sunkShips) ->
             In rc placement -> inBoard h w rc /\ ~ In rc misses).
  { intros p Hp Hrc. unfold survivingPlacements in Hp.
    apply in_flat_map in Hp. destruct Hp as [len [_ Hp]]. split.
    - exact (generateValidPlacements_onBoard h w len hits misses sunkShips
               p rc Hp Hrc).
    - apply generateValidPlacements_In in Hp.
      destruct Hp as [dir [start [_ [_ [Hm _]]]]]. now apply Hm. }
  destruct (inBoard_dec h w rc) as [Hin|Hout].
  - destruct rc as [r c].
    destruct (tally_counts h w hits misses remainingShips sunkShips r c Hin)
      as [Ecnt Etotal]. cbv zeta in Ecnt, Etotal.
    rewrite prob_baseProbabilities by assumption. cbn [fst snd].
    rewrite Ecnt, Etotal.
    set (placements :=
           survivingPlacements h w hits misses remainingShips sunkShips) in *.
    set (covering :=
           filter (fun placement => isCoordinateInList (r, c) placement)
                  placements).
    assert (Hsub : (length covering <= length placements)%nat)
      by apply filter_length_le.
    assert (Hcov : forall p, In p covering <-> In p placements /\ In (r, c) p).
    { intros p. unfold covering. rewrite filter_In.
      now rewrite isCoordinateInList_In. }
    split.
    + intros Hpos.
      destruct (isCoordinateInList (r, c) hits) eqn:Eh;
        [cbn [orb] in Hpos; now apply Qlt_irrefl in Hpos|].
      split.
      * intros Hh. apply isCoordinateInList_In in Hh. congruence.
      * destruct covering as [|p covering'] eqn:Ec.
        -- cbn [orb] in Hpos. destruct (isCoordinateInList (r, c) misses);
             [now apply Qlt_irrefl in Hpos|].
           cbn in Hpos. unfold Qdiv in Hpos. rewrite Qmult_0_l in Hpos.
           now apply Qlt_irrefl in Hpos.
        -- exists p. apply Hcov. now left.
    + intros [Hh [p [Hp Hrc]]].
      destruct (Hon p Hp Hrc) as [_ Hm].
      replace (isCoordinateInList (r, c) hits) with false
        by (symmetry; apply not_true_is_false; intros E;
            now apply isCoordinateInList_In in E).
      replace (isCoordinateInList (r, c) misses) with false
        by (symmetry; apply not_true_is_false; intros E;
            now apply isCoordinateInList_In in E).
      cbn [orb].
      assert (Hin' : In p covering) by now apply Hcov.
      assert (0 < length covering)%nat
        by (destruct covering; [contradiction|cbn; lia]).
      apply Qlt_shift_div_l.
      * change 0%Q with (inject_Z 0). rewrite <- Zlt_Qlt. lia.
      * rewrite Qmult_0_l. change 0%Q with (inject_Z 0).
        rewrite <- Zlt_Qlt. lia.
  - rewrite prob_baseProbabilities_outside by assumption. split.
    + intros H. now apply Qlt_irrefl in H.
    + intros [_ [p [Hp Hrc]]]. destruct (Hon p Hp Hrc) as [Hin _].
      contradiction.
Qed.



(** ** Sorting *)


Lemma ascending_insertBy {A : Type} (key : A -> Z) (x : A) (l : list A) :
  ascending (map key l) -> ascending (map key (insertBy key x l)).
Proof.
  induction l as [|y l IH]; intros H; cbn [insertBy map]; [exact I|].
  destruct (key x <=? key y) eqn:E.
  - apply Z.leb_le in E. cbn [map ascending]. split; assumption.
  - apply Z.leb_gt in E. destruct l as [|z l].
    + cbn. split; [lia|exact I].
    + cbn [map ascending] in H. destruct H as [Hyz H].
      specialize (IH H). cbn [insertBy] in *.
      destruct (key x <=? key z) eqn:E2.
      * apply Z.leb_le in E2. cbn [map ascending] in *. repeat split; try lia.
        exact H.
      * cbn [map ascending] in *. split; [assumption|exact IH].
Qed.

Lemma ascending_sortBy {A : Type} (key : A -> Z) (l : list A) :
  ascending (map key (sortBy key l)).
Proof.
  induction l as [|x l IH]; cbn; [exact I|].
  now apply ascending_insertBy.
Qed.

Lemma NoDup_insertBy {A : Type} (key : A -> Z) (x : A) (l : list A) :
  ~ In x l -> NoDup l -> NoDup (insertBy key x l).
Proof.
  induction l as [|z l IH]; intros Hx Hnd; cbn [insertBy].
  - constructor; [intros []|constructor].
  - destruct (key x <=? key z).
    + now constructor.
    + inversion Hnd; subst. constructor.
      * rewrite insertBy_In. intros [->|H]; [apply Hx; now left|contradiction].
      * apply IH; [|assumption]. intros H. apply Hx. now right.
Qed.

Lemma NoDup_sortBy {A : Type} (key : A -> Z) (l : list A) :
  NoDup l -> NoDup (sortBy key l).
Proof.
  induction 1 as [|x l Hx Hnd IH]; cbn [sortBy fold_right]; [constructor|].
  apply NoDup_insertBy; [|exact IH].
  fold (sortBy key l). now rewrite sortBy_In.
Qed.

Lemma length_insertBy {A : Type} (key : A -> Z) (x : A) (l : list A) :
  length (insertBy key x l) = Datatypes.S (length l).
Proof.
  induction l as [|z l IH]; cbn [insertBy]; [reflexivity|].
  destruct (key x <=? key z); cbn [length]; [reflexivity|now rewrite IH].
Qed.

Lemma length_sortBy {A : Type} (key : A -> Z) (l : list A) :
  length (sortBy key l) = length l.
Proof.
  induction l as [|x l IH]; cbn [sortBy fold_right length]; [reflexivity|].
  rewrite length_insertBy. fold (sortBy key l). now rewrite IH.
Qed.

Lemma sortBy_id_map (l : list Z) :
  map (fun i => i) (sortBy (fun i => i) l) = sortBy (fun i => i) l.
Proof. apply map_id. Qed.

(** In an ascending list every later element is at least the head. *)
Lemma ascending_head (a : Z) (l : list Z) (x : Z) :
  ascending (a :: l) -> In x l -> a <= x.
Proof.
  revert a. induction l as [|b l IH]; intros a H Hx; [contradiction|].
  cbn [ascending] in H. destruct H as [Hab H]. destruct Hx as [<-|Hx]; [lia|].
  specialize (IH b H Hx). lia.
Qed.

Lemma ascending_tail (a : Z) (l : list Z) : ascending (a :: l) -> ascending l.
Proof. destruct l; cbn; [auto|]. now intros [_ H]. Qed.

(** *** Lists of consecutive integers *)

Lemma contiguous_range (l : list Z) (a : Z) :
  contiguous (a :: l) = true <->
  l = range (a + 1) (a + 1 + Z.of_nat (length l)).
Proof.
  revert a. induction l as [|b l IH]; intros a.
  - cbn [contiguous length]. rewrite range_nil by lia. split; auto.
  - change (contiguous (a :: b :: l))
      with ((b =? a + 1) && contiguous (b :: l)).
    rewrite andb_true_iff, Z.eqb_eq, IH.
    rewrite (range_cons (a + 1)) by (cbn [length]; lia).
    replace (a + 1 + Z.of_nat (length (b :: l)))
      with (a + 1 + 1 + Z.of_nat (length l)) by (cbn [length]; lia).
    split.
    + intros [E1 E]. rewrite E1 in *. f_equal. exact E.
    + intros E. injection E as E1 E2. split; [exact E1|].
      rewrite E1. exact E2.
Qed.

(** A duplicate-free ascending list that has no hole is a list of
    consecutive integers, and conversely. *)
Lemma contiguous_iff (l : list Z) :
  ascending l -> NoDup l ->
  (contiguous l = true <->
   forall x y z, In x l -> In z l -> x <= y <= z -> In y l).
Proof.
  induction l as [|a l IH]; intros Hasc Hnd.
  - cbn. split; auto.
  - split.
    + intros H. apply contiguous_range in H. intros x y z Hx Hz Hy.
      assert (Hin : forall v, In v (a :: l) <->
                              a <= v < a + 1 + Z.of_nat (length l)).
      { intros v. cbn [In]. rewrite H at 1. rewrite in_range. lia. }
      apply Hin. apply Hin in Hx, Hz. lia.
    + intros Hconv. destruct l as [|b l]; [reflexivity|].
      change (contiguous (a :: b :: l))
        with ((b =? a + 1) && contiguous (b :: l)).
      inversion Hnd as [|? ? Ha Hnd']; subst.
      pose proof Hasc as Hasc'. cbn [ascending] in Hasc'.
      destruct Hasc' as [Hab Hasc'].
      assert (Hlt : a < b).
      { destruct (Z.eq_dec a b) as [->|]; [|lia]. exfalso. apply Ha. now left. }
      assert (Hb : b = a + 1).
      { assert (Hin : In (a + 1) (a :: b :: l)).
        { apply (Hconv a (a + 1) b); [now left|right; now left|lia]. }
        destruct Hin as [Hin|Hin]; [lia|].
        destruct Hin as [Hin|Hin]; [lia|].
        pose proof (ascending_head b l (a + 1) Hasc' Hin). lia. }
      apply andb_true_iff. split; [now apply Z.eqb_eq|].
      apply IH; [assumption|assumption|].
      intros x y z Hx Hz Hy.
      assert (Hbx : b <= x).
      { destruct Hx as [<-|Hx]; [lia|]. exact (ascending_head b l x Hasc' Hx). }
      destruct (Hconv x y z) as [Hin|Hin]; [now right|now right|assumption| |assumption].
      lia.
Qed.

(** ** The consistency check *)

Lemma indexIn_nth (hit : Coordinate) (placement : list Coordinate) (i : Z) :
  In hit placement ->
  exists n : nat,
    indexIn hit placement i = i + Z.of_nat n /\
    (n < length placement)%nat /\
    nth n placement (0, 0) = hit.
Proof.
  revert i. induction placement as [|p placement IH]; intros i Hin;
    [contradiction|].
  cbn [indexIn]. destruct (coordEq p hit) eqn:E.
  - exists 0%nat. cbn. repeat split; try lia.
    unfold coordEq in E. apply andb_true_iff in E. destruct E as [E1 E2].
    apply Z.eqb_eq in E1, E2. destruct p, hit; cbn in *; now subst.
  - destruct Hin as [->|Hin].
    + unfold coordEq in E. rewrite !Z.eqb_refl in E. discriminate.
    + destruct (IH (i + 1) Hin) as [n [E1 [E2 E3]]].
      exists (Datatypes.S n). cbn [nth length]. repeat split; try lia. assumption.
Qed.

Lemma indexIn_of_nth (placement : list Coordinate) (n : nat) (i : Z) :
  NoDup placement -> (n < length placement)%nat ->
  indexIn (nth n placement (0, 0)) placement i = i + Z.of_nat n.
Proof.
  intros Hnd Hn.
  destruct (indexIn_nth (nth n placement (0, 0)) placement i) as [k [E [Hk Hnth]]].
  - now apply nth_In.
  - rewrite E. f_equal. f_equal.
    apply (proj1 (NoDup_nth placement (0, 0)) Hnd); assumption.
Qed.

(** X5.  For a placement without repeated cells and a list of hits without
    repeated entries, the consistency check accepts the placement exactly
    when the cells of the placement that are hits form one unbroken stretch
    of it: no cell that is not a hit lies between two cells that are. *)
Theorem consistent_iff_hits_unbroken (placement hits : list Coordinate) :
  NoDup placement -> NoDup hits ->
  (isConsistentWithHits placement hits = true <->
   forall i j k : nat,
     (i <= j <= k)%nat -> (k < length placement)%nat ->
     In (nth i placement (0, 0)) hits ->
     In (nth k placement (0, 0)) hits ->
     In (nth j placement (0, 0)) hits).
Proof.
  intros Hp Hh. unfold isConsistentWithHits. cbv zeta.
  set (overlappingHits :=
         filter (fun hit => isCoordinateInList hit placement) hits).
  set (indices := map (fun hit => indexIn hit placement 0) overlappingHits).
  assert (Hover : forall hit,
             In hit overlappingHits <-> In hit hits /\ In hit placement).
  { intros hit. unfold overlappingHits. rewrite filter_In.
    now rewrite isCoordinateInList_In. }
  assert (Hidx : forall x,
             In x indices <->
             exists n : nat, x = Z.of_nat n /\ (n < length placement)%nat /\
                             In (nth n placement (0, 0)) hits).
  { intros x. unfold indices. rewrite in_map_iff. split.
    - intros [hit [<- Hhit]]. apply Hover in Hhit. destruct Hhit as [H1 H2].
      destruct (indexIn_nth hit placement 0 H2) as [n [E [Hn Hnth]]].
      exists n. rewrite E, Hnth. repeat split; auto.
    - intros [n [-> [Hn Hhit]]]. exists (nth n placement (0, 0)). split.
      + now rewrite indexIn_of_nth.
      + apply Hover. split; [assumption|now apply nth_In]. }
  assert (Hnd : NoDup indices).
  { unfold indices. apply Injective_map_NoDup_in.
    - intros x y Hx Hy E. apply Hover in Hx, Hy.
      destruct (indexIn_nth x placement 0 (proj2 Hx)) as [n [E1 [_ <-]]].
      destruct (indexIn_nth y placement 0 (proj2 Hy)) as [n' [E2 [_ <-]]].
      rewrite E1, E2 in E. f_equal. lia.
    - unfold overlappingHits. now apply NoDup_filter. }
  assert (Hsorted :
            contiguous (sortBy (fun i => i) indices) = true <->
            forall x y z, In x indices -> In z indices -> x <= y <= z ->
                          In y indices).
  { rewrite contiguous_iff.
    - split; intros H x y z Hx Hz Hy.
      + apply (sortBy_In (fun i => i)).
        apply (H x y z); [now apply sortBy_In|now apply sortBy_In|assumption].
      + apply sortBy_In. apply sortBy_In in Hx, Hz. now apply (H x y z).
    - rewrite <- sortBy_id_map. apply ascending_sortBy.
    - now apply NoDup_sortBy. }
  assert (Hgoal :
            (forall x y z, In x indices -> In z indices -> x <= y <= z ->
                           In y indices) <->
            (forall i j k : nat,
                (i <= j <= k)%nat -> (k < length placement)%nat ->
                In (nth i placement (0, 0)) hits ->
                In (nth k placement (0, 0)) hits ->
                In (nth j placement (0, 0)) hits)).
  { split.
    - intros H i j k Hijk Hk Hi Hk'.
      destruct (proj1 (Hidx (Z.of_nat j))) as [n [E [_ Hn]]].
      + apply (H (Z.of_nat i) (Z.of_nat j) (Z.of_nat k)); [| |lia].
        * apply Hidx. exists i. repeat split; auto. lia.
        * apply Hidx. exists k. repeat split; auto.
      + apply Nat2Z.inj in E. now subst n.
    - intros H x y z Hx Hz Hy.
      apply Hidx in Hx, Hz.
      destruct Hx as [i [-> [Hi Hi']]], Hz as [k [-> [Hk Hk']]].
      apply Hidx. exists (Z.to_nat y). repeat split; [lia|lia|].
      apply (H i (Z.to_nat y) k); auto. lia. }
  destruct overlappingHits as [|hit rest] eqn:Eo.
  - split; [|reflexivity]. intros _. apply Hgoal.
    intros x y z Hx. unfold indices in Hx. contradiction.
  - fold indices. now rewrite Hsorted.
Qed.

Lemma consistent_iff_hits_unbroken_witness :
  let placement : list Coordinate := [(0, 0); (0, 1); (0, 2)] in
  let hits : list Coordinate := [(0, 0); (0, 2)] in
  isConsistentWithHits placement hits = true <->
  forall i j k : nat,
    (i <= j <= k)%nat -> (k < length placement)%nat ->
    In (nth i placement (0, 0)) hits ->
    In (nth k placement (0, 0)) hits ->
    In (nth j placement (0, 0)) hits.
Proof.
  apply (consistent_iff_hits_unbroken [(0, 0); (0, 1); (0, 2)] [(0, 0); (0, 2)]);
    repeat constructor; cbn; intuition congruence.
Defined.

(** ** The groups of aligned hits *)

Lemma range_snoc (lo hi : Z) :
  lo <= hi -> range lo (hi + 1) = range lo hi ++ [hi].
Proof.
  intros H. unfold range.
  replace (Z.to_nat (hi + 1 - lo)) with (Datatypes.S (Z.to_nat (hi - lo)))
    by lia.
  rewrite seq_S, map_app. cbn [map]. do 2 f_equal. lia.
Qed.

Lemma ascending_nth (l : list Z) (i j : nat) :
  ascending l -> (i <= j)%nat -> (j < length l)%nat ->
  nth i l 0 <= nth j l 0.
Proof.
  revert i j. induction l as [|a l IH]; intros i j Hasc Hij Hj;
    [cbn in Hj; lia|].
  destruct j as [|j].
  - replace i with 0%nat by lia. lia.
  - cbn [length] in Hj. destruct i as [|i]; cbn [nth].
    + apply (ascending_head a l); [assumption|]. apply nth_In. lia.
    + apply IH; [now apply ascending_tail in Hasc|lia|lia].
Qed.

Lemma nth_slice {A : Type} (start stop : Z) (l : list A) (d : A) (t : nat) :
  0 <= start -> (Z.of_nat t < stop - start) ->
  nth t (slice start stop l) d = nth (Z.to_nat start + t) l d.
Proof.
  intros Hs Ht. unfold slice.
  rewrite nth_firstn.
  replace (t <? Z.to_nat (stop - start))%nat with true
    by (symmetry; apply Nat.ltb_lt; lia).
  rewrite nth_skipn. reflexivity.
Qed.

Lemma length_slice {A : Type} (start stop : Z) (l : list A) :
  0 <= start -> start <= stop <= Z.of_nat (length l) ->
  length (slice start stop l) = Z.to_nat (stop - start).
Proof.
  intros Hs He. unfold slice. rewrite length_firstn, length_skipn. lia.
Qed.


(** *** Grouping the hits by line *)

Lemma mapPush_keys (k : Z) (v : Coordinate) (m : list (Z * list Coordinate))
  (k' : Z) :
  In k' (map fst (mapPush k v m)) <-> k' = k \/ In k' (map fst m).
Proof.
  induction m as [|[k0 vs0] m IH]; cbn [mapPush map In fst].
  - intuition.
  - destruct (k0 =? k) eqn:E; cbn [map In fst].
    + apply Z.eqb_eq in E. subst. intuition.
    + rewrite IH. intuition.
Qed.

Lemma NoDup_mapPush_keys (k : Z) (v : Coordinate)
  (m : list (Z * list Coordinate)) :
  NoDup (map fst m) -> NoDup (map fst (mapPush k v m)).
Proof.
  induction m as [|[k0 vs0] m IH]; intros H; cbn [mapPush map fst].
  - constructor; [intros []|constructor].
  - inversion H as [|? ? Hk0 Hm]; subst.
    destruct (k0 =? k) eqn:E; cbn [map fst]; [now constructor|].
    apply Z.eqb_neq in E. constructor; [|now apply IH].
    rewrite mapPush_keys. intros [->|Hin]; [now apply E|contradiction].
Qed.

Lemma mapPush_entry (k : Z) (v : Coordinate) (m : list (Z * list Coordinate))
  (k' : Z) (vs : list Coordinate) :
  NoDup (map fst m) -> In (k', vs) (mapPush k v m) ->
  (k' <> k /\ In (k', vs) m) \/
  (k' = k /\ ((exists vs0, In (k, vs0) m /\ vs = vs0 ++ [v]) \/
              (vs = [v] /\ ~ In k (map fst m)))).
Proof.
  induction m as [|[k0 vs0] m IH]; intros Hnd Hin; cbn [mapPush] in Hin.
  - destruct Hin as [Hin|[]]. inversion Hin; subst. right. split; [reflexivity|].
    right. split; [reflexivity|intros []].
  - inversion Hnd as [|? ? Hk0 Hm]; subst. cbn [fst] in Hk0.
    destruct (k0 =? k) eqn:E.
    + apply Z.eqb_eq in E. subst k0. destruct Hin as [Hin|Hin].
      * inversion Hin; subst. right. split; [reflexivity|]. left.
        exists vs0. split; [now left|reflexivity].
      * left. split; [|now right]. intros ->. apply Hk0.
        apply in_map_iff. now exists (k, vs).
    + apply Z.eqb_neq in E. destruct Hin as [Hin|Hin].
      * inversion Hin; subst. left. split; [assumption|now left].
      * destruct (IH Hm Hin) as [[H1 H2]|[-> [[vs1 [H1 H2]]|[H1 H2]]]].
        -- left. split; [assumption|now right].
        -- right. split; [reflexivity|]. left. exists vs1.
           split; [now right|assumption].
        -- right. split; [reflexivity|]. right. split; [assumption|].
           cbn [map fst In]. intros [H|H]; [now apply E|contradiction].
Qed.

Section Grouping.
Variable key : Coordinate -> Z.

Lemma Grouped_ext (seen seen' : Coordinate -> Prop)
  (m : list (Z * list Coordinate)) :
  (forall x, seen x <-> seen' x) -> Grouped key seen m -> Grouped key seen' m.
Proof.
  intros Hext [H1 [H2 H3]]. split; [assumption|]. split.
  - intros x Hx. apply H2. now apply Hext.
  - intros k vs Hin. destruct (H3 k vs Hin) as [Hnd Hiff]. split; [assumption|].
    intros x. rewrite Hiff. now rewrite Hext.
Qed.

Lemma Grouped_mapPush (seen : Coordinate -> Prop)
  (m : list (Z * list Coordinate)) (v : Coordinate) :
  Grouped key seen m -> ~ seen v ->
  Grouped key (fun x => seen x \/ x = v) (mapPush (key v) v m).
Proof.
  intros [H1 [H2 H3]] Hv. split; [now apply NoDup_mapPush_keys|]. split.
  - intros x [Hx| ->]; apply mapPush_keys; [right; now apply H2|now left].
  - intros k vs Hin.
    destruct (mapPush_entry _ _ _ _ _ H1 Hin)
      as [[Hk Hin']|[-> [[vs0 [Hin' ->]]|[-> Hnew]]]].
    + destruct (H3 k vs Hin') as [Hnd Hiff]. split; [assumption|].
      intros x. rewrite Hiff. split.
      * intros [Hx Hkx]. auto.
      * intros [[Hx| ->] Hkx]; [auto|congruence].
    + destruct (H3 _ vs0 Hin') as [Hnd Hiff]. split.
      * apply NoDup_app; [assumption|constructor; [intros []|constructor]|].
        intros x Hx [<-|[]]. apply Hiff in Hx. now apply Hv.
      * intros x. rewrite in_app_iff, Hiff. cbn [In]. split.
        -- intros [[Hx Hkx]|[<-|[]]]; auto.
        -- intros [[Hx| ->] Hkx]; auto.
    + split; [constructor; [intros []|constructor]|].
      intros x. cbn [In]. split.
      * intros [<-|[]]. auto.
      * intros [[Hx| ->] Hkx]; [|now left].
        exfalso. apply Hnew. rewrite <- Hkx. now apply H2.
Qed.

Lemma Grouped_groupByKey (hits : list Coordinate) :
  NoDup hits -> Grouped key (fun x => In x hits) (groupByKey key hits).
Proof.
  intros Hnd. unfold groupByKey.
  assert (Hgen : forall (l : list Coordinate) (seen : Coordinate -> Prop)
                        (m : list (Z * list Coordinate)),
             Grouped key seen m -> NoDup l -> (forall x, In x l -> ~ seen x) ->
             Grouped key (fun x => seen x \/ In x l)
                     (fold_left (fun m hit => mapPush (key hit) hit m) l m)).
  { induction l as [|v l IH]; intros seen m Hm Hl Hfresh; cbn [fold_left].
    - apply (Grouped_ext seen); [|assumption]. cbn. intuition.
    - inversion Hl as [|? ? Hv Hl']; subst.
      apply (Grouped_ext (fun x => (seen x \/ x = v) \/ In x l)).
      + intros x. cbn [In]. intuition.
      + apply IH; [|assumption|].
        * apply Grouped_mapPush; [assumption|]. apply Hfresh. now left.
        * intros x Hx [Hs| ->]; [|contradiction].
          apply (Hfresh x); [now right|assumption]. }
  apply (Grouped_ext (fun x => False \/ In x hits)); [intuition|].
  apply Hgen; [|assumption|auto].
  split; [constructor|]. split; [intros x []|intros k vs []].
Qed.
End Grouping.

(** *** Cutting a sorted line into runs *)

Section Runs.
Variables (dir : Direction) (key : Coordinate -> Z) (lineHits : list Coordinate).

Lemma consecutiveRuns_closed (g : AlignedGroup) :
  In g (consecutiveRuns dir key lineHits) ->
  ClosedRun dir key lineHits g.
Proof.
  unfold consecutiveRuns. cbv zeta.
  set (step := fun (st : Z * list AlignedGroup) i =>
                 let (start, result) := st in
                 if (i =? Z.of_nat (length lineHits))
                    || (key (nth (Z.to_nat i) lineHits (0, 0))
                        >? key (nth (Z.to_nat (i - 1)) lineHits (0, 0)) + 1)
                 then (i, if i - start >=? 2
                          then result ++ [mkGroup dir (slice start i lineHits)]
                          else result)
                 else (start, result)).
  assert (Hinv : forall k : nat,
             Z.of_nat k <= Z.of_nat (length lineHits) ->
             let st := fold_left step (range 1 (1 + Z.of_nat k)) (0, []) in
             0 <= fst st <= Z.of_nat k /\
             (fst st = 0 \/ fst st = Z.of_nat (length lineHits)
              \/ keyAt key lineHits (fst st)
                 > keyAt key lineHits (fst st - 1) + 1) /\
             (forall j, fst st < j < 1 + Z.of_nat k ->
                        keyAt key lineHits j <= keyAt key lineHits (j - 1) + 1) /\
             Forall (ClosedRun dir key lineHits) (snd st)).
  { induction k as [|k IH]; intros Hk.
    - rewrite range_nil by lia. cbn [fold_left fst snd].
      repeat split; try lia. constructor.
    - replace (1 + Z.of_nat (Datatypes.S k)) with (1 + Z.of_nat k + 1) by lia.
      rewrite range_snoc by lia. rewrite fold_left_app. cbn [fold_left].
      specialize (IH ltac:(lia)). cbv zeta in IH.
      destruct (fold_left step (range 1 (1 + Z.of_nat k)) (0, []))
        as [start result]. cbn [fst snd] in IH.
      destruct IH as [Hs [Hstart [Hsteps Hres]]].
      cbv zeta.
      assert (Estep :
                step (start, result) (1 + Z.of_nat k)
                = if (1 + Z.of_nat k =? Z.of_nat (length lineHits))
                     || (keyAt key lineHits (1 + Z.of_nat k)
                         >? keyAt key lineHits (1 + Z.of_nat k - 1) + 1)
                  then (1 + Z.of_nat k,
                        if 1 + Z.of_nat k - start >=? 2
                        then result
                             ++ [mkGroup dir (slice start (1 + Z.of_nat k)
                                                    lineHits)]
                        else result)
                  else (start, result)) by reflexivity.
      rewrite Estep. clear Estep.
      destruct ((1 + Z.of_nat k =? Z.of_nat (length lineHits))
                || (keyAt key lineHits (1 + Z.of_nat k)
                    >? keyAt key lineHits (1 + Z.of_nat k - 1) + 1))
        eqn:E; cbn [fst snd].
      + apply orb_true_iff in E. rewrite Z.eqb_eq, Z.gtb_ltb, Z.ltb_lt in E.
        split; [lia|]. split; [destruct E; [right; left; lia|right; right; lia]|].
        split; [intros j Hj; lia|].
        destruct (1 + Z.of_nat k - start >=? 2) eqn:E2; [|assumption].
        rewrite Z.geb_le in E2.
        apply Forall_app. split; [assumption|].
        apply Forall_cons; [|apply Forall_nil].
        split; [reflexivity|]. exists start, (1 + Z.of_nat k). cbn [coordinates].
        repeat split; try lia.
        intros j Hj. apply Hsteps. lia.
      + apply orb_false_iff in E. rewrite Z.eqb_neq, Z.gtb_ltb, Z.ltb_ge in E.
        split; [lia|]. split; [assumption|]. split; [|assumption].
        intros j Hj. destruct (Z.eq_dec j (1 + Z.of_nat k)) as [->|Hne].
        * lia.
        * apply Hsteps. lia. }
  intros Hg.
  specialize (Hinv (length lineHits) ltac:(lia)). cbv zeta in Hinv.
  replace (1 + Z.of_nat (length lineHits))
    with (Z.of_nat (length lineHits) + 1) in Hinv by lia.
  destruct Hinv as [_ [_ [_ Hres]]]. rewrite Forall_forall in Hres.
  now apply Hres.
Qed.
End Runs.

Lemma slice_as_map {A : Type} (s e : Z) (l : list A) (d : A) :
  0 <= s -> s <= e <= Z.of_nat (length l) ->
  slice s e l = map (fun i => nth (Z.to_nat (s + i)) l d) (range 0 (e - s)).
Proof.
  intros Hs He.
  apply (nth_ext _ _ d (nth (Z.to_nat (s + 0)) l d)).
  - rewrite length_slice by assumption.
    rewrite length_map, length_range. f_equal. lia.
  - intros t Ht. rewrite length_slice in Ht by assumption.
    rewrite nth_slice by lia.
    rewrite (map_nth (fun i => nth (Z.to_nat (s + i)) l d)).
    unfold range.
    rewrite (nth_indep _ 0 (0 + Z.of_nat 0))
      by (rewrite length_map, length_seq; lia).
    rewrite (map_nth (fun k => 0 + Z.of_nat k)).
    rewrite seq_nth by lia. f_equal. lia.
Qed.

(** *** The groups of one direction *)

Section Line.
Variables (dir : Direction) (lk sk : Coordinate -> Z)
          (mk : Z -> Z -> Coordinate).
Hypothesis mk_eta : forall x, mk (lk x) (sk x) = x.
Hypothesis lk_mk : forall a b, lk (mk a b) = a.
Hypothesis sk_mk : forall a b, sk (mk a b) = b.

Lemma lineGroups_runs (hits : list Coordinate) (g : AlignedGroup) :
  NoDup hits -> In g (lineGroups dir lk sk hits) ->
  direction g = dir /\
  exists start len,
    2 <= len /\
    coordinates g
    = map (fun i => mk (lk start) (sk start + i)) (range 0 len) /\
    (forall rc, In rc (coordinates g) -> In rc hits) /\
    ~ In (mk (lk start) (sk start - 1)) hits /\
    ~ In (mk (lk start) (sk start + len)) hits.
Proof.
  intros Hnd Hg. unfold lineGroups in Hg.
  apply in_flat_map in Hg. destruct Hg as [[k vs] [Hentry Hg]].
  cbn [snd] in Hg. cbv zeta in Hg.
  destruct (Z.of_nat (length vs) <? 2); [contradiction|].
  destruct (Grouped_groupByKey lk hits Hnd) as [_ [_ Hgr]].
  destruct (Hgr k vs Hentry) as [Hvs Hmem]. clear Hgr Hentry.
  set (l := sortBy sk vs) in *.
  assert (Hl : forall x, In x l <-> In x hits /\ lk x = k).
  { intros x. unfold l. now rewrite sortBy_In, Hmem. }
  assert (Hndl : NoDup l) by now apply NoDup_sortBy.
  assert (Hasc : ascending (map sk l)) by apply ascending_sortBy.
  assert (Hkey : forall t : nat,
             (t < length l)%nat -> nth t (map sk l) 0 = sk (nth t l (0, 0))).
  { intros t Ht.
    rewrite (nth_indep _ 0 (sk (0, 0))) by now rewrite length_map.
    apply map_nth. }
  assert (Hmono : forall i j : nat,
             (i <= j)%nat -> (j < length l)%nat ->
             sk (nth i l (0, 0)) <= sk (nth j l (0, 0))).
  { intros i j Hij Hj. rewrite <- !Hkey by lia.
    apply ascending_nth; [assumption|lia|now rewrite length_map]. }
  assert (Hline : forall t : nat,
             (t < length l)%nat -> lk (nth t l (0, 0)) = k).
  { intros t Ht. apply Hl. now apply nth_In. }
  assert (Hstrict : forall i j : nat,
             (i < j)%nat -> (j < length l)%nat ->
             sk (nth i l (0, 0)) < sk (nth j l (0, 0))).
  { intros i j Hij Hj.
    pose proof (Hmono i j ltac:(lia) Hj) as Hle.
    destruct (Z.eq_dec (sk (nth i l (0, 0))) (sk (nth j l (0, 0)))) as [E|];
      [|lia].
    exfalso.
    assert (Eij : nth i l (0, 0) = nth j l (0, 0)).
    { rewrite <- (mk_eta (nth i l (0, 0))), <- (mk_eta (nth j l (0, 0))).
      rewrite E, !Hline by lia. reflexivity. }
    apply (proj1 (NoDup_nth l (0, 0)) Hndl) in Eij; lia. }
  apply consecutiveRuns_closed in Hg.
  destruct Hg as [Hdir [s [e [Hs [He [Hco [Hfirst [Hlast Hsteps]]]]]]]].
  fold l in He, Hco, Hfirst, Hlast, Hsteps.
  split; [assumption|].
  assert (Hat : forall t : nat,
             Z.of_nat t < e - s ->
             keyAt sk l (s + Z.of_nat t) = keyAt sk l s + Z.of_nat t).
  { induction t as [|t IH]; intros Ht.
    - replace (s + Z.of_nat 0) with s by lia. cbn. lia.
    - specialize (IH ltac:(lia)).
      pose proof (Hsteps (s + Z.of_nat (Datatypes.S t)) ltac:(lia)) as Hup.
      replace (s + Z.of_nat (Datatypes.S t) - 1) with (s + Z.of_nat t) in Hup
        by lia.
      pose proof (Hstrict (Z.to_nat (s + Z.of_nat t))
                          (Z.to_nat (s + Z.of_nat (Datatypes.S t)))
                          ltac:(lia) ltac:(lia)) as Hlt.
      unfold keyAt in *. lia. }
  exists (nth (Z.to_nat s) l (0, 0)), (e - s).
  rewrite (Hline (Z.to_nat s)) by lia.
  fold (keyAt sk l s).
  split; [lia|]. split; [|split; [|split]].
  - rewrite Hco. rewrite (slice_as_map s e l (0, 0)) by lia.
    apply map_ext_in. intros i Hi. apply in_range in Hi.
    rewrite <- (mk_eta (nth (Z.to_nat (s + i)) l (0, 0))).
    rewrite Hline by lia. f_equal.
    pose proof (Hat (Z.to_nat i) ltac:(lia)) as E.
    rewrite Z2Nat.id in E by lia. exact E.
  - intros rc Hrc. rewrite Hco in Hrc. apply slice_In in Hrc.
    now apply Hl in Hrc.
  - intros Hb.
    assert (Hbl : In (mk k (keyAt sk l s - 1)) l)
      by (apply Hl; split; [assumption|apply lk_mk]).
    apply (In_nth _ _ (0, 0)) in Hbl. destruct Hbl as [t [Ht Et]].
    pose proof (f_equal sk Et) as Hsk. rewrite sk_mk in Hsk.
    destruct (Nat.le_gt_cases (Z.to_nat s) t) as [Hge|Hlt].
    + pose proof (Hmono (Z.to_nat s) t Hge Ht). unfold keyAt, Coordinate in *. lia.
    + destruct Hfirst as [->|Hjump]; [lia|].
      pose proof (Hmono t (Z.to_nat (s - 1)) ltac:(lia) ltac:(lia)).
      unfold keyAt, Coordinate in *. lia.
  - intros Ha.
    assert (Hal : In (mk k (keyAt sk l s + (e - s))) l)
      by (apply Hl; split; [assumption|apply lk_mk]).
    apply (In_nth _ _ (0, 0)) in Hal. destruct Hal as [t [Ht Et]].
    pose proof (f_equal sk Et) as Hsk. rewrite sk_mk in Hsk.
    pose proof (Hat (Z.to_nat (e - s - 1)) ltac:(lia)) as Hend.
    rewrite Z2Nat.id in Hend by lia.
    replace (s + (e - s - 1)) with (e - 1) in Hend by lia.
    destruct (Nat.le_gt_cases (Z.to_nat e) t) as [Hge|Hlt].
    + destruct Hlast as [->|Hjump]; [unfold Coordinate in *; lia|].
      pose proof (Hmono (Z.to_nat e) t Hge Ht). unfold keyAt, Coordinate in *. lia.
    + pose proof (Hmono t (Z.to_nat (e - 1)) ltac:(lia) ltac:(lia)).
      unfold keyAt, Coordinate in *. lia.
Qed.
End Line.

(** X6.  For a list of hits without repeated entries, every group of aligned
    hits is a straight run of two or more cells, all of them hits, laid out
    along the direction of the group in ascending order, and the run is
    maximal: the cell before its first cell and the cell after its last
    cell are not hits. *)
Theorem aligned_groups_are_maximal_runs (hits : list Coordinate)
  (g : AlignedGroup) :
  NoDup hits -> In g (findAlignedHits hits) ->
  exists start len,
    2 <= len /\
    coordinates g = placementAt (direction g) start len /\
    (forall rc, In rc (coordinates g) -> In rc hits) /\
    ~ In (cellAt (direction g) start (-1)) hits /\
    ~ In (cellAt (direction g) start len) hits.
Proof.
  intros Hnd Hg. unfold findAlignedHits in Hg.
  apply in_app_or in Hg. destruct Hg as [Hg|Hg].
  - apply (lineGroups_runs horizontal fst snd (fun a b => (a, b))) in Hg;
      [|intros []; reflexivity|reflexivity|reflexivity|assumption].
    destruct Hg as [-> [start [len H]]]. exists start, len. exact H.
  - apply (lineGroups_runs vertical snd fst (fun a b => (b, a))) in Hg;
      [|intros []; reflexivity|reflexivity|reflexivity|assumption].
    destruct Hg as [-> [start [len H]]]. exists start, len. exact H.
Qed.

Lemma aligned_groups_are_maximal_runs_witness :
  let hits : list Coordinate := [(2, 3); (5, 5); (2, 4)] in
  let g := mkGroup horizontal [(2, 3); (2, 4)] in
  exists start len,
    2 <= len /\
    coordinates g = placementAt (direction g) start len /\
    (forall rc, In rc (coordinates g) -> In rc hits) /\
    ~ In (cellAt (direction g) start (-1)) hits /\
    ~ In (cellAt (direction g) start len) hits.
Proof.
  apply (aligned_groups_are_maximal_runs [(2, 3); (5, 5); (2, 4)]
           (mkGroup horizontal [(2, 3); (2, 4)])).
  - repeat constructor; cbn; intuition congruence.
  - vm_compute. left. reflexivity.
Defined.


(** ** The cells next to the hits *)

Lemma fold_left_map {A B C : Type} (f : A -> B -> A) (g : C -> B)
  (l : list C) (a : A) :
  fold_left f (map g l) a = fold_left (fun a x => f a (g x)) l a.
Proof. revert a. induction l as [|x l IH]; intros a; cbn; auto. Qed.

Lemma fold_left_flat_map {A B C : Type} (f : A -> B -> A) (g : C -> list B)
  (l : list C) (a : A) :
  fold_left f (flat_map g l) a
  = fold_left (fun a x => fold_left f (g x) a) l a.
Proof.
  revert a. induction l as [|x l IH]; intros a; cbn [flat_map fold_left];
    [reflexivity|].
  now rewrite fold_left_app, IH.
Qed.

Lemma fold_left_ext {A B : Type} (f g : A -> B -> A) (l : list B) (a : A) :
  (forall a x, f a x = g a x) -> fold_left f l a = fold_left g l a.
Proof.
  intros H. revert a. induction l as [|x l IH]; intros a; cbn; [reflexivity|].
  now rewrite H, IH.
Qed.

(** Collecting the cells that pass a test, each one once. *)
Lemma collect_once (good : Coordinate -> bool) (cands acc : list Coordinate) :
  NoDup acc ->
  let result :=
    fold_left (fun acc c =>
                 if good c
                 then if negb (isCoordinateInList c acc) then acc ++ [c]
                      else acc
                 else acc)
              cands acc in
  NoDup result /\
  forall rc, In rc result <-> In rc acc \/ (In rc cands /\ good rc = true).
Proof.
  cbv zeta. revert acc. induction cands as [|c cands IH]; intros acc Hnd;
    cbn [fold_left].
  - split; [assumption|]. intros rc. cbn. tauto.
  - destruct (good c) eqn:Eg.
    + destruct (isCoordinateInList c acc) eqn:Ein; cbn [negb].
      * apply isCoordinateInList_In in Ein.
        destruct (IH acc Hnd) as [H1 H2]. split; [assumption|].
        intros rc. rewrite H2. cbn [In]. split.
        -- intros [H|[H1' H2']]; auto.
        -- intros [H|[[<-|H] Hg]]; auto.
      * assert (Hfresh : ~ In c acc).
        { intros H. apply isCoordinateInList_In in H. congruence. }
        destruct (IH (acc ++ [c])) as [H1 H2].
        { apply NoDup_app; [assumption|constructor; [intros []|constructor]|].
          intros x Hx [<-|[]]. contradiction. }
        split; [assumption|].
        intros rc. rewrite H2, in_app_iff. cbn [In]. split.
        -- intros [[H|[<-|[]]]|[H Hg]]; auto.
        -- intros [H|[[<-|H] Hg]]; auto.
    + destruct (IH acc Hnd) as [H1 H2]. split; [assumption|].
      intros rc. rewrite H2. cbn [In]. split.
      * intros [H|[H1' H2']]; auto.
      * intros [H|[[<-|H] Hg]]; auto. congruence.
Qed.

Lemma getAdjacentCells_collects (h w : Z) (hits misses : list Coordinate) :
  getAdjacentCells h w hits misses
  = fold_left
      (fun acc c =>
         if (fst c >=? 0) && (fst c <? h) && (snd c >=? 0) && (snd c <? w)
            && (negb (isCoordinateInList c hits)
                && negb (isCoordinateInList c misses))
         then if negb (isCoordinateInList c acc) then acc ++ [c] else acc
         else acc)
      (flat_map neighbours hits) [].
Proof.
  unfold getAdjacentCells. rewrite fold_left_flat_map.
  apply fold_left_ext. intros acc hit.
  unfold neighbours. rewrite fold_left_map.
  apply fold_left_ext. clear acc. intros acc d. cbv zeta. cbn [fst snd].
  destruct ((fst hit + fst d >=? 0) && (fst hit + fst d <? h)
            && (snd hit + snd d >=? 0) && (snd hit + snd d <? w));
    cbn [andb]; [|reflexivity].
  destruct (isCoordinateInList _ hits), (isCoordinateInList _ misses);
    reflexivity.
Qed.

(** X7.  The list of adjacent cells holds no cell twice, and a cell is in it
    exactly when it lies on the board, is neither a hit nor a miss, and is
    one step up, right, down or left of some hit. *)
Theorem adjacent_cells_are_the_open_neighbours (h w : Z)
  (hits misses : list Coordinate) :
  NoDup (getAdjacentCells h w hits misses) /\
  forall rc,
    In rc (getAdjacentCells h w hits misses) <->
    inBoard h w rc /\ ~ In rc hits /\ ~ In rc misses /\
    exists hit, In hit hits /\ In rc (neighbours hit).
Proof.
  rewrite getAdjacentCells_collects.
  destruct (collect_once
              (fun c =>
                 (fst c >=? 0) && (fst c <? h) && (snd c >=? 0) && (snd c <? w)
                 && (negb (isCoordinateInList c hits)
                     && negb (isCoordinateInList c misses)))
              (flat_map neighbours hits) []) as [Hnd Hin]; [constructor|].
  cbv zeta in Hnd, Hin. split; [exact Hnd|].
  intros rc. rewrite Hin. cbn [In]. rewrite in_flat_map.
  rewrite !andb_true_iff, !negb_true_iff, Z.geb_le, Z.geb_le, !Z.ltb_lt.
  rewrite <- !not_true_iff_false, !isCoordinateInList_In.
  unfold inBoard. intuition.
Qed.

(** ** The ends of the aligned groups *)

Lemma sortBy_ascending {A : Type} (key : A -> Z) (l : list A) :
  ascending (map key l) -> sortBy key l = l.
Proof.
  induction l as [|x l IH]; intros H; [reflexivity|].
  cbn [sortBy fold_right]. fold (sortBy key l).
  cbn [map] in H. rewrite IH by now apply ascending_tail in H.
  destruct l as [|y l]; [reflexivity|].
  cbn [map ascending] in H. destruct H as [Hxy _].
  cbn [insertBy]. apply Z.leb_le in Hxy. now rewrite Hxy.
Qed.

Lemma ascending_map_range (f : Z -> Z) (lo hi : Z) :
  (forall i, f i <= f (i + 1)) -> ascending (map f (range lo hi)).
Proof.
  intros Hf.
  remember (Z.to_nat (hi - lo)) as k eqn:Ek. revert lo Ek.
  induction k as [|k IH]; intros lo Ek.
  - rewrite range_nil by lia. exact I.
  - rewrite range_cons by lia. cbn [map].
    specialize (IH (lo + 1) ltac:(lia)).
    destruct k as [|k].
    + rewrite range_nil by lia. exact I.
    + rewrite range_cons in * by lia. cbn [map ascending] in *.
      split; [apply Hf|exact IH].
Qed.

Lemma hd_map_range {A : Type} (f : Z -> A) (len : Z) (d : A) :
  1 <= len -> hd d (map f (range 0 len)) = f 0.
Proof. intros H. rewrite range_cons by lia. reflexivity. Qed.

Lemma last_map_range {A : Type} (f : Z -> A) (len : Z) (d : A) :
  1 <= len -> last (map f (range 0 len)) d = f (len - 1).
Proof.
  intros H. replace len with (len - 1 + 1) at 1 by lia.
  rewrite range_snoc by lia. rewrite map_app. cbn [map]. apply last_last.
Qed.

Lemma getExtensionPoints_row (row col len h w : Z) (misses : list Coordinate)
  (ext : Coordinate) :
  1 <= len ->
  In ext (getExtensionPoints (map (fun i => (row, col + i)) (range 0 len))
                             horizontal h w misses) ->
  (ext = (row, col - 1) \/ ext = (row, col + len)) /\ ~ In ext misses.
Proof.
  intros Hlen. unfold getExtensionPoints. cbv zeta.
  rewrite sortBy_ascending
    by (rewrite map_map; apply ascending_map_range; intros i; cbn; lia).
  rewrite hd_map_range, last_map_range by assumption. cbn [fst snd].
  replace (col + 0) with col by lia.
  replace (col + (len - 1) + 1) with (col + len) by lia.
  intros Hin. apply in_app_or in Hin.
  destruct Hin as [Hin|Hin];
    match type of Hin with
    | In _ (if ?b && negb ?c then _ else _) =>
      destruct b; cbn [andb] in Hin; [|contradiction];
        destruct c eqn:Em; cbn [negb] in Hin; [contradiction|];
          destruct Hin as [<-|[]]
    end;
    (split; [auto|]); intros Hm; apply isCoordinateInList_In in Hm; congruence.
Qed.

Lemma getExtensionPoints_column (row col len h w : Z)
  (misses : list Coordinate) (ext : Coordinate) :
  1 <= len ->
  In ext (getExtensionPoints (map (fun i => (row + i, col)) (range 0 len))
                             vertical h w misses) ->
  (ext = (row - 1, col) \/ ext = (row + len, col)) /\ ~ In ext misses.
Proof.
  intros Hlen. unfold getExtensionPoints. cbv zeta.
  rewrite sortBy_ascending
    by (rewrite map_map; apply ascending_map_range; intros i; cbn; lia).
  rewrite hd_map_range, last_map_range by assumption. cbn [fst snd].
  replace (row + 0) with row by lia.
  replace (row + (len - 1) + 1) with (row + len) by lia.
  intros Hin. apply in_app_or in Hin.
  destruct Hin as [Hin|Hin];
    match type of Hin with
    | In _ (if ?b && negb ?c then _ else _) =>
      destruct b; cbn [andb] in Hin; [|contradiction];
        destruct c eqn:Em; cbn [negb] in Hin; [contradiction|];
          destruct Hin as [<-|[]]
    end;
    (split; [auto|]); intros Hm; apply isCoordinateInList_In in Hm; congruence.
Qed.

(** An extension point of an aligned group is neither a hit nor a miss. *)
Lemma group_extension_untargeted (h w : Z) (hits misses : list Coordinate)
  (g : AlignedGroup) (ext : Coordinate) :
  NoDup hits -> In g (findAlignedHits hits) ->
  In ext (getExtensionPoints (coordinates g) (direction g) h w misses) ->
  ~ In ext hits /\ ~ In ext misses.
Proof.
  intros Hnd Hg Hext. unfold findAlignedHits in Hg.
  apply in_app_or in Hg. destruct Hg as [Hg|Hg].
  - apply (lineGroups_runs horizontal fst snd (fun a b => (a, b))) in Hg;
      [|intros []; reflexivity|reflexivity|reflexivity|assumption].
    destruct Hg as [Hdir [start [len [Hlen [Hco [_ [Hbefore Hafter]]]]]]].
    rewrite Hdir, Hco in Hext.
    apply getExtensionPoints_row in Hext; [|lia].
    destruct Hext as [[-> | ->] Hm]; auto.
  - apply (lineGroups_runs vertical snd fst (fun a b => (b, a))) in Hg;
      [|intros []; reflexivity|reflexivity|reflexivity|assumption].
    destruct Hg as [Hdir [start [len [Hlen [Hco [_ [Hbefore Hafter]]]]]]].
    rewrite Hdir, Hco in Hext.
    apply getExtensionPoints_column in Hext; [|lia].
    destruct Hext as [[-> | ->] Hm]; auto.
Qed.

Lemma group_length (hits : list Coordinate) (g : AlignedGroup) :
  NoDup hits -> In g (findAlignedHits hits) ->
  2 <= Z.of_nat (length (coordinates g)).
Proof.
  intros Hnd Hg. unfold findAlignedHits in Hg.
  apply in_app_or in Hg. destruct Hg as [Hg|Hg];
    [apply (lineGroups_runs horizontal fst snd (fun a b => (a, b))) in Hg
    |apply (lineGroups_runs vertical snd fst (fun a b => (b, a))) in Hg];
    try (intros []; reflexivity); try reflexivity; try assumption;
    destruct Hg as [_ [start [len [Hlen [Hco _]]]]];
    rewrite Hco, length_map, length_range; lia.
Qed.

(** X8.  For hits on the board and listed once, every extension point of
    every aligned group is a cell that can still be shot at: it lies on the
    board and is neither a hit nor a miss. *)
Theorem extension_points_are_open_cells (h w : Z)
  (hits misses : list Coordinate) (g : AlignedGroup) (ext : Coordinate) :
  NoDup hits -> Forall (inBoard h w) hits ->
  In g (findAlignedHits hits) ->
  In ext (getExtensionPoints (coordinates g) (direction g) h w misses) ->
  inBoard h w ext /\ ~ In ext hits /\ ~ In ext misses.
Proof.
  intros Hnd Hon Hg Hext. split.
  - pose proof (extensions_onBoard h w hits misses g Hon Hg) as H.
    rewrite Forall_forall in H. now apply H.
  - now apply (group_extension_untargeted h w hits misses g).
Qed.

Lemma extension_points_are_open_cells_witness :
  let hits : list Coordinate := [(2, 3); (2, 4)] in
  let ext : Coordinate := (2, 2) in
  inBoard 10 10 ext /\ ~ In ext hits /\ ~ In ext [(2, 5)].
Proof.
  apply (extension_points_are_open_cells 10 10 [(2, 3); (2, 4)] [(2, 5)]
           (mkGroup horizontal [(2, 3); (2, 4)]) (2, 2)).
  - repeat constructor; cbn; intuition congruence.
  - repeat constructor; cbn; lia.
  - vm_compute. left. reflexivity.
  - vm_compute. left. reflexivity.
Defined.

(** X9.  For hits on the board and listed once, potential completions exist
    only for a ship size of three or more, and each of them is a cell that
    can still be shot at. *)
Theorem completions_are_open_cells (h w : Z) (hits misses : list Coordinate)
  (shipSize : Z) (rc : Coordinate) :
  NoDup hits -> Forall (inBoard h w) hits ->
  In rc (findPotentialCompletions h w hits misses shipSize) ->
  3 <= shipSize /\ inBoard h w rc /\ ~ In rc hits /\ ~ In rc misses.
Proof.
  intros Hnd Hon Hin. unfold findPotentialCompletions in Hin.
  apply in_flat_map in Hin. destruct Hin as [g [Hg Hin]]. cbv zeta in Hin.
  pose proof (group_length hits g Hnd Hg) as Hlen.
  destruct (Z.of_nat (length (coordinates g)) >=? shipSize);
    [contradiction|].
  destruct (Z.of_nat (length (coordinates g)) =? shipSize - 1) eqn:E;
    [|contradiction].
  apply Z.eqb_eq in E. split; [lia|]. split.
  - pose proof (extensions_onBoard h w hits misses g Hon Hg) as H.
    rewrite Forall_forall in H. now apply H.
  - now apply (group_extension_untargeted h w hits misses g).
Qed.

Lemma completions_are_open_cells_witness :
  let hits : list Coordinate := [(2, 3); (2, 4)] in
  let rc : Coordinate := (2, 2) in
  3 <= 3 /\ inBoard 10 10 rc /\ ~ In rc hits /\ ~ In rc [(2, 5)].
Proof.
  apply (completions_are_open_cells 10 10 [(2, 3); (2, 4)] [(2, 5)] 3 (2, 2)).
  - repeat constructor; cbn; intuition congruence.
  - repeat constructor; cbn; lia.
  - vm_compute. left. reflexivity.
Defined.


(** ** Adjacent hits end up in one group *)

Lemma In_slice {A : Type} (s e : Z) (l : list A) (d : A) (t : Z) :
  0 <= s -> s <= t < e -> e <= Z.of_nat (length l) ->
  In (nth (Z.to_nat t) l d) (slice s e l).
Proof.
  intros Hs Ht He.
  replace (Z.to_nat t) with (Z.to_nat s + Z.to_nat (t - s))%nat by lia.
  rewrite <- (nth_slice s e l d) by lia.
  apply nth_In. rewrite length_slice by lia. lia.
Qed.

Section RunsCover.
Variables (dir : Direction) (key : Coordinate -> Z) (lineHits : list Coordinate).

(** Two neighbours in the line whose keys do not jump are put in one run. *)
Lemma consecutiveRuns_covers (t : Z) :
  0 <= t -> t + 1 < Z.of_nat (length lineHits) ->
  keyAt key lineHits (t + 1) <= keyAt key lineHits t + 1 ->
  exists g,
    In g (consecutiveRuns dir key lineHits) /\
    In (nth (Z.to_nat t) lineHits (0, 0)) (coordinates g) /\
    In (nth (Z.to_nat (t + 1)) lineHits (0, 0)) (coordinates g).
Proof.
  intros Ht0 Htn Hnojump.
  unfold consecutiveRuns. cbv zeta.
  set (step := fun (st : Z * list AlignedGroup) i =>
                 let (start, result) := st in
                 if (i =? Z.of_nat (length lineHits))
                    || (key (nth (Z.to_nat i) lineHits (0, 0))
                        >? key (nth (Z.to_nat (i - 1)) lineHits (0, 0)) + 1)
                 then (i, if i - start >=? 2
                          then result ++ [mkGroup dir (slice start i lineHits)]
                          else result)
                 else (start, result)).
  assert (Hinv : forall k : nat,
             Z.of_nat k <= Z.of_nat (length lineHits) ->
             let st := fold_left step (range 1 (1 + Z.of_nat k)) (0, []) in
             0 <= fst st <= Z.of_nat k /\
             (Z.of_nat k = Z.of_nat (length lineHits) ->
              fst st = Z.of_nat (length lineHits)) /\
             (fst st = 0 \/ fst st = Z.of_nat (length lineHits)
              \/ keyAt key lineHits (fst st)
                 > keyAt key lineHits (fst st - 1) + 1) /\
             (t + 1 < fst st ->
              exists g,
                In g (snd st) /\
                In (nth (Z.to_nat t) lineHits (0, 0)) (coordinates g) /\
                In (nth (Z.to_nat (t + 1)) lineHits (0, 0)) (coordinates g))).
  { induction k as [|k IH]; intros Hk.
    - rewrite range_nil by lia. cbn [fold_left fst snd].
      repeat split; try lia.
    - replace (1 + Z.of_nat (Datatypes.S k)) with (1 + Z.of_nat k + 1) by lia.
      rewrite range_snoc by lia. rewrite fold_left_app. cbn [fold_left].
      specialize (IH ltac:(lia)). cbv zeta in IH.
      destruct (fold_left step (range 1 (1 + Z.of_nat k)) (0, []))
        as [start result]. cbn [fst snd] in IH.
      destruct IH as [Hs [_ [Hstart Hcov]]].
      cbv zeta.
      assert (Estep :
                step (start, result) (1 + Z.of_nat k)
                = if (1 + Z.of_nat k =? Z.of_nat (length lineHits))
                     || (keyAt key lineHits (1 + Z.of_nat k)
                         >? keyAt key lineHits (1 + Z.of_nat k - 1) + 1)
                  then (1 + Z.of_nat k,
                        if 1 + Z.of_nat k - start >=? 2
                        then result
                             ++ [mkGroup dir (slice start (1 + Z.of_nat k)
                                                    lineHits)]
                        else result)
                  else (start, result)) by reflexivity.
      rewrite Estep. clear Estep.
      destruct ((1 + Z.of_nat k =? Z.of_nat (length lineHits))
                || (keyAt key lineHits (1 + Z.of_nat k)
                    >? keyAt key lineHits (1 + Z.of_nat k - 1) + 1))
        eqn:E; cbn [fst snd].
      + apply orb_true_iff in E. rewrite Z.eqb_eq, Z.gtb_ltb, Z.ltb_lt in E.
        split; [lia|]. split; [lia|].
        split; [destruct E; [right; left; lia|right; right; lia]|].
        intros Hlt.
        destruct (Z_lt_dec (t + 1) start) as [Hold|Hnew].
        * destruct (Hcov Hold) as [g [Hg Hin]]. exists g.
          split; [|exact Hin].
          destruct (1 + Z.of_nat k - start >=? 2);
            [apply in_or_app; now left|assumption].
        * assert (Hne : t + 1 <> start).
          { intros Heq. rewrite <- Heq in Hstart.
            replace (t + 1 - 1) with t in Hstart by lia. lia. }
          replace (1 + Z.of_nat k - start >=? 2) with true
            by (symmetry; apply Z.geb_le; lia).
          exists (mkGroup dir (slice start (1 + Z.of_nat k) lineHits)).
          split; [apply in_or_app; right; now left|].
          cbn [coordinates]. split; apply In_slice; lia.
      + apply orb_false_iff in E. rewrite Z.eqb_neq, Z.gtb_ltb, Z.ltb_ge in E.
        split; [lia|]. split; [lia|]. split; assumption. }
  specialize (Hinv (length lineHits) ltac:(lia)). cbv zeta in Hinv.
  replace (1 + Z.of_nat (length lineHits))
    with (Z.of_nat (length lineHits) + 1) in Hinv by lia.
  destruct Hinv as [_ [Hend [_ Hcov]]].
  apply Hcov. rewrite Hend by reflexivity. lia.
Qed.
End RunsCover.

Section LineCover.
Variables (dir : Direction) (lk sk : Coordinate -> Z)
          (mk : Z -> Z -> Coordinate).
Hypothesis mk_eta : forall x, mk (lk x) (sk x) = x.

Lemma lineGroups_cover (hits : list Coordinate) (x y : Coordinate) :
  NoDup hits -> In x hits -> In y hits ->
  lk y = lk x -> sk y = sk x + 1 ->
  exists g,
    In g (lineGroups dir lk sk hits) /\
    In x (coordinates g) /\ In y (coordinates g).
Proof.
  intros Hnd Hx Hy Hlk Hsk.
  destruct (Grouped_groupByKey lk hits Hnd) as [_ [Hkeys Hgr]].
  pose proof (Hkeys x Hx) as Hentry. apply in_map_iff in Hentry.
  destruct Hentry as [[k vs] [Ek Hentry]]. cbn [fst] in Ek. subst k.
  destruct (Hgr _ vs Hentry) as [Hvs Hmem].
  set (l := sortBy sk vs).
  assert (Hl : forall z, In z l <-> In z hits /\ lk z = lk x).
  { intros z. unfold l. now rewrite sortBy_In, Hmem. }
  assert (Hlen : length l = length vs) by apply length_sortBy.
  assert (Hasc : ascending (map sk l)) by apply ascending_sortBy.
  assert (Hmono : forall i j : nat,
             (i <= j)%nat -> (j < length l)%nat ->
             sk (nth i l (0, 0)) <= sk (nth j l (0, 0))).
  { intros i j Hij Hj.
    assert (Hkey : forall t : nat,
               (t < length l)%nat ->
               nth t (map sk l) 0 = sk (nth t l (0, 0))).
    { intros t Ht.
      rewrite (nth_indep _ 0 (sk (0, 0))) by now rewrite length_map.
      apply map_nth. }
    rewrite <- !Hkey by lia.
    apply ascending_nth; [assumption|lia|now rewrite length_map]. }
  assert (Hxl : In x l) by (apply Hl; auto).
  assert (Hyl : In y l) by (apply Hl; auto).
  apply (In_nth _ _ (0, 0)) in Hxl, Hyl.
  destruct Hxl as [t [Ht Et]], Hyl as [u [Hu Eu]].
  unfold Coordinate in *.
  assert (Htu : u = Datatypes.S t).
  { destruct (Nat.le_gt_cases u t) as [Hle|Hgt].
    - pose proof (Hmono u t Hle Ht) as H. rewrite Et, Eu in H. lia.
    - destruct (Nat.eq_dec u (Datatypes.S t)) as [|Hne]; [assumption|].
      exfalso.
      pose proof (Hmono t (Datatypes.S t) ltac:(lia) ltac:(lia)) as H1.
      pose proof (Hmono (Datatypes.S t) u ltac:(lia) ltac:(lia)) as H2.
      rewrite Et in H1. rewrite Eu in H2.
      assert (Hmid : In (nth (Datatypes.S t) l (0, 0)) l)
        by (apply nth_In; lia).
      apply Hl in Hmid. destruct Hmid as [_ Hmid].
      assert (Hcase : sk (nth (Datatypes.S t) l (0, 0)) = sk x \/
                      sk (nth (Datatypes.S t) l (0, 0)) = sk y) by lia.
      assert (Hndl : NoDup l) by now apply NoDup_sortBy.
      destruct Hcase as [Hc|Hc].
      + assert (E : nth (Datatypes.S t) l (0, 0) = nth t l (0, 0)).
        { rewrite Et. rewrite <- (mk_eta x), <- Hc, <- Hmid. apply eq_sym, mk_eta. }
        apply (proj1 (NoDup_nth l (0, 0)) Hndl) in E; lia.
      + assert (E : nth (Datatypes.S t) l (0, 0) = nth u l (0, 0)).
        { rewrite Eu. rewrite <- (mk_eta y), <- Hc, Hlk, <- Hmid.
          apply eq_sym, mk_eta. }
        apply (proj1 (NoDup_nth l (0, 0)) Hndl) in E; lia. }
  subst u.
  destruct (consecutiveRuns_covers dir sk l (Z.of_nat t)) as [g [Hg [H1 H2]]].
  - lia.
  - unfold Coordinate in *. lia.
  - unfold keyAt, Coordinate.
    replace (Z.to_nat (Z.of_nat t + 1)) with (Datatypes.S t) by lia.
    rewrite Nat2Z.id. rewrite Et, Eu. lia.
  - exists g. unfold Coordinate in *.
    replace (Z.to_nat (Z.of_nat t + 1)) with (Datatypes.S t) in H2 by lia.
    rewrite Nat2Z.id in H1. rewrite Et in H1. rewrite Eu in H2.
    split; [|split; assumption].
    unfold lineGroups. apply in_flat_map. exists (lk x, vs).
    split; [assumption|]. cbn [snd]. cbv zeta.
    match goal with
    | |- In g (if ?b then _ else _) => destruct b eqn:E; [|exact Hg]
    end.
    apply Z.ltb_lt in E. unfold Coordinate in *. lia.
Qed.
End LineCover.

Lemma neighbours_cases (x y : Coordinate) :
  In y (neighbours x) <->
  (fst y = fst x /\ (snd y = snd x + 1 \/ snd x = snd y + 1)) \/
  (snd y = snd x /\ (fst y = fst x + 1 \/ fst x = fst y + 1)).
Proof.
  destruct x as [r c], y as [r' c']. unfold neighbours, ADJACENT_DIRECTIONS.
  cbn [map In fst snd]. split.
  - intros [H|[H|[H|[H|[]]]]]; inversion H; subst; lia.
  - intros [[-> [-> | H]]|[-> [-> | H]]].
    + right. left. f_equal; lia.
    + right. right. right. left. f_equal; lia.
    + right. right. left. f_equal; lia.
    + left. f_equal; lia.
Qed.

Lemma findAlignedHits_cover (hits : list Coordinate) (x y : Coordinate) :
  NoDup hits -> In x hits -> In y hits -> In y (neighbours x) ->
  exists g,
    In g (findAlignedHits hits) /\
    In x (coordinates g) /\ In y (coordinates g).
Proof.
  intros Hnd Hx Hy Hxy. apply neighbours_cases in Hxy.
  unfold findAlignedHits.
  destruct Hxy as [[Hrow [Hcol|Hcol]]|[Hcol [Hrow|Hrow]]].
  - destruct (lineGroups_cover horizontal fst snd (fun a b => (a, b))
                ltac:(intros []; reflexivity) hits x y)
      as [g [Hg [H1 H2]]]; auto.
    exists g. split; [apply in_or_app; now left|auto].
  - destruct (lineGroups_cover horizontal fst snd (fun a b => (a, b))
                ltac:(intros []; reflexivity) hits y x)
      as [g [Hg [H1 H2]]]; auto.
    exists g. split; [apply in_or_app; now left|auto].
  - destruct (lineGroups_cover vertical snd fst (fun a b => (b, a))
                ltac:(intros []; reflexivity) hits x y)
      as [g [Hg [H1 H2]]]; auto.
    exists g. split; [apply in_or_app; now right|auto].
  - destruct (lineGroups_cover vertical snd fst (fun a b => (b, a))
                ltac:(intros []; reflexivity) hits y x)
      as [g [Hg [H1 H2]]]; auto.
    exists g. split; [apply in_or_app; now right|auto].
Qed.

(** A cell of an aligned group has a neighbour in the group. *)
Lemma group_cell_has_neighbour (hits : list Coordinate) (g : AlignedGroup)
  (x : Coordinate) :
  NoDup hits -> In g (findAlignedHits hits) -> In x (coordinates g) ->
  exists y, In y (neighbours x) /\ In y (coordinates g).
Proof.
  intros Hnd Hg Hx. unfold findAlignedHits in Hg.
  apply in_app_or in Hg. destruct Hg as [Hg|Hg];
    [apply (lineGroups_runs horizontal fst snd (fun a b => (a, b))) in Hg
    |apply (lineGroups_runs vertical snd fst (fun a b => (b, a))) in Hg];
    try (intros []; reflexivity); try reflexivity; try assumption;
    destruct Hg as [_ [start [len [Hlen [Hco _]]]]];
    rewrite Hco in *; apply in_map_iff in Hx;
    destruct Hx as [i [<- Hi]]; apply in_range in Hi;
    destruct (Z_lt_dec (i + 1) len) as [Hnext|Hlast].
  - exists (fst start, snd start + (i + 1)). split.
    + apply neighbours_cases. cbn. lia.
    + apply in_map_iff. exists (i + 1). split; [reflexivity|apply in_range; lia].
  - exists (fst start, snd start + (i - 1)). split.
    + apply neighbours_cases. cbn. lia.
    + apply in_map_iff. exists (i - 1). split; [reflexivity|apply in_range; lia].
  - exists (fst start + (i + 1), snd start). split.
    + apply neighbours_cases. cbn. lia.
    + apply in_map_iff. exists (i + 1). split; [reflexivity|apply in_range; lia].
  - exists (fst start + (i - 1), snd start). split.
    + apply neighbours_cases. cbn. lia.
    + apply in_map_iff. exists (i - 1). split; [reflexivity|apply in_range; lia].
Qed.

(** X10.  In a list of hits without repeated entries, two hits that are next
    to each other, one step apart in a row or in a column, are always put
    together in one aligned group. *)
Theorem adjacent_hits_share_a_group (hits : list Coordinate)
  (x y : Coordinate) :
  NoDup hits -> In x hits -> In y hits -> In y (neighbours x) ->
  exists g,
    In g (findAlignedHits hits) /\
    In x (coordinates g) /\ In y (coordinates g) /\
    2 <= Z.of_nat (length (coordinates g)).
Proof.
  intros Hnd Hx Hy Hxy.
  destruct (findAlignedHits_cover hits x y Hnd Hx Hy Hxy) as [g [Hg [H1 H2]]].
  exists g. repeat split; auto. now apply (group_length hits).
Qed.

Lemma adjacent_hits_share_a_group_witness :
  let hits : list Coordinate := [(4, 4); (1, 1); (3, 4)] in
  exists g,
    In g (findAlignedHits hits) /\
    In (4, 4) (coordinates g) /\ In (3, 4) (coordinates g) /\
    2 <= Z.of_nat (length (coordinates g)).
Proof.
  apply (adjacent_hits_share_a_group [(4, 4); (1, 1); (3, 4)] (4, 4) (3, 4)).
  - repeat constructor; cbn; intuition congruence.
  - cbn. auto.
  - cbn. auto.
  - cbn. auto.
Defined.

(** ** The analysis shown to the player *)

Lemma existsb_flat_map {A B : Type} (f : B -> bool) (g : A -> list B)
  (l : list A) :
  existsb f (flat_map g l) = existsb (fun x => existsb f (g x)) l.
Proof.
  induction l as [|x l IH]; cbn [flat_map existsb]; [reflexivity|].
  now rewrite existsb_app, IH.
Qed.

Lemma analyzeHitPatterns_active (hits : list Coordinate)
  (sunkShips : list SunkShip) :
  filter (fun hit =>
            negb (existsb (fun ship => isCoordinateInList hit (positions ship))
                          sunkShips))
         hits
  = getActiveHits hits sunkShips.
Proof.
  unfold getActiveHits. cbv zeta. apply filter_ext. intros hit.
  now rewrite existsb_flat_map.
Qed.

Lemma getActiveHits_In (hits : list Coordinate) (sunkShips : list SunkShip)
  (x : Coordinate) :
  In x (getActiveHits hits sunkShips) <->
  In x hits /\ forall ship, In ship sunkShips -> ~ In x (positions ship).
Proof.
  rewrite <- analyzeHitPatterns_active. rewrite filter_In, negb_true_iff.
  rewrite <- not_true_iff_false, existsb_exists. split.
  - intros [Hx Hno]. split; [assumption|]. intros ship Hship Hin.
    apply Hno. exists ship. split; [assumption|].
    now apply isCoordinateInList_In.
  - intros [Hx Hno]. split; [assumption|]. intros [ship [Hship Hin]].
    apply isCoordinateInList_In in Hin. now apply (Hno ship).
Qed.

(** X11.  The analysis behind the messages to the player works on the same
    active hits as the engine, the hits outside every sunk ship.  For hits
    listed once, its aligned groups are those of the active hits, and its
    isolated hits are exactly the active hits that have no active hit one
    step up, right, down or left of them. *)
Theorem isolated_hits_have_no_active_neighbour (hits : list Coordinate)
  (sunkShips : list SunkShip) :
  NoDup hits ->
  let activeHits := getActiveHits hits sunkShips in
  fst (analyzeHitPatterns hits sunkShips) = findAlignedHits activeHits /\
  forall x,
    In x (snd (analyzeHitPatterns hits sunkShips)) <->
    In x activeHits /\
    forall y, In y (neighbours x) -> ~ In y activeHits.
Proof.
  intros Hnd. cbv zeta. unfold analyzeHitPatterns. cbv zeta. cbn [fst snd].
  rewrite analyzeHitPatterns_active.
  split; [reflexivity|].
  assert (Hact : NoDup (getActiveHits hits sunkShips))
    by (unfold getActiveHits; now apply NoDup_filter).
  intros x. rewrite filter_In, negb_true_iff.
  rewrite <- not_true_iff_false, existsb_exists. split.
  - intros [Hx Hno]. split; [assumption|]. intros y Hy Hyact.
    destruct (findAlignedHits_cover _ x y Hact Hx Hyact Hy)
      as [g [Hg [H1 _]]].
    apply Hno. exists g. split; [assumption|]. now apply isCoordinateInList_In.
  - intros [Hx Hno]. split; [assumption|]. intros [g [Hg Hin]].
    apply isCoordinateInList_In in Hin.
    destruct (group_cell_has_neighbour _ g x Hact Hg Hin) as [y [Hy Hyg]].
    apply (Hno y Hy).
    pose proof (findAlignedHits_groups (getActiveHits hits sunkShips)
                  (fun rc => In rc (getActiveHits hits sunkShips))
                  ltac:(apply Forall_forall; auto)) as Hall.
    rewrite Forall_forall in Hall.
    destruct (Hall g Hg) as [Hsub _].
    rewrite Forall_forall in Hsub. now apply Hsub.
Qed.

Lemma isolated_hits_have_no_active_neighbour_witness :
  let hits : list Coordinate := [(0, 0); (0, 1); (5, 5); (5, 6); (8, 8)] in
  let sunkShips := [mkSunkShip 2 [(0, 0); (0, 1)]] in
  let activeHits := getActiveHits hits sunkShips in
  fst (analyzeHitPatterns hits sunkShips) = findAlignedHits activeHits /\
  forall x,
    In x (snd (analyzeHitPatterns hits sunkShips)) <->
    In x activeHits /\
    forall y, In y (neighbours x) -> ~ In y activeHits.
Proof.
  apply (isolated_hits_have_no_active_neighbour
           [(0, 0); (0, 1); (5, 5); (5, 6); (8, 8)]
           [mkSunkShip 2 [(0, 0); (0, 1)]]).
  repeat constructor; cbn; intuition congruence.
Defined.

(** ** Modes that coincide *)

(** X12.  NORMAL and TARGETING are one mode: on all inputs, with or without
    hits, the engine returns the same map for both.  With hits NORMAL is
    switched to TARGETING; without hits the adjacency bonus of the default
    branch has no cell to work on and TARGETING returns at once. *)
Theorem normal_mode_is_targeting_mode (h w : Z)
  (hits misses : list Coordinate) (remainingShips : list Z)
  (sunkShips : list SunkShip) :
  calculateProbabilityMap h w hits misses remainingShips NORMAL sunkShips
  = calculateProbabilityMap h w hits misses remainingShips TARGETING sunkShips.
Proof.
  unfold calculateProbabilityMap, heuristicMap.
  destruct remainingShips as [|s ships]; [reflexivity|].
  destruct hits as [|hit hits]; reflexivity.
Qed.

(** ** Normalizing twice *)

Lemma normalized_by_one (s x : Q) : (s == 1)%Q -> (normalized s x == x)%Q.
Proof.
  intros Hs. unfold normalized. destruct (Qpos x); [|reflexivity].
  rewrite Hs. unfold Qdiv. change (/ 1)%Q with 1%Q. apply Qmult_1_r.
Qed.

(** X13.  Normalizing a map of the board's shape a second time changes
    nothing: every cell keeps the value the first normalization gave it. *)
Theorem normalizeMap_idempotent (m : ProbabilityMap) (h w : Z)
  (rc : Coordinate) :
  hasDims h w m ->
  (prob (normalizeMap (normalizeMap m h w) h w) rc
   == prob (normalizeMap m h w) rc)%Q.
Proof.
  intros Hdims.
  pose proof (normalizeMap_unfold m h w) as Hunfold.
  destruct ((snd (positiveMass m h w) =? 0)
            || Qeq_bool (fst (positiveMass m h w)) 0) eqn:E.
  - rewrite Hunfold, Hunfold. reflexivity.
  - clear Hunfold. apply orb_false_iff in E. destruct E as [E1 E2].
    apply Z.eqb_neq in E1.
    assert (Hcount : 0 < snd (positiveMass m h w))
      by (rewrite positiveMass_count in *; lia).
    assert (Hmass : (0 < fst (positiveMass m h w))%Q).
    { pose proof (positiveMass_nonneg m h w) as Hge.
      apply Qle_lt_or_eq in Hge. destruct Hge as [Hlt|Heq]; [assumption|].
      exfalso. apply Qeq_sym in Heq. apply Qeq_bool_iff in Heq. congruence. }
    pose proof (normalized_mass h w m Hdims Hmass Hcount) as Hone.
    assert (Hdims' : hasDims h w (normalizeMap m h w))
      by now apply Pass_normalizeMap.
    assert (Hmass' : (0 < fst (positiveMass (normalizeMap m h w) h w))%Q)
      by (rewrite Hone; reflexivity).
    assert (Hcount' : 0 < snd (positiveMass (normalizeMap m h w) h w)).
    { rewrite positiveMass_count.
      destruct (filter _ _) as [|c cells] eqn:Ef; [|cbn [length]; lia].
      exfalso. rewrite positiveMass_sum in Hmass'.
      rewrite (Qsum_map_ext _ (fun _ => 0%Q)) in Hmass'.
      - clear - Hmass'. induction (boardCells h w) as [|x l IH];
          cbn in Hmass'; [discriminate|]. apply IH.
        now rewrite Qplus_0_l in Hmass'.
      - intros x Hx. unfold posPart.
        destruct (Qpos (prob (normalizeMap m h w) x)) eqn:Ep; [|reflexivity].
        assert (Hin : In x (filter (fun rc => Qpos (prob (normalizeMap m h w) rc))
                                   (boardCells h w)))
          by (apply filter_In; now split).
        rewrite Ef in Hin. contradiction. }
    rewrite (prob_normalizeMap h w (normalizeMap m h w) Hdims' Hmass' Hcount').
    now apply normalized_by_one.
Qed.

Lemma normalizeMap_idempotent_witness :
  let m : ProbabilityMap := [[1 # 4; 0]; [1 # 2; 1 # 4]]%Q in
  let rc : Coordinate := (1, 0) in
  (prob (normalizeMap (normalizeMap m 2 2) 2 2) rc
   == prob (normalizeMap m 2 2) rc)%Q.
Proof.
  apply (normalizeMap_idempotent [[1 # 4; 0]; [1 # 2; 1 # 4]]%Q 2 2 (1, 0)).
  vm_compute. repeat split; constructor; try reflexivity;
    repeat constructor.
Defined.


(** ** The opening map *)

Lemma calculateProbabilityMap_nonneg (h w : Z) (hits misses : list Coordinate)
  (remainingShips : list Z) (mode : ProbabilityMode) (sunkShips : list SunkShip)
  (rc : Coordinate) :
  (0 <= prob (calculateProbabilityMap h w hits misses remainingShips mode
                                      sunkShips) rc)%Q.
Proof.
  destruct (calculateProbabilityMap_cases h w hits misses remainingShips mode
              sunkShips) as [[-> _]|[-> _]].
  - rewrite prob_mkGrid_zero. discriminate.
  - apply (Keeps_nonneg_applyStrategy (effectiveMode mode hits) h w hits
             misses remainingShips sunkShips).
    apply nonNegative_base.
Qed.

Lemma fitting_ship_opens_the_corner (h w len : Z) (remainingShips : list Z)
  (mode : ProbabilityMode) (sunkShips : list SunkShip) :
  0 < h -> 0 < w -> 0 < len -> In len remainingShips ->
  len <= h \/ len <= w ->
  let corner : Coordinate := (0, 0) in
  (0 < prob (calculateProbabilityMap h w [] [] remainingShips mode sunkShips)
            corner)%Q.
Proof.
  intros Hh Hw Hlen Hin Hfit corner.
  assert (Hp : exists dir,
             In (placementAt dir corner len)
                (generateValidPlacements h w len [] [] sunkShips)).
  { destruct Hfit as [Hfit|Hfit]; [exists vertical|exists horizontal];
      apply generateValidPlacements_In;
      [exists vertical, corner|exists horizontal, corner];
      cbn [fst snd corner];
      (split; [reflexivity|]); (split; [lia|]);
      (split; [intros rc _ []|reflexivity]). }
  destruct Hp as [dir Hp].
  apply positive_iff_base. cbv zeta. split; [intros ->; contradiction|].
  apply positive_base. split; [intros []|].
  exists (placementAt dir corner len). split.
  - unfold survivingPlacements. apply in_flat_map. now exists len.
  - apply in_placementAt. destruct dir; cbn; lia.
Qed.

(** X14.  On a board of positive dimensions with no hit and no miss, and for
    remaining ships of positive length, the engine returns the all-zero map
    exactly when no remaining ship fits the board in either orientation; in
    every mode. *)
Theorem opening_map_is_zero_iff_no_ship_fits (h w : Z)
  (remainingShips : list Z) (mode : ProbabilityMode)
  (sunkShips : list SunkShip) :
  0 < h -> 0 < w -> (forall len, In len remainingShips -> 0 < len) ->
  ((forall rc,
       (prob (calculateProbabilityMap h w [] [] remainingShips mode sunkShips)
             rc == 0)%Q)
   <-> forall len, In len remainingShips -> h < len /\ w < len).
Proof.
  intros Hh Hw Hpos. split.
  - intros Hzero len Hlen. specialize (Hpos len Hlen).
    destruct (Z_lt_dec h len) as [Hhl|Hhl], (Z_lt_dec w len) as [Hwl|Hwl];
      [auto| | |]; exfalso;
      pose proof (fitting_ship_opens_the_corner h w len remainingShips mode
                    sunkShips Hh Hw Hpos Hlen ltac:(lia)) as Hcell;
      cbv zeta in Hcell; rewrite Hzero in Hcell;
      now apply Qlt_irrefl in Hcell.
  - intros Hnofit rc. apply Qle_antisym; [|apply calculateProbabilityMap_nonneg].
    apply Qnot_lt_le. intros Hcell.
    apply positive_iff_base in Hcell. cbv zeta in Hcell.
    destruct Hcell as [_ Hcell]. apply positive_base in Hcell.
    destruct Hcell as [_ [p [Hp _]]]. unfold survivingPlacements in Hp.
    apply in_flat_map in Hp. destruct Hp as [len [Hlen Hp]].
    apply generateValidPlacements_In in Hp.
    destruct Hp as [dir [start [_ [Hb _]]]].
    specialize (Hnofit len Hlen). specialize (Hpos len Hlen).
    destruct dir; lia.
Qed.

Lemma opening_map_is_zero_iff_no_ship_fits_witness :
  let remainingShips : list Z := [6] in
  (forall rc,
      (prob (calculateProbabilityMap 5 5 [] [] remainingShips NORMAL []) rc
       == 0)%Q)
  <-> forall len, In len remainingShips -> 5 < len /\ 5 < len.
Proof.
  apply (opening_map_is_zero_iff_no_ship_fits 5 5 [6] NORMAL []);
    [lia|lia|].
  intros len [<-|[]]. lia.
Defined.

(** ** The checkerboard of HUNTING mode *)

Lemma odd_sum_test (x : Z) : 0 <= x -> (Z.rem x 2 =? 1) = Z.odd x.
Proof.
  intros Hx. rewrite Z.rem_mod_nonneg by lia. rewrite Zmod_odd.
  now destruct (Z.odd x).
Qed.

Lemma prob_applyCheckerboardPattern (m : ProbabilityMap) (h w : Z)
  (rc : Coordinate) :
  hasDims h w m -> inBoard h w rc ->
  prob (applyCheckerboardPattern m h w) rc
  = if Z.odd (fst rc + snd rc) then boost (1 # 2) (prob m rc) else prob m rc.
Proof.
  intros Hdims Hin. unfold applyCheckerboardPattern.
  rewrite (prob_guardedFold (fun rc => Z.rem (fst rc + snd rc) 2 =? 1)
                            (boost (1 # 2)))
    by (destruct Hin; now apply (inGrid_hasDims h w)).
  rewrite odd_sum_test by (destruct Hin; lia).
  destruct (Z.odd (fst rc + snd rc)); [|reflexivity].
  rewrite count_occ_NoDup by apply NoDup_boardCells.
  replace (isCoordinateInList rc (boardCells h w)) with true; [reflexivity|].
  symmetry. apply isCoordinateInList_In. now apply in_boardCells.
Qed.

(** X15.  In HUNTING mode a cell with an odd coordinate sum comes out at half
    the value of a cell with an even coordinate sum that has the same base
    probability. *)
Theorem hunting_halves_the_odd_cells (h w : Z) (hits misses : list Coordinate)
  (remainingShips : list Z) (sunkShips : list SunkShip)
  (a b : Coordinate) :
  let tally := tallyPlacements h w hits misses remainingShips sunkShips in
  let base := baseProbabilities h w hits misses (fst tally) (snd tally) in
  let result :=
    calculateProbabilityMap h w hits misses remainingShips HUNTING sunkShips in
  inBoard h w a -> inBoard h w b ->
  Z.even (fst a + snd a) = true -> Z.odd (fst b + snd b) = true ->
  (prob base a == prob base b)%Q ->
  (prob result b == prob result a * (1 # 2))%Q.
Proof.
  cbv zeta. intros Ha Hb Heven Hodd Hab.
  pose proof (nonNegative_base h w hits misses remainingShips sunkShips)
    as Hnonneg. cbv zeta in Hnonneg.
  destruct (calculateProbabilityMap_cases h w hits misses remainingShips
              HUNTING sunkShips) as [[-> _]|[-> _]].
  { rewrite !prob_mkGrid_zero. reflexivity. }
  replace (effectiveMode HUNTING hits) with HUNTING by now destruct hits.
  cbn [applyStrategy].
  set (base := baseProbabilities h w hits misses
                 (fst (tallyPlacements h w hits misses remainingShips sunkShips))
                 (snd (tallyPlacements h w hits misses remainingShips sunkShips)))
    in *.
  assert (Hbase : hasDims h w base) by apply hasDims_baseProbabilities.
  assert (Hpre : hasDims h w (applyCheckerboardPattern base h w))
    by now apply Pass_applyCheckerboardPattern.
  assert (Ea : prob (applyCheckerboardPattern base h w) a = prob base a).
  { rewrite prob_applyCheckerboardPattern by assumption.
    rewrite <- Z.negb_even, Heven. reflexivity. }
  assert (Eb : prob (applyCheckerboardPattern base h w) b
               = boost (1 # 2) (prob base b)).
  { rewrite prob_applyCheckerboardPattern by assumption. now rewrite Hodd. }
  destruct (Qlt_le_dec 0 (prob base a)) as [Hpos|Hzero].
  - assert (Hposb : (0 < prob base b)%Q) by now rewrite <- Hab.
    destruct (boost_positive (1 # 2) (prob base b) ltac:(reflexivity) Hposb)
      as [Eboost Hboost].
    assert (Hprea : (0 < prob (applyCheckerboardPattern base h w) a)%Q)
      by now rewrite Ea.
    destruct (positiveMass_positive _ h w a Ha Hprea) as [Hmass Hcount].
    rewrite !(prob_normalizeMap h w _ Hpre Hmass Hcount).
    rewrite Ea, Eb, Eboost. unfold normalized.
    replace (Qpos (prob base a)) with true by (symmetry; now apply Qpos_true).
    replace (Qpos (prob base b * (1 # 2))) with true
      by (symmetry; now apply Qpos_true).
    rewrite Hab. unfold Qdiv. ring.
  - assert (Eza : (prob base a == 0)%Q) by (apply Qle_antisym; auto).
    assert (Ezb : (prob base b == 0)%Q) by now rewrite <- Hab.
    destruct (Pass_normalizeMap h w) as [_ Hzeros].
    rewrite (Hzeros _ a) by now rewrite Ea.
    rewrite (Hzeros _ b).
    + reflexivity.
    + rewrite Eb. rewrite boost_nonneg by (rewrite Ezb; discriminate).
      rewrite Ezb. reflexivity.
Qed.

Lemma hunting_halves_the_odd_cells_witness :
  let remainingShips : list Z := [2] in
  let a : Coordinate := (1, 1) in
  let b : Coordinate := (1, 2) in
  let tally := tallyPlacements 4 4 [] [] remainingShips [] in
  let base := baseProbabilities 4 4 [] [] (fst tally) (snd tally) in
  let result := calculateProbabilityMap 4 4 [] [] remainingShips HUNTING [] in
  (prob result b == prob result a * (1 # 2))%Q.
Proof.
  apply (hunting_halves_the_odd_cells 4 4 [] [] [2] [] (1, 1) (1, 2)).
  - unfold inBoard. cbn. lia.
  - unfold inBoard. cbn. lia.
  - reflexivity.
  - reflexivity.
  - vm_compute. reflexivity.
Defined.

(** ** The base map on any board *)

(** X16.  Before the heuristic passes, every cell of the board that is neither
    a hit nor a miss holds the number of surviving placements that cover it
    divided by the number of all surviving placements, the placements being
    those of all remaining ships taken together. *)
Theorem base_probability_is_the_share_of_covering_placements (h w : Z)
  (hits misses : list Coordinate) (remainingShips : list Z)
  (sunkShips : list SunkShip) (rc : Coordinate) :
  inBoard h w rc -> ~ In rc hits -> ~ In rc misses ->
  let tally := tallyPlacements h w hits misses remainingShips sunkShips in
  let base := baseProbabilities h w hits misses (fst tally) (snd tally) in
  let placements :=
    survivingPlacements h w hits misses remainingShips sunkShips in
  let covering :=
    filter (fun placement => isCoordinateInList rc placement) placements in
  prob base rc
  = (inject_Z (Z.of_nat (length covering))
     / inject_Z (Z.of_nat (length placements)))%Q.
Proof.
  intros Hin Hhit Hmiss. cbv zeta.
  rewrite prob_baseProbabilities by assumption.
  replace (isCoordinateInList rc hits) with false
    by (symmetry; apply not_true_is_false; intros E;
        now apply isCoordinateInList_In in E).
  replace (isCoordinateInList rc misses) with false
    by (symmetry; apply not_true_is_false; intros E;
        now apply isCoordinateInList_In in E).
  cbn [orb]. destruct rc as [r c]. cbn [fst snd].
  destruct (tally_counts h w hits misses remainingShips sunkShips r c Hin)
    as [Ecnt Etotal]. cbv zeta in Ecnt, Etotal.
  now rewrite Ecnt, Etotal.
Qed.

Lemma base_probability_is_the_share_of_covering_placements_witness :
  let hits : list Coordinate := [(1, 1)] in
  let misses : list Coordinate := [(0, 0)] in
  let remainingShips : list Z := [2; 3] in
  let rc : Coordinate := (1, 2) in
  let tally := tallyPlacements 4 4 hits misses remainingShips [] in
  let base := baseProbabilities 4 4 hits misses (fst tally) (snd tally) in
  let placements := survivingPlacements 4 4 hits misses remainingShips [] in
  let covering :=
    filter (fun placement => isCoordinateInList rc placement) placements in
  prob base rc
  = (inject_Z (Z.of_nat (length covering))
     / inject_Z (Z.of_nat (length placements)))%Q.
Proof.
  apply (base_probability_is_the_share_of_covering_placements 4 4
           [(1, 1)] [(0, 0)] [2; 3] [] (1, 2)).
  - unfold inBoard. cbn. lia.
  - cbn. intuition congruence.
  - cbn. intuition congruence.
Defined.

(** ** Sunk ships in OPTIMIZED mode *)

(** X17.  In OPTIMIZED mode the engine uses the sunk ships only to tell the
    active hits from the others: two lists of sunk ships that leave the same
    active hits, whatever the lengths and positions they record, give the
    same map. *)
Theorem sunk_ships_act_through_the_active_hits (h w : Z)
  (hits misses : list Coordinate) (remainingShips : list Z)
  (sunkShips sunkShips' : list SunkShip) :
  getActiveHits hits sunkShips = getActiveHits hits sunkShips' ->
  calculateProbabilityMap h w hits misses remainingShips OPTIMIZED sunkShips
  = calculateProbabilityMap h w hits misses remainingShips OPTIMIZED sunkShips'.
Proof.
  intros Hactive. unfold calculateProbabilityMap, heuristicMap.
  destruct remainingShips as [|s ships]; [reflexivity|].
  change (tallyPlacements h w hits misses (s :: ships) sunkShips')
    with (tallyPlacements h w hits misses (s :: ships) sunkShips).
  destruct (tallyPlacements h w hits misses (s :: ships) sunkShips)
    as [cnt total].
  destruct (total =? 0); [reflexivity|].
  replace (effectiveMode OPTIMIZED hits) with OPTIMIZED by now destruct hits.
  cbn [applyStrategy]. unfold applyOptimizedStrategy. cbv zeta.
  now rewrite Hactive.
Qed.

Lemma sunk_ships_act_through_the_active_hits_witness :
  let hits : list Coordinate := [(0, 0); (0, 1); (3, 3)] in
  let remainingShips : list Z := [3] in
  calculateProbabilityMap 5 5 hits [] remainingShips OPTIMIZED
    [mkSunkShip 2 [(0, 0); (0, 1)]]
  = calculateProbabilityMap 5 5 hits [] remainingShips OPTIMIZED
      [mkSunkShip 5 [(0, 1); (0, 0); (4, 4)]].
Proof.
  apply (sunk_ships_act_through_the_active_hits 5 5
           [(0, 0); (0, 1); (3, 3)] [] [3]
           [mkSunkShip 2 [(0, 0); (0, 1)]]
           [mkSunkShip 5 [(0, 1); (0, 0); (4, 4)]]).
  reflexivity.
Defined.

(** ** How often a placement is listed *)

Lemma candidate_NoDup (isMiss : Coordinate -> bool) (hits : list Coordinate)
  (placement : list Coordinate) :
  NoDup (candidate isMiss hits placement).
Proof.
  unfold candidate. destruct (_ && _); [|constructor].
  constructor; [intros []|constructor].
Qed.

Lemma run_head {A : Type} (f : Z -> A) (len : Z) :
  0 < len -> map f (range 0 len) = f 0 :: map f (range 1 len).
Proof. intros H. rewrite range_cons by lia. reflexivity. Qed.

Lemma run_second {A : Type} (f : Z -> A) (len : Z) :
  1 < len -> map f (range 0 len) = f 0 :: f 1 :: map f (range 2 len).
Proof.
  intros H. rewrite range_cons by lia. rewrite (range_cons (0 + 1)) by lia.
  reflexivity.
Qed.

Lemma NoDup_candidates (isMiss : Coordinate -> bool) (hits : list Coordinate)
  (run : Z -> Z -> list Coordinate) (rows cols : list Z) :
  NoDup rows -> NoDup cols ->
  (forall row col row' col', run row col = run row' col' ->
                             row = row' /\ col = col') ->
  NoDup (flat_map (fun row =>
                     flat_map (fun col => candidate isMiss hits (run row col))
                              cols)
                  rows).
Proof.
  intros Hrows Hcols Hinj. apply NoDup_flat_map; [assumption| |].
  - intros row _. apply NoDup_flat_map; [assumption| |].
    + intros col _. apply candidate_NoDup.
    + intros col col' p _ _ Hp Hp'.
      apply candidate_In in Hp, Hp'. destruct Hp as [-> _], Hp' as [E _].
      now apply Hinj in E.
  - intros row row' p _ _ Hp Hp'.
    apply in_flat_map in Hp, Hp'.
    destruct Hp as [col [_ Hp]], Hp' as [col' [_ Hp']].
    apply candidate_In in Hp, Hp'. destruct Hp as [-> _], Hp' as [E _].
    now apply Hinj in E.
Qed.

(** X18.  The enumerator lists every surviving placement of a ship of length
    two or more exactly once.  For a ship of length one it lists every
    surviving placement exactly twice, once as a horizontal and once as a
    vertical placement. *)
Theorem placements_are_listed_once_or_twice (h w len : Z)
  (hits misses : list Coordinate) (sunkShips : list SunkShip)
  (p : list Coordinate) :
  0 < len ->
  In p (generateValidPlacements h w len hits misses sunkShips) ->
  count_occ (list_eq_dec coord_eq_dec)
            (generateValidPlacements h w len hits misses sunkShips) p
  = if len =? 1 then 2%nat else 1%nat.
Proof.
  intros Hlen. unfold generateValidPlacements. cbv zeta.
  set (isMiss := fun coord => isCoordinateInList coord misses).
  set (H := flat_map
              (fun row =>
                 flat_map
                   (fun col =>
                      candidate isMiss hits
                        (map (fun i => (row, col + i)) (range 0 len)))
                   (range 0 (w - len + 1)))
              (range 0 h)).
  set (V := flat_map
              (fun row =>
                 flat_map
                   (fun col =>
                      candidate isMiss hits
                        (map (fun i => (row + i, col)) (range 0 len)))
                   (range 0 w))
              (range 0 (h - len + 1))).
  assert (HndH : NoDup H).
  { apply (NoDup_candidates isMiss hits
             (fun row col => map (fun i => (row, col + i)) (range 0 len)));
      try apply NoDup_range.
    intros row col row' col' E. rewrite !run_head in E by assumption.
    inversion E. lia. }
  assert (HndV : NoDup V).
  { apply (NoDup_candidates isMiss hits
             (fun row col => map (fun i => (row + i, col)) (range 0 len)));
      try apply NoDup_range.
    intros row col row' col' E. rewrite !run_head in E by assumption.
    inversion E. lia. }
  assert (HinH : forall q,
             In q H <->
             exists row col,
               In row (range 0 h) /\ In col (range 0 (w - len + 1)) /\
               In q (candidate isMiss hits
                       (map (fun i => (row, col + i)) (range 0 len)))).
  { intros q. unfold H. rewrite in_flat_map. split.
    - intros [row [Hrow Hq]]. apply in_flat_map in Hq.
      destruct Hq as [col [Hcol Hq]]. now exists row, col.
    - intros [row [col [Hrow [Hcol Hq]]]]. exists row. split; [assumption|].
      apply in_flat_map. now exists col. }
  assert (HinV : forall q,
             In q V <->
             exists row col,
               In row (range 0 (h - len + 1)) /\ In col (range 0 w) /\
               In q (candidate isMiss hits
                       (map (fun i => (row + i, col)) (range 0 len)))).
  { intros q. unfold V. rewrite in_flat_map. split.
    - intros [row [Hrow Hq]]. apply in_flat_map in Hq.
      destruct Hq as [col [Hcol Hq]]. now exists row, col.
    - intros [row [col [Hrow [Hcol Hq]]]]. exists row. split; [assumption|].
      apply in_flat_map. now exists col. }
  assert (Hone : forall l, NoDup l -> In p l ->
                           count_occ (list_eq_dec coord_eq_dec) l p = 1%nat).
  { intros l Hnd Hin.
    pose proof (proj1 (NoDup_count_occ (list_eq_dec coord_eq_dec) l) Hnd p).
    apply (count_occ_In (list_eq_dec coord_eq_dec)) in Hin. lia. }
  assert (Hnone : forall l, ~ In p l ->
                            count_occ (list_eq_dec coord_eq_dec) l p = 0%nat)
    by (intros l; apply count_occ_not_In).
  intros Hp. rewrite count_occ_app.
  destruct (len =? 1) eqn:E.
  - apply Z.eqb_eq in E. subst len.
    assert (Hsame : In p H <-> In p V).
    { rewrite HinH, HinV.
      replace (w - 1 + 1) with w by lia. replace (h - 1 + 1) with h by lia.
      split; intros [row [col [Hrow [Hcol Hq]]]]; exists row, col;
        (split; [assumption|]); (split; [assumption|]);
        change (range 0 1) with [0] in *; cbn [map] in *;
        rewrite ?Z.add_0_r in *; assumption. }
    apply in_app_or in Hp.
    assert (HpH : In p H) by (destruct Hp; [assumption|now apply Hsame]).
    assert (HpV : In p V) by now apply Hsame.
    rewrite (Hone H), (Hone V) by assumption. reflexivity.
  - apply Z.eqb_neq in E.
    assert (Hdisj : In p H -> ~ In p V).
    { rewrite HinH, HinV.
      intros [row [col [_ [_ Hq]]]] [row' [col' [_ [_ Hq']]]].
      apply candidate_In in Hq, Hq'. destruct Hq as [-> _], Hq' as [E' _].
      rewrite !run_second in E' by lia. inversion E'. lia. }
    apply in_app_or in Hp. destruct Hp as [Hp|Hp].
    + rewrite (Hone H), (Hnone V); auto.
    + rewrite (Hnone H), (Hone V); auto. intros HpH. now apply Hdisj in HpH.
Qed.

Lemma placements_are_listed_once_or_twice_witness :
  let p : list Coordinate := [(1, 1)] in
  let misses : list Coordinate := [(0, 0)] in
  count_occ (list_eq_dec coord_eq_dec)
            (generateValidPlacements 2 2 1 [] misses []) p
  = if 1 =? 1 then 2%nat else 1%nat.
Proof.
  apply (placements_are_listed_once_or_twice 2 2 1 [] [(0, 0)] [] [(1, 1)]).
  - lia.
  - vm_compute. auto.
Defined.

(** * Properties of the user interface *)

(** ** The highlighted best move *)

Lemma StronglySorted_app {A : Type} (R : A -> A -> Prop) (l1 l2 : list A) :
  StronglySorted R l1 -> StronglySorted R l2 ->
  (forall x y, In x l1 -> In y l2 -> R x y) ->
  StronglySorted R (l1 ++ l2).
Proof.
  induction l1 as [|a l1 IH]; intros H1 H2 H12; cbn [app]; [assumption|].
  inversion H1 as [|? ? Hs Ha]; subst. constructor.
  - apply IH; [assumption|assumption|]. intros x y Hx Hy.
    apply H12; [now right|assumption].
  - apply Forall_app. split; [assumption|].
    apply Forall_forall. intros y Hy. apply H12; [now left|assumption].
Qed.

Lemma StronglySorted_flat_map_range {A : Type} (R : A -> A -> Prop)
  (g : Z -> list A) (lo hi : Z) :
  (forall i, StronglySorted R (g i)) ->
  (forall i j x y, i < j -> In x (g i) -> In y (g j) -> R x y) ->
  StronglySorted R (flat_map g (range lo hi)).
Proof.
  intros Hg Hij.
  remember (Z.to_nat (hi - lo)) as k eqn:Ek. revert lo Ek.
  induction k as [|k IH]; intros lo Ek.
  - rewrite range_nil by lia. constructor.
  - rewrite range_cons by lia. cbn [flat_map].
    apply StronglySorted_app; [apply Hg|apply IH; lia|].
    intros x y Hx Hy. apply in_flat_map in Hy. destruct Hy as [j [Hj Hy]].
    apply in_range in Hj. apply (Hij lo j); [lia|assumption|assumption].
Qed.

Lemma boardCells_sorted (h w : Z) :
  StronglySorted scannedBefore (boardCells h w).
Proof.
  unfold boardCells. apply StronglySorted_flat_map_range.
  - intros r. rewrite <- (flat_map_singleton (fun c => (r, c))).
    apply StronglySorted_flat_map_range.
    + intros c. repeat constructor.
    + intros i j x y Hlt [<-|[]] [<-|[]]. right. cbn. lia.
  - intros i j x y Hlt Hx Hy. apply in_map_iff in Hx, Hy.
    destruct Hx as [c [<- _]], Hy as [c' [<- _]]. left. cbn. lia.
Qed.

Lemma StronglySorted_split {A : Type} (R : A -> A -> Prop)
  (p1 p2 : list A) (b : A) :
  StronglySorted R (p1 ++ b :: p2) ->
  (forall x, In x p1 -> R x b) /\ (forall x, In x p2 -> R b x).
Proof.
  induction p1 as [|a p1 IH]; cbn [app]; intros H;
    inversion H as [|? ? Hs Ha]; subst.
  - split; [intros x []|]. now rewrite Forall_forall in Ha.
  - destruct (IH Hs) as [H1 H2]. split; [|assumption].
    intros x [<-|Hx]; [|now apply H1].
    rewrite Forall_forall in Ha. apply Ha. apply in_or_app. right. now left.
Qed.

(** The scan of a list for the first strict maximum. *)
Lemma scan_first_maximum {A : Type} (ok : A -> bool) (val : A -> Q)
  (l done : list A) (mx : Q) (best : option A) :
  (forall x, In x l -> (-1 < val x)%Q) ->
  match best with
  | None => mx = (-1)%Q /\ forall x, In x done -> ok x = false
  | Some b =>
    mx = val b /\ ok b = true /\
    exists p1 p2,
      done = p1 ++ b :: p2 /\
      (forall x, In x p1 -> ok x = true -> (val x < val b)%Q) /\
      (forall x, In x p2 -> ok x = true -> (val x <= val b)%Q)
  end ->
  match snd (fold_left
               (fun (st : Q * option A) x =>
                  let (maxProb, bestMove) := st in
                  if ok x
                  then if negb (Qle_bool (val x) maxProb) then (val x, Some x)
                       else (maxProb, bestMove)
                  else (maxProb, bestMove))
               l (mx, best)) with
  | None => forall x, In x (done ++ l) -> ok x = false
  | Some b =>
    ok b = true /\
    exists p1 p2,
      done ++ l = p1 ++ b :: p2 /\
      (forall x, In x p1 -> ok x = true -> (val x < val b)%Q) /\
      (forall x, In x p2 -> ok x = true -> (val x <= val b)%Q)
  end.
Proof.
  revert done mx best. induction l as [|a l IH]; intros done mx best Hval Hinv.
  - cbn [fold_left snd]. rewrite app_nil_r. destruct best as [b|].
    + destruct Hinv as [_ [Hok Hsplit]]. split; assumption.
    + now destruct Hinv.
  - cbn [fold_left].
    replace (done ++ a :: l) with ((done ++ [a]) ++ l)
      by (rewrite <- app_assoc; reflexivity).
    assert (Hval' : forall x, In x l -> (-1 < val x)%Q)
      by (intros x Hx; apply Hval; now right).
    destruct (ok a) eqn:Eok;
      [destruct (Qle_bool (val a) mx) eqn:Ele; cbn [negb]|];
      (apply IH; [exact Hval'|]).
    + apply Qle_bool_iff in Ele. destruct best as [b|].
      * destruct Hinv as [-> [Hok [p1 [p2 [-> [H1 H2]]]]]].
        split; [reflexivity|]. split; [assumption|].
        exists p1, (p2 ++ [a]). split; [now rewrite <- app_assoc|].
        split; [assumption|]. intros x Hx Hokx.
        apply in_app_or in Hx. destruct Hx as [Hx|[<-|[]]]; auto.
      * destruct Hinv as [-> _]. exfalso.
        apply (Qle_not_lt _ _ Ele). apply Hval. now left.
    + assert (Hgt : (mx < val a)%Q).
      { apply Qnot_le_lt. intros Hle. apply Qle_bool_iff in Hle. congruence. }
      split; [reflexivity|]. split; [assumption|].
      exists done, []. split; [reflexivity|]. split; [|intros x []].
      intros x Hx Hokx. destruct best as [b|].
      * destruct Hinv as [-> [Hok [p1 [p2 [-> [H1 H2]]]]]].
        apply in_app_or in Hx. destruct Hx as [Hx|[<-|Hx]].
        -- apply Qlt_trans with (y := val b); auto.
        -- assumption.
        -- apply Qle_lt_trans with (y := val b); auto.
      * destruct Hinv as [_ Hnone]. rewrite (Hnone x Hx) in Hokx.
        discriminate.
    + destruct best as [b|].
      * destruct Hinv as [-> [Hok [p1 [p2 [-> [H1 H2]]]]]].
        split; [reflexivity|]. split; [assumption|].
        exists p1, (p2 ++ [a]). split; [now rewrite <- app_assoc|].
        split; [assumption|]. intros x Hx Hokx.
        apply in_app_or in Hx. destruct Hx as [Hx|[<-|[]]]; auto. congruence.
      * destruct Hinv as [-> Hnone]. split; [reflexivity|].
        intros x Hx. apply in_app_or in Hx. destruct Hx as [Hx|[<-|[]]]; auto.
Qed.

(** The scan of the board, cell by cell in row-major order. *)
Lemma findBestMove_scan (rows cols : Z) (board : list (list Cell)) :
  (forall rc, inBoard rows cols rc ->
              (-1 < probabilityOrZero (cellAtBoard board rc))%Q) ->
  match findBestMove true true rows cols board with
  | None =>
    forall rc, inBoard rows cols rc -> untargeted (cellAtBoard board rc) = false
  | Some best =>
    inBoard rows cols best /\
    untargeted (cellAtBoard board best) = true /\
    forall rc,
      inBoard rows cols rc -> untargeted (cellAtBoard board rc) = true ->
      (probabilityOrZero (cellAtBoard board rc)
       <= probabilityOrZero (cellAtBoard board best))%Q /\
      (scannedBefore rc best ->
       (probabilityOrZero (cellAtBoard board rc)
        < probabilityOrZero (cellAtBoard board best))%Q)
  end.
Proof.
  intros Hval. unfold findBestMove. cbn [negb orb].
  pose proof (scan_first_maximum
                (fun rc => untargeted (cellAtBoard board rc))
                (fun rc => probabilityOrZero (cellAtBoard board rc))
                (boardCells rows cols) [] (-1)%Q None) as Hscan.
  cbn [app] in Hscan.
  match type of Hscan with
  | _ -> _ -> match ?r with _ => _ end =>
    match goal with
    | |- match ?r' with _ => _ end => change r' with r
    end;
    destruct r as [best|]
  end.
  - destruct Hscan as [Hok [p1 [p2 [Hsplit [H1 H2]]]]].
    + intros x Hx. apply Hval. now apply in_boardCells.
    + split; [reflexivity|intros x []].
    + pose proof (boardCells_sorted rows cols) as Hsorted.
      rewrite Hsplit in Hsorted.
      destruct (StronglySorted_split _ _ _ _ Hsorted) as [Hbefore Hafter].
      assert (Hbest : In best (boardCells rows cols))
        by (rewrite Hsplit; apply in_or_app; right; now left).
      split; [now apply in_boardCells|]. split; [assumption|].
      intros rc Hin Hrc.
      assert (Hmem : In rc (boardCells rows cols)) by now apply in_boardCells.
      rewrite Hsplit in Hmem. apply in_app_or in Hmem.
      destruct Hmem as [Hmem|[<-|Hmem]].
      * split; [apply Qlt_le_weak|intros _]; now apply H1.
      * split; [apply Qle_refl|].
        unfold scannedBefore. lia.
      * split; [now apply H2|].
        intros Hb. specialize (Hafter rc Hmem).
        unfold scannedBefore in *. lia.
  - intros rc Hin. apply Hscan.
    + intros x Hx. apply Hval. now apply in_boardCells.
    + split; [reflexivity|intros x []].
    + now apply in_boardCells.
Qed.



(** ** The remaining ships of manual mode *)

Lemma indexOfFrom_found (x : Z) (l : list Z) (i : Z) :
  In x l ->
  exists l1 l2,
    l = l1 ++ x :: l2 /\ indexOfFrom x l i = i + Z.of_nat (List.length l1).
Proof.
  revert i. induction l as [|y l IH]; intros i Hin; [contradiction|].
  cbn [indexOfFrom]. destruct (y =? x) eqn:E.
  - apply Z.eqb_eq in E. subst y. exists [], l. split; [reflexivity|cbn; lia].
  - destruct Hin as [->|Hin]; [rewrite Z.eqb_refl in E; discriminate|].
    destruct (IH (i + 1) Hin) as [l1 [l2 [-> Hidx]]].
    exists (y :: l1), l2. split; [reflexivity|]. rewrite Hidx.
    cbn [List.length]. lia.
Qed.

Lemma indexOfFrom_missing (x : Z) (l : list Z) (i : Z) :
  ~ In x l -> indexOfFrom x l i = -1.
Proof.
  revert i. induction l as [|y l IH]; intros i Hin; [reflexivity|].
  cbn [indexOfFrom]. destruct (y =? x) eqn:E.
  - apply Z.eqb_eq in E. subst y. exfalso. apply Hin. now left.
  - apply IH. intros H. apply Hin. now right.
Qed.

Lemma spliceOne_middle {A : Type} (l1 l2 : list A) (x : A) :
  spliceOne (Z.of_nat (List.length l1)) (l1 ++ x :: l2) = l1 ++ l2.
Proof.
  unfold spliceOne. rewrite Nat2Z.id. f_equal.
  - rewrite firstn_app, Nat.sub_diag, firstn_all. cbn. apply app_nil_r.
  - rewrite skipn_app. rewrite skipn_all2 by lia.
    replace (List.length l1 + 1 - List.length l1)%nat with 1%nat by lia.
    reflexivity.
Qed.

Lemma remaining_counts (shipLengths kept sunkLengths : list Z) (len : Z) :
  count_occ Z.eq_dec
    (fst (fold_left
            (fun (st : list Z * list Z) length =>
               let (kept, sunkLengths) := st in
               let index := indexOf length sunkLengths in
               if negb (index =? -1) then (kept, spliceOne index sunkLengths)
               else (kept ++ [length], sunkLengths))
            shipLengths (kept, sunkLengths)))
    len
  = (count_occ Z.eq_dec kept len
     + (count_occ Z.eq_dec shipLengths len
        - count_occ Z.eq_dec sunkLengths len))%nat.
Proof.
  set (step := fun (st : list Z * list Z) length =>
                 let (kept, sunkLengths) := st in
                 let index := indexOf length sunkLengths in
                 if negb (index =? -1) then (kept, spliceOne index sunkLengths)
                 else (kept ++ [length], sunkLengths)).
  revert kept sunkLengths.
  induction shipLengths as [|x rest IH]; intros kept sunkLengths;
    cbn [fold_left fst]; [cbn; lia|].
  assert (Estep :
            step (kept, sunkLengths) x
            = if negb (indexOf x sunkLengths =? -1)
              then (kept, spliceOne (indexOf x sunkLengths) sunkLengths)
              else (kept ++ [x], sunkLengths)) by reflexivity.
  rewrite Estep. clear Estep.
  destruct (in_dec Z.eq_dec x sunkLengths) as [Hin|Hout].
  - destruct (indexOfFrom_found x sunkLengths 0 Hin) as [l1 [l2 [-> Hidx]]].
    unfold indexOf. rewrite Hidx.
    replace (0 + Z.of_nat (List.length l1) =? -1) with false
      by (symmetry; apply Z.eqb_neq; lia).
    cbn [negb]. rewrite Z.add_0_l, spliceOne_middle, IH.
    rewrite !count_occ_app. cbn [count_occ].
    destruct (Z.eq_dec x len); lia.
  - unfold indexOf. rewrite indexOfFrom_missing by assumption.
    change (-1 =? -1) with true. cbn [negb].
    rewrite IH. rewrite count_occ_app. cbn [count_occ].
    destruct (Z.eq_dec x len) as [->|Hne]; [|lia].
    rewrite (proj1 (count_occ_not_In Z.eq_dec sunkLengths len) Hout). lia.
Qed.

(** X20.  In manual mode the map shown is the engine's map for all recorded
    hits and misses and for the configured ships less the sunk ones, length
    by length: for every length, the number of remaining ships of that
    length is the number of configured ships of that length minus the number
    of sunk ships of that length, and never below zero. *)
Theorem manual_remaining_ships_by_length (g : Game.t)
  (player1 player2 : Player.t) :
  Game.gamePhase g = GamePhase.play ->
  Game.player1 g = Some player1 -> Game.player2 g = Some player2 ->
  Game.developerMode g = false ->
  exists remainingShips,
    getProbabilityMap g
    = Some (calculateProbabilityMap (Game.rows g) (Game.cols g)
              (Player.hits player1) (Player.misses player1) remainingShips
              (Game.probabilityMode g) (Player.sunkShips player1)) /\
    forall len,
      count_occ Z.eq_dec remainingShips len
      = (count_occ Z.eq_dec (Game.shipLengths g) len
         - count_occ Z.eq_dec (map sunkLength (Player.sunkShips player1)) len)%nat.
Proof.
  intros Hphase E1 E2 Hdev.
  exists (manualRemainingShips (Game.shipLengths g) (Player.sunkShips player1)).
  split.
  - unfold getProbabilityMap. now rewrite Hphase, E1, E2, Hdev.
  - intros len. unfold manualRemainingShips. rewrite remaining_counts.
    reflexivity.
Qed.

Lemma manual_remaining_ships_by_length_witness :
  let sunkShips := [mkSunkShip 3 [(0, 0); (0, 1); (0, 2)]] in
  let player1 :=
    Player.mk [] [] [(0, 0); (0, 1); (0, 2)] [(5, 5)] sunkShips in
  let player2 := Player.mk (mkGrid 10 10 emptyCell) [] [] [] [] in
  let shipLengths : list Z := [2; 3; 3; 4; 5] in
  let g :=
    Game.mk 10 10 shipLengths false OPTIMIZED GamePhase.play
            (Some player1) (Some player2) 5 (Stats.mk 4 3 1) None true in
  exists remainingShips,
    getProbabilityMap g
    = Some (calculateProbabilityMap 10 10 (Player.hits player1)
              (Player.misses player1) remainingShips OPTIMIZED sunkShips) /\
    forall len,
      count_occ Z.eq_dec remainingShips len
      = (count_occ Z.eq_dec shipLengths len
         - count_occ Z.eq_dec (map sunkLength sunkShips) len)%nat.
Proof.
  apply (manual_remaining_ships_by_length
           (Game.mk 10 10 [2; 3; 3; 4; 5] false OPTIMIZED GamePhase.play
              (Some (Player.mk [] [] [(0, 0); (0, 1); (0, 2)] [(5, 5)]
                       [mkSunkShip 3 [(0, 0); (0, 1); (0, 2)]]))
              (Some (Player.mk (mkGrid 10 10 emptyCell) [] [] [] []))
              5 (Stats.mk 4 3 1) None true)
           (Player.mk [] [] [(0, 0); (0, 1); (0, 2)] [(5, 5)]
              [mkSunkShip 3 [(0, 0); (0, 1); (0, 2)]])
           (Player.mk (mkGrid 10 10 emptyCell) [] [] [] []));
    reflexivity.
Defined.

(** X21.  When the configuration lists some length twice and no two sunk
    ships have the same length, manual mode always hands the engine at least
    one remaining ship. *)
Theorem repeated_length_is_never_used_up (shipLengths : list Z)
  (sunkShips : list SunkShip) :
  ~ NoDup shipLengths -> NoDup (map sunkLength sunkShips) ->
  manualRemainingShips shipLengths sunkShips <> [].
Proof.
  intros Hdup Hsunk Hnil.
  assert (Hex : exists len, (2 <= count_occ Z.eq_dec shipLengths len)%nat).
  { clear - Hdup. induction shipLengths as [|x l IH].
    - exfalso. apply Hdup. constructor.
    - destruct (in_dec Z.eq_dec x l) as [Hin|Hout].
      + exists x. cbn [count_occ]. destruct (Z.eq_dec x x); [|contradiction].
        apply (count_occ_In Z.eq_dec) in Hin. lia.
      + destruct IH as [len Hlen].
        * intros Hnd. apply Hdup. now constructor.
        * exists len. cbn [count_occ]. destruct (Z.eq_dec x len); lia. }
  destruct Hex as [len Hlen].
  pose proof (remaining_counts shipLengths [] (map sunkLength sunkShips) len)
    as Hcount.
  change (count_occ Z.eq_dec (manualRemainingShips shipLengths sunkShips) len
          = (count_occ Z.eq_dec [] len
             + (count_occ Z.eq_dec shipLengths len
                - count_occ Z.eq_dec (map sunkLength sunkShips) len))%nat)
    in Hcount.
  rewrite Hnil in Hcount. cbn [count_occ] in Hcount.
  pose proof (proj1 (NoDup_count_occ Z.eq_dec (map sunkLength sunkShips))
                    Hsunk len) as Hone.
  lia.
Qed.

Lemma repeated_length_is_never_used_up_witness :
  manualRemainingShips [2; 3; 3; 4; 5]
    [mkSunkShip 3 [(0, 0); (0, 1); (0, 2)]; mkSunkShip 2 [(4, 4); (4, 5)]]
  <> [].
Proof.
  apply repeated_length_is_never_used_up.
  - intros H. inversion H as [|? ? H2 H']; subst.
    inversion H' as [|? ? H3 _]; subst. apply H3. now left.
  - cbn. repeat constructor; cbn; intuition congruence.
Defined.

(** ** The shots on record *)








(** ** Ships that manual mode takes for sunk *)

Lemma inferSunkShip_fresh (shipLengths : list Z) (sunkShips : list SunkShip)
  (alignedGroups : list AlignedGroup) (sunkShip : SunkShip) :
  inferSunkShip shipLengths sunkShips alignedGroups = Some sunkShip ->
  In (sunkLength sunkShip) shipLengths /\
  ~ In (sunkLength sunkShip) (map sunkLength sunkShips) /\
  exists g,
    In g alignedGroups /\
    positions sunkShip = coordinates g /\
    sunkLength sunkShip = Z.of_nat (List.length (coordinates g)).
Proof.
  unfold inferSunkShip. intros H.
  destruct (find _ alignedGroups) as [g|] eqn:Efind; [|discriminate].
  inversion H; subst. cbn [sunkLength positions].
  apply find_some in Efind. destruct Efind as [Hg Hcond]. cbv zeta in Hcond.
  apply andb_true_iff in Hcond. destruct Hcond as [Hlen Hnew].
  apply existsb_exists in Hlen. destruct Hlen as [len [Hlen Heq]].
  apply Z.eqb_eq in Heq. subst len.
  apply negb_true_iff in Hnew.
  split; [assumption|]. split.
  - intros Hin. apply in_map_iff in Hin. destruct Hin as [ship [Hs Hship]].
    apply not_true_iff_false in Hnew. apply Hnew. apply existsb_exists.
    exists ship. split; [assumption|]. now apply Z.eqb_eq.
  - exists g. auto.
Qed.

(** X23.  In manual mode a shot adds at most one sunk ship to the record, and
    only one whose length is a configured length that no recorded sunk ship
    has yet and whose cells are an aligned group of the active hits.  So the
    lengths of the recorded sunk ships stay pairwise different. *)
Theorem manual_mode_sinks_each_length_once (g g' : Game.t) (row col : Z)
  (answer : ManualResult.t) (player1 player1' : Player.t) :
  Game.manualFeedbackMode g = true ->
  Game.player1 g = Some player1 ->
  NoDup (map sunkLength (Player.sunkShips player1)) ->
  processAttack g row col (Some answer) = Some g' ->
  Game.player1 g' = Some player1' ->
  NoDup (map sunkLength (Player.sunkShips player1')) /\
  (Player.sunkShips player1' = Player.sunkShips player1 \/
   exists sunkShip group,
     Player.sunkShips player1' = Player.sunkShips player1 ++ [sunkShip] /\
     In (sunkLength sunkShip) (Game.shipLengths g) /\
     In group (findAlignedHits
                 (getActiveHits (Player.hits player1')
                                (Player.sunkShips player1))) /\
     positions sunkShip = coordinates group /\
     sunkLength sunkShip = Z.of_nat (List.length (coordinates group))).
Proof.
  intros Hmanual E1 Hnd Hattack E1'. unfold processAttack in Hattack.
  rewrite E1, Hmanual in Hattack.
  assert (Hsame : g' = g ->
                  NoDup (map sunkLength (Player.sunkShips player1')) /\
                  (Player.sunkShips player1' = Player.sunkShips player1 \/
                   exists sunkShip group,
                     Player.sunkShips player1'
                     = Player.sunkShips player1 ++ [sunkShip] /\
                     In (sunkLength sunkShip) (Game.shipLengths g) /\
                     In group (findAlignedHits
                                 (getActiveHits (Player.hits player1')
                                                (Player.sunkShips player1))) /\
                     positions sunkShip = coordinates group /\
                     sunkLength sunkShip
                     = Z.of_nat (List.length (coordinates group)))).
  { intros ->. rewrite E1 in E1'. inversion E1'; subst. auto. }
  destruct (Game.gamePhase g);
    try (inversion Hattack; subst; now apply Hsame).
  destruct (Game.player2 g) as [player2|];
    [|inversion Hattack; subst; now apply Hsame].
  destruct (negb (inGrid (Player.board player2) row col)); [discriminate|].
  destruct (negb (untargeted (cellAtBoard (Player.board player2) (row, col))));
    [inversion Hattack; subst; now apply Hsame|].
  cbv zeta in Hattack. destruct answer.
  - destruct (inferSunkShip _ _ _) as [sunkShip|] eqn:Einfer;
      inversion Hattack; subst; clear Hattack;
      cbn [Game.player1] in E1'; inversion E1'; subst; clear E1';
      cbn [Player.sunkShips Player.hits]; [|auto].
    apply inferSunkShip_fresh in Einfer.
    destruct Einfer as [Hlen [Hfresh [group [Hgroup [Hpos Hsize]]]]].
    split.
    + rewrite map_app. cbn [map]. apply NoDup_app; [assumption| |].
      * constructor; [intros []|constructor].
      * intros x Hx [<-|[]]. contradiction.
    + right. exists sunkShip, group. split; [reflexivity|].
      split; [assumption|]. split; [|auto].
      unfold analyzeHitPatterns in Hgroup. cbv zeta in Hgroup.
      cbn [fst] in Hgroup. now rewrite analyzeHitPatterns_active in Hgroup.
  - inversion Hattack; subst; clear Hattack.
    cbn [Game.player1] in E1'. inversion E1'; subst. cbn [Player.sunkShips].
    auto.
Qed.

Lemma manual_mode_sinks_each_length_once_witness :
  let board := mkGrid 3 3 emptyCell in
  let player1 := Player.mk board [] [(1, 1)] [] [] in
  let player2 := Player.mk board [] [] [] [] in
  let g :=
    Game.mk 3 3 [2; 2] false NORMAL GamePhase.play (Some player1)
            (Some player2) 2 (Stats.mk 1 1 0) (Some (1, 2)) true in
  let sunkShip := mkSunkShip 2 [(1, 1); (1, 2)] in
  let player1' := Player.mk board [] [(1, 1); (1, 2)] [] [sunkShip] in
  NoDup (map sunkLength (Player.sunkShips player1')) /\
  (Player.sunkShips player1' = Player.sunkShips player1 \/
   exists sunkShip group,
     Player.sunkShips player1' = Player.sunkShips player1 ++ [sunkShip] /\
     In (sunkLength sunkShip) (Game.shipLengths g) /\
     In group (findAlignedHits
                 (getActiveHits (Player.hits player1')
                                (Player.sunkShips player1))) /\
     positions sunkShip = coordinates group /\
     sunkLength sunkShip = Z.of_nat (List.length (coordinates group))).
Proof.
  cbv zeta.
  eapply (manual_mode_sinks_each_length_once
            (Game.mk 3 3 [2; 2] false NORMAL GamePhase.play
                     (Some (Player.mk (mkGrid 3 3 emptyCell) [] [(1, 1)] [] []))
                     (Some (Player.mk (mkGrid 3 3 emptyCell) [] [] [] []))
                     2 (Stats.mk 1 1 0) (Some (1, 2)) true)
            _ 1 2 ManualResult.hit).
  - reflexivity.
  - reflexivity.
  - constructor.
  - vm_compute. reflexivity.
  - reflexivity.
Defined.

(** ** Clicking the highlighted move *)




(** ** Placing the fleet *)

Lemma isValidPlacement_cells (rows cols : Z) (board : list (list Cell))
  (shipLength startRow startCol : Z) (isHorizontal : bool) (rc : Coordinate) :
  isValidPlacement rows cols board shipLength startRow startCol isHorizontal
  = true ->
  In rc (map (fun i => (if isHorizontal then startRow else startRow + i,
                        if isHorizontal then startCol + i else startCol))
             (range 0 shipLength)) ->
  inBoard rows cols rc /\ state (cellAtBoard board rc) = CellState.empty.
Proof.
  unfold isValidPlacement. intros Hvalid Hin.
  destruct (if isHorizontal then _ else _); [discriminate|].
  rewrite forallb_forall in Hvalid.
  apply in_map_iff in Hin. destruct Hin as [i [<- Hi]].
  specialize (Hvalid i Hi). cbv zeta in Hvalid.
  destruct ((_ <? 0) || _ || _ || _) eqn:E; [discriminate|].
  rewrite !orb_false_iff, !Z.ltb_ge in E.
  destruct E as [[[E1 E2] E3] E4].
  apply not_true_iff_false in E2, E4. rewrite Z.geb_le in E2, E4.
  split; [unfold inBoard; cbn [fst snd]; lia|].
  destruct (state _); try discriminate. reflexivity.
Qed.

Lemma firstn_S_updNth {B : Type} (f : B -> B) (n : nat) (l : list B) (x : B) :
  nth_error l n = Some x ->
  firstn (Datatypes.S n) (updNth f n l) = firstn n l ++ [f x].
Proof.
  revert l. induction n as [|n IH]; intros l H; destruct l as [|y l];
    try discriminate; cbn [nth_error] in H.
  - inversion H; subst. reflexivity.
  - cbn [updNth firstn app]. f_equal. now apply IH.
Qed.

(** Writing one cell value to a list of cells of the board. *)
Lemma cell_after_writes (c0 : Cell) (positions : list Coordinate)
  (board : list (list Cell)) (rc : Coordinate) :
  (forall p, In p positions -> inGrid board (fst p) (snd p) = true) ->
  cellAtBoard (fold_left (fun b (p : Coordinate) =>
                            updCell (fun _ => c0) b (fst p) (snd p))
                         positions board) rc
  = if in_dec coord_eq_dec rc positions then c0 else cellAtBoard board rc.
Proof.
  revert board. induction positions as [|p positions IH]; intros board Hgrid;
    cbn [fold_left]; [reflexivity|].
  rewrite IH by (intros q Hq; rewrite inGrid_updCell; apply Hgrid; now right).
  destruct (in_dec coord_eq_dec rc positions) as [Hin|Hout].
  - destruct (in_dec coord_eq_dec rc (p :: positions)) as [_|Hno];
      [reflexivity|exfalso; apply Hno; now right].
  - unfold cellAtBoard.
    destruct (coord_eq_dec p rc) as [->|Hne].
    + rewrite getCell_updCell_same by (apply Hgrid; now left).
      destruct (in_dec coord_eq_dec rc (rc :: positions)) as [_|Hno];
        [reflexivity|exfalso; apply Hno; now left].
    + rewrite getCell_updCell_other
        by (intros E; apply Hne; destruct p, rc; cbn in E; congruence).
      destruct (in_dec coord_eq_dec rc (p :: positions)) as [[E|Hin]|_];
        [contradiction|contradiction|reflexivity].
Qed.

Lemma hasDims_writes (rows cols : Z) (c0 : Cell) (positions : list Coordinate)
  (board : list (list Cell)) :
  hasDims rows cols board ->
  hasDims rows cols
          (fold_left (fun b (p : Coordinate) =>
                        updCell (fun _ => c0) b (fst p) (snd p))
                     positions board).
Proof.
  revert board. induction positions as [|p positions IH]; intros board H;
    cbn [fold_left]; [assumption|].
  apply IH. now apply hasDims_updCell.
Qed.

Lemma NoDup_run (isHorizontal : bool) (row col len : Z) :
  NoDup (map (fun i => (if isHorizontal then row else row + i,
                        if isHorizontal then col + i else col))
             (range 0 len)).
Proof.
  apply Injective_map_NoDup; [|apply NoDup_range].
  intros i j E. destruct isHorizontal; inversion E; lia.
Qed.

(** X25.  Placing a ship keeps the fleet sound: the board keeps its shape, the
    ships placed so far lie on the board and share no cell, and a cell of
    the board is non-empty exactly when a placed ship covers it. *)
Theorem placeShip_keeps_the_fleet_apart (st : Placement.t) (row col : Z) :
  fleetApart st -> fleetApart (placeShip st row col).
Proof.
  intros Hst. unfold placeShip.
  destruct (nth_error (Placement.ships st) (Placement.currentShipIndex st))
    as [ship|] eqn:Eship; [|assumption].
  cbv zeta.
  set (isHorizontal := match Placement.orientation st with
                       | horizontal => true
                       | vertical => false
                       end).
  destruct (isValidPlacement _ _ _ _ _ _ _) eqn:Evalid; cbn [negb];
    [|assumption].
  set (positions :=
         map (fun i => (if isHorizontal then row else row + i,
                        if isHorizontal then col + i else col))
             (range 0 (Ship.length ship))).
  assert (Hnew : forall rc, In rc positions ->
                            inBoard (Placement.rows st) (Placement.cols st) rc /\
                            state (cellAtBoard (Placement.board st) rc)
                            = CellState.empty)
    by (intros rc; now apply isValidPlacement_cells).
  destruct Hst as [Hdims [Hon [Hnd Hshow]]].
  assert (Hcells :
            placedCells
              (Placement.mk (Placement.rows st) (Placement.cols st)
                 (fold_left
                    (fun b (rc : Coordinate) =>
                       updCell (fun _ => mkCell CellState.ship
                                                (Some (Ship.id ship)) None)
                               b (fst rc) (snd rc))
                    positions (Placement.board st))
                 (updNth (fun _ => Ship.mk (Ship.id ship) (Ship.length ship)
                                           positions (Ship.hits ship)
                                           (Ship.isSunk ship))
                         (Placement.currentShipIndex st) (Placement.ships st))
                 (Datatypes.S (Placement.currentShipIndex st))
                 (Placement.orientation st))
            = placedCells st ++ positions).
  { unfold placedCells. cbn [Placement.currentShipIndex Placement.ships].
    rewrite (firstn_S_updNth _ _ _ ship Eship), flat_map_app.
    cbn [flat_map Ship.positions]. now rewrite app_nil_r. }
  assert (Hgrid : forall p, In p positions ->
                            inGrid (Placement.board st) (fst p) (snd p) = true).
  { intros p Hp. destruct (Hnew p Hp) as [[Hr Hc] _].
    now apply (inGrid_hasDims (Placement.rows st) (Placement.cols st)). }
  unfold fleetApart. rewrite Hcells.
  cbn [Placement.rows Placement.cols Placement.board].
  split; [now apply hasDims_writes|]. split; [|split].
  - intros rc Hrc. apply in_app_or in Hrc. destruct Hrc as [Hrc|Hrc]; auto.
    now apply Hnew.
  - apply NoDup_app; [assumption|apply NoDup_run|].
    intros rc Hold Hrc. destruct (Hnew rc Hrc) as [Hin Hempty].
    apply (Hshow rc Hin) in Hold. contradiction.
  - intros rc Hin. rewrite cell_after_writes by assumption.
    rewrite in_app_iff.
    destruct (in_dec coord_eq_dec rc positions) as [Hrc|Hrc].
    + cbn [state]. split; [auto|discriminate].
    + rewrite (Hshow rc Hin). tauto.
Qed.

Lemma placeShip_keeps_the_fleet_apart_witness :
  fleetApart
    (placeShip
       (Placement.mk 3 3 (mkGrid 3 3 emptyCell)
                     [Ship.mk 1 2 [] 0 false; Ship.mk 2 3 [] 0 false]
                     0 horizontal)
       1 0).
Proof.
  apply (placeShip_keeps_the_fleet_apart
           (Placement.mk 3 3 (mkGrid 3 3 emptyCell)
                         [Ship.mk 1 2 [] 0 false; Ship.mk 2 3 [] 0 false]
                         0 horizontal)
           1 0).
  unfold fleetApart, placedCells. cbn [Placement.rows Placement.cols
    Placement.board Placement.ships Placement.currentShipIndex firstn flat_map].
  split; [apply hasDims_mkGrid|]. split; [intros rc []|].
  split; [constructor|].
  intros [r c] [Hr Hc]. cbn [fst snd] in Hr, Hc. unfold cellAtBoard.
  cbn [fst snd]. rewrite (getCell_mkGrid emptyCell 3 3) by lia.
  cbn. split; [congruence|intros []].
Defined.

(** ** The map on the board *)

Lemma nth_indexed {A B : Type} (f : Z * A -> B) (l : list A) (n : nat)
  (d : B) (d' : A) (lo : Z) :
  (n < List.length l)%nat ->
  nth n (map f (combine (range lo (lo + Z.of_nat (List.length l))) l)) d
  = f (lo + Z.of_nat n, nth n l d').
Proof.
  revert lo n. induction l as [|x l IH]; intros lo n Hn;
    [cbn in Hn; lia|].
  rewrite range_cons by (cbn [List.length]; lia).
  replace (lo + Z.of_nat (List.length (x :: l)))
    with (lo + 1 + Z.of_nat (List.length l)) by (cbn [List.length]; lia).
  cbn [combine map]. destruct n as [|n].
  - cbn [nth]. do 2 f_equal. lia.
  - cbn [nth]. cbn [List.length] in Hn. rewrite IH by lia.
    do 2 f_equal. lia.
Qed.

Lemma length_indexed {A B : Type} (f : Z * A -> B) (l : list A) (lo : Z) :
  List.length (map f (combine (range lo (lo + Z.of_nat (List.length l))) l))
  = List.length l.
Proof.
  rewrite length_map, length_combine, length_range. lia.
Qed.

Lemma cellAtBoard_showProbabilityMap (board : list (list Cell))
  (probMap : ProbabilityMap) (rc : Coordinate) :
  inGrid board (fst rc) (snd rc) = true ->
  cellAtBoard (showProbabilityMap board probMap) rc
  = mkCell (state (cellAtBoard board rc)) (shipId (cellAtBoard board rc))
           (Some (prob probMap rc)).
Proof.
  destruct rc as [r c]. cbn [fst snd]. unfold inGrid. intros Hin.
  rewrite !andb_true_iff, !Z.leb_le, !Nat.ltb_lt in Hin.
  destruct Hin as [[[Hr Hc] Hrow] Hcol].
  unfold cellAtBoard, getCell, showProbabilityMap. cbn [fst snd].
  replace ((0 <=? r) && (0 <=? c)) with true
    by (symmetry; apply andb_true_iff; split; now apply Z.leb_le).
  rewrite (nth_indexed _ board (Z.to_nat r) [] [] 0) by assumption.
  rewrite (nth_indexed _ (nth (Z.to_nat r) board []) (Z.to_nat c) emptyCell
                       emptyCell 0) by assumption.
  repeat f_equal; lia.
Qed.

(** X26.  Once the engine's map has been written into a board of [rows] rows
    and [cols] columns, the highlighted move is a cell of the board that is
    not yet targeted and whose engine value no other untargeted cell
    exceeds; no move is highlighted only when every cell is targeted.  The
    engine's values are never negative, so the scan that starts from -1
    misses no untargeted cell. *)
Theorem best_move_has_the_highest_engine_value (rows cols : Z)
  (board : list (list Cell)) (hits misses : list Coordinate)
  (remainingShips : list Z) (mode : ProbabilityMode)
  (sunkShips : list SunkShip) :
  hasDims rows cols board ->
  let probMap :=
    calculateProbabilityMap rows cols hits misses remainingShips mode
                            sunkShips in
  match findBestMove true true rows cols (showProbabilityMap board probMap) with
  | None =>
    forall rc, inBoard rows cols rc -> untargeted (cellAtBoard board rc) = false
  | Some best =>
    inBoard rows cols best /\
    untargeted (cellAtBoard board best) = true /\
    forall rc,
      inBoard rows cols rc -> untargeted (cellAtBoard board rc) = true ->
      (prob probMap rc <= prob probMap best)%Q
  end.
Proof.
  intros Hdims probMap.
  assert (Hcell : forall rc,
             inBoard rows cols rc ->
             cellAtBoard (showProbabilityMap board probMap) rc
             = mkCell (state (cellAtBoard board rc))
                      (shipId (cellAtBoard board rc))
                      (Some (prob probMap rc))).
  { intros rc [Hr Hc]. apply cellAtBoard_showProbabilityMap.
    now apply (inGrid_hasDims rows cols). }
  pose proof (findBestMove_scan rows cols (showProbabilityMap board probMap))
    as Hscan.
  destruct (findBestMove true true rows cols
                         (showProbabilityMap board probMap)) as [best|].
  - destruct Hscan as [Hin [Hun Hmax]].
    + intros rc Hrc. rewrite (Hcell rc Hrc). unfold probabilityOrZero.
      cbn [probability].
      apply Qlt_le_trans with (y := 0%Q); [reflexivity|].
      apply calculateProbabilityMap_nonneg.
    + split; [assumption|]. rewrite (Hcell best Hin) in Hun.
      split; [exact Hun|].
      intros rc Hrc Hrcun.
      destruct (Hmax rc Hrc) as [Hle _];
        [rewrite (Hcell rc Hrc); exact Hrcun|].
      rewrite (Hcell rc Hrc), (Hcell best Hin) in Hle. exact Hle.
  - intros rc Hrc.
    assert (Hall : untargeted (cellAtBoard (showProbabilityMap board probMap)
                                           rc) = false).
    { apply Hscan; [|assumption].
      intros x Hx. rewrite (Hcell x Hx). unfold probabilityOrZero.
      cbn [probability].
      apply Qlt_le_trans with (y := 0%Q); [reflexivity|].
      apply calculateProbabilityMap_nonneg. }
    rewrite (Hcell rc Hrc) in Hall. exact Hall.
Qed.

Lemma best_move_has_the_highest_engine_value_witness :
  let board := mkGrid 5 5 emptyCell in
  let remainingShips : list Z := [3] in
  let probMap := calculateProbabilityMap 5 5 [] [] remainingShips NORMAL [] in
  match findBestMove true true 5 5 (showProbabilityMap board probMap) with
  | None =>
    forall rc, inBoard 5 5 rc -> untargeted (cellAtBoard board rc) = false
  | Some best =>
    inBoard 5 5 best /\
    untargeted (cellAtBoard board best) = true /\
    forall rc,
      inBoard 5 5 rc -> untargeted (cellAtBoard board rc) = true ->
      (prob probMap rc <= prob probMap best)%Q
  end.
Proof.
  apply (best_move_has_the_highest_engine_value 5 5 (mkGrid 5 5 emptyCell)
           [] [] [3] NORMAL []).
  apply hasDims_mkGrid.
Defined.
